(** * LeGO-LOAM image projection: range image, ground mask and segmentation

    A shallow embedding of [ImageProjection] (imageProjection.cpp) and of the
    configuration constants of [utility.h].  Integer data (indices, labels,
    ring indices) is modelled exactly.  The places where the source computes
    with [float] on the coordinates of the points are kept as operations of
    the class [FloatOps], so that the statements below hold for every
    interpretation of those operations.  The two computations that the
    specification speaks of, the azimuth bracket and the encoded cell key,
    are modelled in binary floating point: a [float] or a [double] is a
    rational number and every operation is followed by the rounding to the
    nearest number of its format. *)

From Stdlib Require Import ZArith List Bool Lia Arith PeanoNat FinFun.
From Stdlib Require Import QArith Qround Qabs Qminmax Qpower.
From Stdlib Require Import Reals Psatz Machin Qreals.
Import ListNotations.

Set Implicit Arguments.

(** ** Configuration (utility.h) *)

Class Geometry := {
  N_SCAN : nat;
  Horizon_SCAN : nat;
  groundScanInd : nat;
  segmentValidPointNum : nat;
  segmentValidLineNum : nat;
  useCloudRing : bool
}.

(** The configuration that utility.h leaves uncommented. *)
Definition VLP16 : Geometry :=
  {| N_SCAN := 16; Horizon_SCAN := 1800; groundScanInd := 7;
     segmentValidPointNum := 5; segmentValidLineNum := 3;
     useCloudRing := true |}.

(** The scratch arrays and the ring channel hold 16-bit indices. *)
Definition u16 (n : nat) : nat := Z.to_nat (Z.of_nat n mod 65536).

Definition fits16 (g : Geometry) : Prop :=
  (Z.of_nat N_SCAN <= 65536 /\ Z.of_nat Horizon_SCAN <= 65536)%Z.

(** ** Single-precision operations of the source, kept abstract *)

Class FloatOps := {
  F : Type;
  (** [std::numeric_limits<float>::quiet_NaN()] *)
  NaN : F;
  FLT_MAX : F;
  (** the [float] 0 that [assign] writes into [segmentedCloudRange] *)
  fzero : F;
  (** [a == b] *)
  feqb : F -> F -> bool;
  (** the test of [pcl::removeNaNFromPointCloud]: all of x, y, z finite *)
  finite3 : F -> F -> F -> bool;
  (** the start orientation, end orientation and orientation difference
      that [findStartEndAngle] stores for the first and the last point *)
  startEndAngle : (F * F * F) -> (F * F * F) -> F * F * F;
  (** [(atan2(z, sqrt(x*x + y*y))*180/M_PI + ang_bottom) / ang_res_y], as
      stored into the [size_t] rowIdn *)
  rowOf : F -> F -> F -> nat;
  (** [-round((atan2(x,y)*180/M_PI - 90.0)/ang_res_x) + Horizon_SCAN/2],
      as stored into the [size_t] columnIdn *)
  columnOf : F -> F -> nat;
  (** [sqrt(x*x + y*y + z*z)] *)
  rangeOf : F -> F -> F -> F;
  (** [range < sensorMinimumRange] *)
  belowMinimumRange : F -> bool;
  (** [abs(atan2(diffZ, sqrt(diffX*diffX + diffY*diffY))*180/M_PI
           - sensorMountAngle) <= 10] for the lower and the upper point *)
  nearMountAngle : (F * F * F) -> (F * F * F) -> bool;
  (** [atan2(d2*sin(alpha), d1 - d2*cos(alpha)) > segmentTheta], where d1 and
      d2 are the larger and the smaller of the two ranges and alpha is
      segmentAlphaX when the flag is true, segmentAlphaY otherwise *)
  angleAboveTheta : F -> F -> bool -> bool;
  (** FLT_MAX is a number: it compares equal to itself *)
  FLT_MAX_eq : feqb FLT_MAX FLT_MAX = true
}.

(** ** Matrices and arrays

    [cv::Mat] and the pre-sized vectors are total functions of their
    indices; the source only reads and writes inside the bounds. *)

Definition Mat (A : Type) := nat -> nat -> A.

Definition mat_set {A} (m : Mat A) (i j : nat) (v : A) : Mat A :=
  fun i' j' => if (i' =? i)%nat && (j' =? j)%nat then v else m i' j'.

Definition Arr (A : Type) := nat -> A.

Definition arr_set {A} (a : Arr A) (k : nat) (v : A) : Arr A :=
  fun k' => if (k' =? k)%nat then v else a k'.

(** The label that marks the cells of a rejected cluster. *)
Definition SENTINEL_DROP : Z := 999999.

(** ** labelComponents: breadth-first labelling of one cluster *)

Definition neighborIterator : list (Z * Z) :=
  [(-1, 0); (0, 1); (0, -1); (1, 0)]%Z.

Definition neighbor `{Geometry} (from : nat * nat) (d : Z * Z)
  : option (nat * nat) :=
  let thisIndX := (Z.of_nat (fst from) + fst d)%Z in
  let thisIndY := (Z.of_nat (snd from) + snd d)%Z in
  if ((thisIndX <? 0) || (thisIndX >=? Z.of_nat N_SCAN))%Z then None
  else
    let thisIndY :=
      if (thisIndY <? 0)%Z then (Z.of_nat Horizon_SCAN - 1)%Z else thisIndY in
    let thisIndY :=
      if (thisIndY >=? Z.of_nat Horizon_SCAN)%Z then 0%Z else thisIndY in
    Some (Z.to_nat thisIndX, Z.to_nat thisIndY).

(** The locals of [labelComponents] while the queue is processed.  The
    pending part of the queue arrays, from queueStartInd to queueEndInd, is
    [b_queue]; [b_pushed] is allPushedInd, in the order of the pushes. *)
Record Bfs := {
  b_label : Mat Z;
  b_queue : list (nat * nat);
  b_pushed : list (nat * nat);
  b_line : Arr bool
}.

Definition visit `{Geometry} `{FloatOps} (rangeMat : Mat F) (labelCount : Z)
    (from : nat * nat) (s : Bfs) (d : Z * Z) : Bfs :=
  match neighbor from d with
  | None => s
  | Some (thisIndX, thisIndY) =>
      if negb (b_label s thisIndX thisIndY =? 0)%Z then s
      else if angleAboveTheta (rangeMat (fst from) (snd from))
                              (rangeMat thisIndX thisIndY)
                              (fst d =? 0)%Z
      then {| b_label := mat_set (b_label s) thisIndX thisIndY labelCount;
              b_queue := b_queue s ++ [(u16 thisIndX, u16 thisIndY)];
              b_pushed := b_pushed s ++ [(u16 thisIndX, u16 thisIndY)];
              b_line := arr_set (b_line s) thisIndX true |}
      else s
  end.

(** One iteration of the [while]: pop, mark, look at the four neighbours. *)
Definition bfs_step `{Geometry} `{FloatOps} (rangeMat : Mat F)
    (labelCount : Z) (from : nat * nat) (rest : list (nat * nat)) (s : Bfs)
  : Bfs :=
  fold_left (visit rangeMat labelCount from) neighborIterator
    {| b_label := mat_set (b_label s) (fst from) (snd from) labelCount;
       b_queue := rest;
       b_pushed := b_pushed s;
       b_line := b_line s |}.

(** [while (queueSize > 0)], with the iterations counted by [fuel]. *)
Fixpoint bfs `{Geometry} `{FloatOps} (fuel : nat) (rangeMat : Mat F)
    (labelCount : Z) (s : Bfs) : option Bfs :=
  match b_queue s with
  | [] => Some s
  | from :: rest =>
      match fuel with
      | O => None
      | S fuel' =>
          bfs fuel' rangeMat labelCount (bfs_step rangeMat labelCount from rest s)
      end
  end.

Definition lineCount `{Geometry} (flags : Arr bool) : nat :=
  length (filter flags (seq 0 N_SCAN)).

Definition feasibleSegment `{Geometry} (s : Bfs) : bool :=
  if (30 <=? length (b_pushed s))%nat then true
  else if (segmentValidPointNum <=? length (b_pushed s))%nat
       then (segmentValidLineNum <=? lineCount (b_line s))%nat
       else false.

Definition mark_invalid (m : Mat Z) (pushed : list (nat * nat)) : Mat Z :=
  fold_left (fun m p => mat_set m (fst p) (snd p) SENTINEL_DROP) pushed m.

Definition bfs_init (labelMat : Mat Z) (row col : nat) : Bfs :=
  {| b_label := labelMat;
     b_queue := [(u16 row, u16 col)];
     b_pushed := [(u16 row, u16 col)];
     b_line := fun _ => false |}.

(** The queue arrays have N_SCAN*Horizon_SCAN entries, which bounds the
    number of iterations (see [bfs_total]). *)
Definition bfs_fuel `{Geometry} : nat := S (N_SCAN * Horizon_SCAN).

(** [labelComponents(row, col)]: the new labelMat and labelCount. *)
Definition labelComponents `{Geometry} `{FloatOps} (rangeMat : Mat F)
    (labelMat : Mat Z) (labelCount : Z) (row col : nat)
  : option (Mat Z * Z) :=
  match bfs bfs_fuel rangeMat labelCount (bfs_init labelMat row col) with
  | None => None
  | Some s =>
      if feasibleSegment s then Some (b_label s, (labelCount + 1)%Z)
      else Some (mark_invalid (b_label s) (b_pushed s), labelCount)
  end.

(** ** Binary floating point

    A number of a binary format is a rational; an operation of the source
    is the exact operation followed by the rounding to the nearest number
    with p significant bits, ties to even: p = 24 for [float], p = 53 for
    [double].  The exponent range is not modelled: the numbers below are
    far from overflow, and a sum or a difference of two numbers of a
    format that falls in its subnormal range is exact. *)

Definition pow2 (e : Z) : Q := (2 ^ e)%Q.

(** The exponent of a positive rational: the e with 2^e <= q < 2^(e+1). *)
Definition ilog2 (q : Q) : Z :=
  let e := (Z.log2 (Qnum q) - Z.log2 (Zpos (Qden q)))%Z in
  if Qle_bool (pow2 e) q then e else (e - 1)%Z.

(** The nearest integer, ties to even. *)
Definition rne (q : Q) : Z :=
  let f := Qfloor q in
  match (q - inject_Z f ?= 1 # 2)%Q with
  | Lt => f
  | Gt => (f + 1)%Z
  | Eq => if Z.even f then f else (f + 1)%Z
  end.

Definition round_to (p : Z) (q : Q) : Q :=
  if Qeq_bool q 0 then 0%Q
  else let u := pow2 (ilog2 (Qabs q) - p + 1) in
       Qred (inject_Z (rne (q / u)) * u).

(** The value stored into a [float], and the result of a [double]
    operation. *)
Definition rnd32 : Q -> Q := round_to 24.
Definition rnd64 : Q -> Q := round_to 53.

(** [M_PI] of math.h, the [double] nearest to pi:
    3.141592653589793115997963... *)
Definition M_PI : Q := 884279719003555 # 281474976710656.

(** The [float] nearest to pi, 3.1415927410125732: the largest value of
    [atan2] on [float] arguments. *)
Definition PI_f : Q := 13176795 # 4194304.

(** [a > b] and [a < b] *)
Definition Qgtb (a b : Q) : bool := negb (Qle_bool a b).
Definition Qltb (a b : Q) : bool := negb (Qle_bool b a).

(** ** The encoded cell key of fullCloud *)

(** [(float)rowIdn + (float)columnIdn / 10000.0], stored into the [float]
    intensity: the quotient and the sum are [double] operations. *)
Definition cell_key (rowIdn columnIdn : nat) : Q :=
  rnd32 (rnd64 (rnd32 (inject_Z (Z.of_nat rowIdn))
                + rnd64 (rnd32 (inject_Z (Z.of_nat columnIdn)) / 10000))).

(** C [round] on a non-negative argument: halves go up. *)
Definition Qround_half_up (q : Q) : Z := Qfloor (q + (1 # 2))%Q.

(** [r = floor(intensity)], [c = round((intensity - r) * 10000)] *)
Definition decode_key (intensity : Q) : Z * Z :=
  let r := Qfloor intensity in
  (r, Qround_half_up ((intensity - inject_Z r) * 10000)%Q).

(** ** The members of ImageProjection *)

Record PointXYZI `{FloatOps} := {
  xyz : F * F * F;
  intensity : Q
}.

Record PointXYZIR `{FloatOps} := {
  xyz_r : F * F * F;
  ring : nat
}.

Definition nanPoint `{FloatOps} : PointXYZI :=
  {| xyz := (NaN, NaN, NaN); intensity := (-1)%Q |}.

(** What the node tells the middleware. *)
Inductive Topic :=
| full_cloud_projected | full_cloud_info | ground_cloud | segmented_cloud
| segmented_cloud_pure | segmented_cloud_info | outlier_cloud.

Inductive RosEvent :=
| ROS_ERROR
| ros_shutdown
| publish (t : Topic).

(** The incoming sensor_msgs::PointCloud2, as [pcl::fromROSMsg] reads it. *)
Record PointCloud2 `{FloatOps} := {
  msg_points : list PointXYZIR;
  msg_is_dense : bool
}.

(** [getNumSubscribers()] of the publishers the handler asks. *)
Record Subscribers := {
  subFullCloud : nat;
  subFullInfoCloud : nat;
  subGroundCloud : nat;
  subSegmentedCloudPure : nat
}.

Record State `{FloatOps} := {
  laserCloudIn : list (F * F * F);
  laserCloudInRing : list PointXYZIR;
  fullCloud : Arr PointXYZI;
  fullInfoCloud : Arr (option (F * F * F * F));
  groundCloud : list PointXYZI;
  segmentedCloud : list PointXYZI;
  segmentedCloudPure : list PointXYZI;
  outlierCloud : list PointXYZI;
  rangeMat : Mat F;
  labelMat : Mat Z;
  groundMat : Mat Z;
  labelCount : Z;
  orientation : F * F * F;
  startRingIndex : Arr Z;
  endRingIndex : Arr Z;
  segmentedCloudGroundFlag : Arr bool;
  segmentedCloudColInd : Arr nat;
  segmentedCloudRange : Arr F;
  ros : list RosEvent
}.

(** ** The stages of cloudHandler *)

(** The constructor's [allocateMemory]: the clouds are created, fullCloud
    and fullInfoCloud are resized, the arrays of segMsg are assigned their
    initial values.  The matrices and labelCount are first written by
    [resetParameters]. *)
Definition allocateMemory `{FloatOps} : State :=
  {| laserCloudIn := [];
     laserCloudInRing := [];
     fullCloud := fun _ => {| xyz := (fzero, fzero, fzero); intensity := 0%Q |};
     fullInfoCloud := fun _ => Some (fzero, fzero, fzero, fzero);
     groundCloud := [];
     segmentedCloud := [];
     segmentedCloudPure := [];
     outlierCloud := [];
     rangeMat := fun _ _ => fzero;
     labelMat := fun _ _ => 0%Z;
     groundMat := fun _ _ => 0%Z;
     labelCount := 0%Z;
     orientation := (fzero, fzero, fzero);
     startRingIndex := fun _ => 0%Z;
     endRingIndex := fun _ => 0%Z;
     segmentedCloudGroundFlag := fun _ => false;
     segmentedCloudColInd := fun _ => 0%nat;
     segmentedCloudRange := fun _ => fzero;
     ros := [] |}.

Definition resetParameters `{FloatOps} (s : State) : State :=
  {| laserCloudIn := [];
     laserCloudInRing := laserCloudInRing s;
     fullCloud := fun _ => nanPoint;
     fullInfoCloud := fun _ => None;
     groundCloud := [];
     segmentedCloud := [];
     segmentedCloudPure := [];
     outlierCloud := [];
     rangeMat := fun _ _ => FLT_MAX;
     labelMat := fun _ _ => 0%Z;
     groundMat := fun _ _ => 0%Z;
     labelCount := 1%Z;
     orientation := orientation s;
     startRingIndex := startRingIndex s;
     endRingIndex := endRingIndex s;
     segmentedCloudGroundFlag := segmentedCloudGroundFlag s;
     segmentedCloudColInd := segmentedCloudColInd s;
     segmentedCloudRange := segmentedCloudRange s;
     ros := ros s |}.

(** The state the constructor leaves. *)
Definition initial `{FloatOps} : State := resetParameters allocateMemory.

(** [pcl::removeNaNFromPointCloud] is a function of PCL: it copies a cloud
    whose is_dense flag is set as it is, and keeps the points with finite
    coordinates of the others. *)
Definition removeNaNFromPointCloud `{FloatOps} (is_dense : bool)
    (points : list (F * F * F)) : list (F * F * F) :=
  if is_dense then points
  else filter (fun p => let '(x, y, z) := p in finite3 x y z) points.

Definition copyPointCloud `{Geometry} `{FloatOps} (msg : PointCloud2)
    (s : State) : State :=
  {| laserCloudIn := removeNaNFromPointCloud (msg_is_dense msg)
                       (map xyz_r (msg_points msg));
     laserCloudInRing := if useCloudRing then msg_points msg else laserCloudInRing s;
     fullCloud := fullCloud s;
     fullInfoCloud := fullInfoCloud s;
     groundCloud := groundCloud s;
     segmentedCloud := segmentedCloud s;
     segmentedCloudPure := segmentedCloudPure s;
     outlierCloud := outlierCloud s;
     rangeMat := rangeMat s;
     labelMat := labelMat s;
     groundMat := groundMat s;
     labelCount := labelCount s;
     orientation := orientation s;
     startRingIndex := startRingIndex s;
     endRingIndex := endRingIndex s;
     segmentedCloudGroundFlag := segmentedCloudGroundFlag s;
     segmentedCloudColInd := segmentedCloudColInd s;
     segmentedCloudRange := segmentedCloudRange s;
     ros := if useCloudRing && negb (msg_is_dense msg)
          then ros s ++ [ROS_ERROR; ros_shutdown] else ros s |}.

(** [findStartEndAngle] reads points[0] and points[size - 1]: there is no
    result on an empty cloud. *)
Definition findStartEndAngle `{FloatOps} (s : State) : option State :=
  match laserCloudIn s with
  | [] => None
  | p0 :: _ =>
      Some
      {| laserCloudIn := laserCloudIn s;
         laserCloudInRing := laserCloudInRing s;
         fullCloud := fullCloud s;
         fullInfoCloud := fullInfoCloud s;
         groundCloud := groundCloud s;
         segmentedCloud := segmentedCloud s;
         segmentedCloudPure := segmentedCloudPure s;
         outlierCloud := outlierCloud s;
         rangeMat := rangeMat s;
         labelMat := labelMat s;
         groundMat := groundMat s;
         labelCount := labelCount s;
         orientation := startEndAngle p0 (last (laserCloudIn s) p0);
         startRingIndex := startRingIndex s;
         endRingIndex := endRingIndex s;
         segmentedCloudGroundFlag := segmentedCloudGroundFlag s;
         segmentedCloudColInd := segmentedCloudColInd s;
         segmentedCloudRange := segmentedCloudRange s;
         ros := ros s |}
  end.

(** One iteration of the loop of [projectPointCloud], for point i. *)
Definition project_point `{Geometry} `{FloatOps} (s : State)
    (ip : nat * (F * F * F)) : State :=
  let '(i, (x, y, z)) := ip in
  let rowIdn :=
    if useCloudRing then ring (nth i (laserCloudInRing s)
                                 {| xyz_r := (x, y, z); ring := 0 |})
    else rowOf x y z in
  if (N_SCAN <=? rowIdn)%nat then s
  else
    let columnIdn := columnOf x y in
    let columnIdn :=
      if (Horizon_SCAN <=? columnIdn)%nat then (columnIdn - Horizon_SCAN)%nat
      else columnIdn in
    if (Horizon_SCAN <=? columnIdn)%nat then s
    else
      let range := rangeOf x y z in
      if belowMinimumRange range then s
      else
        let index := (columnIdn + rowIdn * Horizon_SCAN)%nat in
        {| laserCloudIn := laserCloudIn s;
           laserCloudInRing := laserCloudInRing s;
           fullCloud := arr_set (fullCloud s) index
                       {| xyz := (x, y, z);
                          intensity := cell_key rowIdn columnIdn |};
           fullInfoCloud := arr_set (fullInfoCloud s) index (Some (x, y, z, range));
           groundCloud := groundCloud s;
           segmentedCloud := segmentedCloud s;
           segmentedCloudPure := segmentedCloudPure s;
           outlierCloud := outlierCloud s;
           rangeMat := mat_set (rangeMat s) rowIdn columnIdn range;
           labelMat := labelMat s;
           groundMat := groundMat s;
           labelCount := labelCount s;
           orientation := orientation s;
           startRingIndex := startRingIndex s;
           endRingIndex := endRingIndex s;
           segmentedCloudGroundFlag := segmentedCloudGroundFlag s;
           segmentedCloudColInd := segmentedCloudColInd s;
           segmentedCloudRange := segmentedCloudRange s;
           ros := ros s |}.

Definition projectPointCloud `{Geometry} `{FloatOps} (s : State) : State :=
  fold_left project_point
    (combine (seq 0 (length (laserCloudIn s))) (laserCloudIn s)) s.

(** [for (size_t i = 0; i < n; ++i) body], on the variables the body
    changes. *)
Definition for_range {S : Type} (n : nat) (body : nat -> S -> S) (s : S) : S :=
  fold_left (fun acc i => body i acc) (seq 0 n) s.

(** The body of the first loop nest of [groundRemoval], for column j and
    row i, on groundMat. *)
Definition ground_cell `{Geometry} `{FloatOps} (cloud : Arr PointXYZI)
    (j i : nat) (gm : Mat Z) : Mat Z :=
  let lowerInd := (j + i * Horizon_SCAN)%nat in
  let upperInd := (j + (i + 1) * Horizon_SCAN)%nat in
  if Qeq_bool (intensity (cloud lowerInd)) (-1)
     || Qeq_bool (intensity (cloud upperInd)) (-1)
  then mat_set gm i j (-1)%Z
  else if nearMountAngle (xyz (cloud lowerInd)) (xyz (cloud upperInd))
       then mat_set (mat_set gm i j 1%Z) (i + 1) j 1%Z
       else gm.

Definition ground_pass `{Geometry} `{FloatOps} (cloud : Arr PointXYZI)
    (gm : Mat Z) : Mat Z :=
  for_range Horizon_SCAN
    (fun j => for_range groundScanInd (ground_cell cloud j)) gm.

(** The second loop nest: cells that segmentation must not label. *)
Definition mark_cell `{FloatOps} (gm : Mat Z) (rm : Mat F) (i j : nat)
    (lm : Mat Z) : Mat Z :=
  if (gm i j =? 1)%Z || feqb (rm i j) FLT_MAX then mat_set lm i j (-1)%Z
  else lm.

Definition mark_pass `{Geometry} `{FloatOps} (gm : Mat Z) (rm : Mat F)
    (lm : Mat Z) : Mat Z :=
  for_range N_SCAN (fun i => for_range Horizon_SCAN (mark_cell gm rm i)) lm.

Definition ground_points `{Geometry} `{FloatOps} (gm : Mat Z)
    (cloud : Arr PointXYZI) (acc : list PointXYZI) : list PointXYZI :=
  for_range (S groundScanInd)
    (fun i => for_range Horizon_SCAN
       (fun j acc =>
          if (gm i j =? 1)%Z then acc ++ [cloud (j + i * Horizon_SCAN)%nat]
          else acc)) acc.

Definition groundRemoval `{Geometry} `{FloatOps} (subs : Subscribers)
    (s : State) : State :=
  let gm := ground_pass (fullCloud s) (groundMat s) in
  {| laserCloudIn := laserCloudIn s;
     laserCloudInRing := laserCloudInRing s;
     fullCloud := fullCloud s;
     fullInfoCloud := fullInfoCloud s;
     groundCloud := if negb (subGroundCloud subs =? 0)%nat
                  then ground_points gm (fullCloud s) (groundCloud s)
                  else groundCloud s;
     segmentedCloud := segmentedCloud s;
     segmentedCloudPure := segmentedCloudPure s;
     outlierCloud := outlierCloud s;
     rangeMat := rangeMat s;
     labelMat := mark_pass gm (rangeMat s) (labelMat s);
     groundMat := gm;
     labelCount := labelCount s;
     orientation := orientation s;
     startRingIndex := startRingIndex s;
     endRingIndex := endRingIndex s;
     segmentedCloudGroundFlag := segmentedCloudGroundFlag s;
     segmentedCloudColInd := segmentedCloudColInd s;
     segmentedCloudRange := segmentedCloudRange s;
     ros := ros s |}.

(** The first loop nest of [cloudSegmentation], on labelMat and labelCount. *)
Definition segment_cell `{Geometry} `{FloatOps} (rm : Mat F) (i j : nat)
    (acc : option (Mat Z * Z)) : option (Mat Z * Z) :=
  match acc with
  | None => None
  | Some (lm, lc) =>
      if (lm i j =? 0)%Z then labelComponents rm lm lc i j else Some (lm, lc)
  end.

Definition segment_pass `{Geometry} `{FloatOps} (rm : Mat F) (lm : Mat Z)
    (lc : Z) : option (Mat Z * Z) :=
  for_range N_SCAN (fun i => for_range Horizon_SCAN (segment_cell rm i))
    (Some (lm, lc)).

(** What the extraction loop of [cloudSegmentation] writes. *)
Record Emit `{FloatOps} := {
  sizeOfSegCloud : nat;
  e_segmented : list PointXYZI;
  e_outlier : list PointXYZI;
  e_groundFlag : Arr bool;
  e_colInd : Arr nat;
  e_range : Arr F;
  e_start : Arr Z;
  e_end : Arr Z
}.

(** [j < Horizon_SCAN-5] compares a size_t with an int: the int is
    converted to the 64-bit unsigned type. *)
Definition away_from_right_edge `{Geometry} (j : nat) : bool :=
  (Z.of_nat j <? (Z.of_nat Horizon_SCAN - 5) mod 2 ^ 64)%Z.

Definition emit_cell `{Geometry} `{FloatOps} (s : State) (i j : nat)
    (e : Emit) : Emit :=
  if (labelMat s i j >? 0)%Z || (groundMat s i j =? 1)%Z then
    if (labelMat s i j =? 999999)%Z then
      if (groundScanInd <? i)%nat && (j mod 5 =? 0)%nat then
        {| sizeOfSegCloud := sizeOfSegCloud e;
           e_segmented := e_segmented e;
           e_outlier := e_outlier e ++ [fullCloud s (j + i * Horizon_SCAN)%nat];
           e_groundFlag := e_groundFlag e;
           e_colInd := e_colInd e;
           e_range := e_range e;
           e_start := e_start e;
           e_end := e_end e |}
      else e
    else if (groundMat s i j =? 1)%Z
            && (negb (j mod 5 =? 0)%nat && (5 <? j)%nat
                && away_from_right_edge j)
    then e
    else
      {| sizeOfSegCloud := S (sizeOfSegCloud e);
         e_segmented :=
           e_segmented e ++ [fullCloud s (j + i * Horizon_SCAN)%nat];
         e_outlier := e_outlier e;
         e_groundFlag :=
           arr_set (e_groundFlag e) (sizeOfSegCloud e) (groundMat s i j =? 1)%Z;
         e_colInd := arr_set (e_colInd e) (sizeOfSegCloud e) j;
         e_range := arr_set (e_range e) (sizeOfSegCloud e) (rangeMat s i j);
         e_start := e_start e;
         e_end := e_end e |}
  else e.

Definition set_start `{FloatOps} (i : nat) (e : Emit) : Emit :=
  {| sizeOfSegCloud := sizeOfSegCloud e;
     e_segmented := e_segmented e;
     e_outlier := e_outlier e;
     e_groundFlag := e_groundFlag e;
     e_colInd := e_colInd e;
     e_range := e_range e;
     e_start := arr_set (e_start e) i (Z.of_nat (sizeOfSegCloud e) - 1 + 5)%Z;
     e_end := e_end e |}.

Definition set_end `{FloatOps} (i : nat) (e : Emit) : Emit :=
  {| sizeOfSegCloud := sizeOfSegCloud e;
     e_segmented := e_segmented e;
     e_outlier := e_outlier e;
     e_groundFlag := e_groundFlag e;
     e_colInd := e_colInd e;
     e_range := e_range e;
     e_start := e_start e;
     e_end := arr_set (e_end e) i (Z.of_nat (sizeOfSegCloud e) - 1 - 5)%Z |}.

Definition emit_row `{Geometry} `{FloatOps} (s : State) (i : nat) (e : Emit)
  : Emit :=
  set_end i (for_range Horizon_SCAN (emit_cell s i) (set_start i e)).

Definition emit_init `{FloatOps} (s : State) : Emit :=
  {| sizeOfSegCloud := 0;
     e_segmented := segmentedCloud s;
     e_outlier := outlierCloud s;
     e_groundFlag := segmentedCloudGroundFlag s;
     e_colInd := segmentedCloudColInd s;
     e_range := segmentedCloudRange s;
     e_start := startRingIndex s;
     e_end := endRingIndex s |}.

Definition emit_pass `{Geometry} `{FloatOps} (s : State) : Emit :=
  for_range N_SCAN (emit_row s) (emit_init s).

(** The cloud for visualisation: the cells of valid clusters, with the
    label as intensity. *)
Definition pure_cell `{Geometry} `{FloatOps} (lm : Mat Z)
    (cloud : Arr PointXYZI) (i j : nat) (acc : list PointXYZI)
  : list PointXYZI :=
  if (lm i j >? 0)%Z && negb (lm i j =? 999999)%Z
  then acc ++ [{| xyz := xyz (cloud (j + i * Horizon_SCAN)%nat);
                  intensity := inject_Z (lm i j) |}]
  else acc.

Definition pure_pass `{Geometry} `{FloatOps} (lm : Mat Z)
    (cloud : Arr PointXYZI) (acc : list PointXYZI) : list PointXYZI :=
  for_range N_SCAN (fun i => for_range Horizon_SCAN (pure_cell lm cloud i)) acc.

(** The state once the labelling loop has written labelMat and
    labelCount. *)
Definition set_labels `{FloatOps} (s : State) (lm : Mat Z) (lc : Z) : State :=
  {| laserCloudIn := laserCloudIn s;
     laserCloudInRing := laserCloudInRing s;
     fullCloud := fullCloud s;
     fullInfoCloud := fullInfoCloud s;
     groundCloud := groundCloud s;
     segmentedCloud := segmentedCloud s;
     segmentedCloudPure := segmentedCloudPure s;
     outlierCloud := outlierCloud s;
     rangeMat := rangeMat s;
     labelMat := lm;
     groundMat := groundMat s;
     labelCount := lc;
     orientation := orientation s;
     startRingIndex := startRingIndex s;
     endRingIndex := endRingIndex s;
     segmentedCloudGroundFlag := segmentedCloudGroundFlag s;
     segmentedCloudColInd := segmentedCloudColInd s;
     segmentedCloudRange := segmentedCloudRange s;
     ros := ros s |}.

(** The state once the extraction loops have run. *)
Definition set_emitted `{FloatOps} (s : State) (e : Emit)
    (pure : list PointXYZI) : State :=
  {| laserCloudIn := laserCloudIn s;
     laserCloudInRing := laserCloudInRing s;
     fullCloud := fullCloud s;
     fullInfoCloud := fullInfoCloud s;
     groundCloud := groundCloud s;
     segmentedCloud := e_segmented e;
     segmentedCloudPure := pure;
     outlierCloud := e_outlier e;
     rangeMat := rangeMat s;
     labelMat := labelMat s;
     groundMat := groundMat s;
     labelCount := labelCount s;
     orientation := orientation s;
     startRingIndex := e_start e;
     endRingIndex := e_end e;
     segmentedCloudGroundFlag := e_groundFlag e;
     segmentedCloudColInd := e_colInd e;
     segmentedCloudRange := e_range e;
     ros := ros s |}.

Definition cloudSegmentation `{Geometry} `{FloatOps} (subs : Subscribers)
    (s : State) : option State :=
  match segment_pass (rangeMat s) (labelMat s) (labelCount s) with
  | None => None
  | Some (lm, lc) =>
      let s1 := set_labels s lm lc in
      Some (set_emitted s1 (emit_pass s1)
              (if negb (subSegmentedCloudPure subs =? 0)%nat
               then pure_pass lm (fullCloud s1) (segmentedCloudPure s1)
               else segmentedCloudPure s1))
  end.

(** The [publish] calls of [publishCloud], in order. *)
Definition published (subs : Subscribers) : list RosEvent :=
  [publish segmented_cloud_info; publish outlier_cloud; publish segmented_cloud]
  ++ (if negb (subFullCloud subs =? 0)%nat
      then [publish full_cloud_projected] else [])
  ++ (if negb (subGroundCloud subs =? 0)%nat
      then [publish ground_cloud] else [])
  ++ (if negb (subSegmentedCloudPure subs =? 0)%nat
      then [publish segmented_cloud_pure] else [])
  ++ (if negb (subFullInfoCloud subs =? 0)%nat
      then [publish full_cloud_info] else []).

Definition publishCloud `{FloatOps} (subs : Subscribers) (s : State) : State :=
  {| laserCloudIn := laserCloudIn s;
     laserCloudInRing := laserCloudInRing s;
     fullCloud := fullCloud s;
     fullInfoCloud := fullInfoCloud s;
     groundCloud := groundCloud s;
     segmentedCloud := segmentedCloud s;
     segmentedCloudPure := segmentedCloudPure s;
     outlierCloud := outlierCloud s;
     rangeMat := rangeMat s;
     labelMat := labelMat s;
     groundMat := groundMat s;
     labelCount := labelCount s;
     orientation := orientation s;
     startRingIndex := startRingIndex s;
     endRingIndex := endRingIndex s;
     segmentedCloudGroundFlag := segmentedCloudGroundFlag s;
     segmentedCloudColInd := segmentedCloudColInd s;
     segmentedCloudRange := segmentedCloudRange s;
     ros := ros s ++ published subs |}.

(** Stages 3 to 5 of the handler. *)
Definition process `{Geometry} `{FloatOps} (subs : Subscribers) (s : State)
  : option State :=
  cloudSegmentation subs (groundRemoval subs (projectPointCloud s)).

(** [cloudHandler], up to the clouds it publishes: the state when
    [publishCloud] returns.  [None]: the handler has no defined result. *)
Definition handle_scan `{Geometry} `{FloatOps} (subs : Subscribers)
    (msg : PointCloud2) (s : State) : option State :=
  match findStartEndAngle (copyPointCloud msg s) with
  | None => None
  | Some s1 =>
      match process subs s1 with
      | None => None
      | Some s2 => Some (publishCloud subs s2)
      end
  end.

(** [cloudHandler]: the state the node keeps for the next message. *)
Definition cloudHandler `{Geometry} `{FloatOps} (subs : Subscribers)
    (msg : PointCloud2) (s : State) : option State :=
  match handle_scan subs msg s with
  | None => None
  | Some s3 => Some (resetParameters s3)
  end.

(** ** The azimuth bracket of findStartEndAngle *)

(** startOrientation, endOrientation and orientationDiff, the three
    [float] members of segMsg, for the values a0 and al that [atan2]
    returns for the first and for the last point of the cloud.  The sums
    with [2 * M_PI] are [double] operations whose result is stored into a
    [float]; the differences of two [float] members are [float]
    operations, compared with the [double] constants. *)
Definition bracket32 (a0 al : Q) : Q * Q * Q :=
  let startOrientation := (- a0)%Q in
  let endOrientation := rnd32 (rnd64 (- al + rnd64 (2 * M_PI))) in
  let endOrientation :=
    if Qgtb (rnd32 (endOrientation - startOrientation)) (rnd64 (3 * M_PI))
    then rnd32 (rnd64 (endOrientation - rnd64 (2 * M_PI)))
    else if Qltb (rnd32 (endOrientation - startOrientation)) M_PI
         then rnd32 (rnd64 (endOrientation + rnd64 (2 * M_PI)))
         else endOrientation in
  (startOrientation, endOrientation,
   rnd32 (endOrientation - startOrientation)).

(** [findStartEndAngle] on the coordinates of the cloud, for an [atan2] on
    [float] arguments: there is no result on an empty cloud. *)
Definition findStartEndAngle32 (atan2f : Q -> Q -> Q)
    (cloud : list (Q * Q * Q)) : option (Q * Q * Q) :=
  match cloud with
  | [] => None
  | (x0, y0, _) :: _ =>
      let '(xl, yl, _) := last cloud (x0, y0, 0%Q) in
      Some (bracket32 (atan2f y0 x0) (atan2f yl xl))
  end.

(** ** A sample interpretation of the float operations

    Rationals with a NaN, for running the model on sample data.  The
    comparisons are exact.  The directions are exact for points on the x
    and y axes, where the sample points lie; the two angle tests use
    rational bounds of tan(10 deg) and of cos(alpha) + sin(alpha)/sqrt(3).
    The orientations of the scan are those of [bracket32], for first and
    last points on the x and y axes. *)

Definition Qopt_eqb (a b : option Q) : bool :=
  match a, b with
  | Some x, Some y => Qeq_bool x y
  | _, _ => false
  end.

Definition Qis_zero (a : option Q) : bool := Qopt_eqb a (Some 0%Q).

Definition Qopt_neg (a : option Q) : bool :=
  match a with
  | Some x => negb (Qle_bool 0 x)
  | None => false
  end.

Definition sample_columnOf (x y : option Q) : nat :=
  if Qis_zero y then (if Qopt_neg x then 1800 else 900)
  else if Qis_zero x then (if Qopt_neg y then 450 else 1350)
  else 0.

Definition Qopt_abs (a : option Q) : option Q := option_map Qabs a.

Definition sample_rangeOf (x y z : option Q) : option Q :=
  if Qis_zero y && Qis_zero z then Qopt_abs x
  else if Qis_zero x && Qis_zero z then Qopt_abs y
  else if Qis_zero x && Qis_zero y then Qopt_abs z
  else None.

Definition sample_belowMinimumRange (r : option Q) : bool :=
  match r with
  | Some q => negb (Qle_bool 1 q)
  | None => false
  end.

Definition sample_nearMountAngle (lo up : option Q * option Q * option Q)
  : bool :=
  match lo, up with
  | (Some x1, Some y1, Some z1), (Some x2, Some y2, Some z2) =>
      let dz2 := ((z2 - z1) * (z2 - z1))%Q in
      let h2 := ((x2 - x1) * (x2 - x1) + (y2 - y1) * (y2 - y1))%Q in
      Qle_bool (dz2 * 1000000) (h2 * 31091)
  | _, _ => false
  end.

Definition sample_angleAboveTheta (a b : option Q) (sameRow : bool) : bool :=
  match a, b with
  | Some x, Some y =>
      let d1 := Qmax x y in
      let d2 := Qmin x y in
      negb (Qle_bool (d2 * (if sameRow then 10020 # 10000 else 10195 # 10000)) d1)
  | _, _ => false
  end.

(** [atan2] on [float] arguments, for the directions of the axes: 0,
    the [float] nearest to pi or to pi/2, or its opposite. *)
Definition sample_atan2 (y x : Q) : option Q :=
  if Qeq_bool y 0 then Some (if Qltb x 0 then PI_f else 0%Q)
  else if Qeq_bool x 0 then Some (if Qltb y 0 then (- PI_f / 2)%Q
                                  else (PI_f / 2)%Q)
  else None.

Definition sample_startEndAngle (p0 pl : option Q * option Q * option Q)
  : option Q * option Q * option Q :=
  match p0, pl with
  | (Some x0, Some y0, _), (Some xl, Some yl, _) =>
      match sample_atan2 y0 x0, sample_atan2 yl xl with
      | Some a0, Some al =>
          let '(s, e, d) := bracket32 a0 al in (Some s, Some e, Some d)
      | _, _ => (None, None, None)
      end
  | _, _ => (None, None, None)
  end.

Definition SampleOps : FloatOps :=
  {| F := option Q;
     NaN := None;
     FLT_MAX := Some (inject_Z (2 ^ 128 - 2 ^ 104));
     fzero := Some 0%Q;
     feqb := Qopt_eqb;
     finite3 := fun x y z =>
       match x, y, z with Some _, Some _, Some _ => true | _, _, _ => false end;
     startEndAngle := sample_startEndAngle;
     rowOf := fun _ _ _ => 0%nat;
     columnOf := sample_columnOf;
     rangeOf := sample_rangeOf;
     belowMinimumRange := sample_belowMinimumRange;
     nearMountAngle := sample_nearMountAngle;
     angleAboveTheta := sample_angleAboveTheta;
     FLT_MAX_eq := eq_refl |}.

(** ** The cells of the range image, in row-major order *)

Definition cells (rows cols : nat) : list (nat * nat) :=
  flat_map (fun i => map (pair i) (seq 0 cols)) (seq 0 rows).

Definition in_image `{Geometry} (p : nat * nat) : Prop :=
  (fst p < N_SCAN /\ snd p < Horizon_SCAN)%nat.

(** The number of cells of the image that are still unlabelled. *)
Definition zeros `{Geometry} (m : Mat Z) : nat :=
  length (filter (fun p => (m (fst p) (snd p) =? 0)%Z)
            (cells N_SCAN Horizon_SCAN)).

(** What holds of the locals of [labelComponents] each time the [while]
    tests its condition after the first iteration, for the labelMat [lm0]
    and the labelCount [lc] at the call and the seed cell [seed]. *)
Record BfsInv `{Geometry} (lm0 : Mat Z) (lc : Z) (seed : nat * nat)
    (s : Bfs) : Prop := {
  inv_queue : forall p, In p (b_queue s) -> In p (b_pushed s);
  inv_image : forall p, In p (b_pushed s) -> in_image p;
  inv_frame : forall i j, ~ In (i, j) (b_pushed s) -> b_label s i j = lm0 i j;
  inv_label : forall i j, In (i, j) (b_pushed s) -> b_label s i j = lc;
  inv_zero : forall i j, In (i, j) (b_pushed s) -> lm0 i j = 0%Z;
  inv_nodup : NoDup (b_pushed s);
  inv_head : exists rest, b_pushed s = seed :: rest;
  inv_line : forall r,
      b_line s r = true <-> exists c, In (r, c) (tl (b_pushed s))
}.

(** The emission rule in the words of the specification: which cell is
    appended to the segmented cloud, and which to the outlier cloud. *)
Definition spec_segmented `{Geometry} (label ground : Mat Z) (r c : nat)
  : bool :=
  ((label r c >? 0)%Z || (ground r c =? 1)%Z)
  && negb (label r c =? SENTINEL_DROP)%Z
  && (negb (ground r c =? 1)%Z
      || (c mod 5 =? 0)%nat || (c <=? 5)%nat
      || (Z.of_nat Horizon_SCAN - 5 <=? Z.of_nat c)%Z).

Definition spec_outlier `{Geometry} (label ground : Mat Z) (r c : nat)
  : bool :=
  ((label r c >? 0)%Z || (ground r c =? 1)%Z)
  && (label r c =? SENTINEL_DROP)%Z
  && (groundScanInd <? r)%nat && (c mod 5 =? 0)%nat.

(** The point of fullCloud that belongs to a cell. *)
Definition cell_point `{Geometry} `{FloatOps} (s : State) (p : nat * nat)
  : PointXYZI :=
  fullCloud s (snd p + fst p * Horizon_SCAN)%nat.

(** What [resetParameters] establishes, and what holds until
    [projectPointCloud] starts. *)
Definition reset_state `{FloatOps} (s : State) : Prop :=
  rangeMat s = (fun _ _ => FLT_MAX)
  /\ groundMat s = (fun _ _ => 0%Z)
  /\ labelMat s = (fun _ _ => 0%Z)
  /\ labelCount s = 1%Z
  /\ fullCloud s = (fun _ => nanPoint)
  /\ fullInfoCloud s = (fun _ => None)
  /\ groundCloud s = []
  /\ segmentedCloud s = []
  /\ segmentedCloudPure s = []
  /\ outlierCloud s = [].

(** The members that [projectPointCloud] leaves alone. *)
Definition same_but_projection `{FloatOps} (s s' : State) : Prop :=
  labelMat s' = labelMat s
  /\ groundMat s' = groundMat s
  /\ labelCount s' = labelCount s
  /\ groundCloud s' = groundCloud s
  /\ segmentedCloud s' = segmentedCloud s
  /\ segmentedCloudPure s' = segmentedCloudPure s
  /\ outlierCloud s' = outlierCloud s
  /\ startRingIndex s' = startRingIndex s
  /\ endRingIndex s' = endRingIndex s
  /\ ros s' = ros s.

(** A sample message: one return straight ahead on ring 7, flagged as not
    dense. *)
Definition sample_msg : @PointCloud2 SampleOps :=
  @Build_PointCloud2 SampleOps
    [ @Build_PointXYZIR SampleOps (Some 0%Q, Some 10%Q, Some 0%Q) 7 ]
    false.

Definition no_subscribers : Subscribers :=
  {| subFullCloud := 0; subFullInfoCloud := 0; subGroundCloud := 0;
     subSegmentedCloudPure := 0 |}.

(** The state in which the sample message reaches [projectPointCloud] in a
    node that has just been constructed. *)
Definition sample_start : @State SampleOps :=
  match findStartEndAngle
          (copyPointCloud (H := VLP16) sample_msg initial) with
  | Some s => s
  | None => initial
  end.

(** A second sample message, flagged dense, with the ring channel: three
    returns of a flat ground straight ahead on rings 0, 1 and 2, six returns
    at 10 m straight ahead on rings 8 to 13, and one return at 10 m straight
    behind on ring 10.  On the VLP-16 geometry the returns straight ahead
    fall into column 1350 and the one behind into column 450: the cells
    (0, 1350) and (1, 1350) are ground cells, the six cells of rows 8 to 13
    form one cluster, on six beams, and the cells (2, 1350) and (10, 450)
    are clusters of a single cell. *)
Definition scene_msg : @PointCloud2 SampleOps :=
  @Build_PointCloud2 SampleOps
    [ @Build_PointXYZIR SampleOps (Some 0%Q, Some 10%Q, Some 0%Q) 0;
      @Build_PointXYZIR SampleOps (Some 0%Q, Some 11%Q, Some 0%Q) 1;
      @Build_PointXYZIR SampleOps (Some 0%Q, Some 12%Q, Some 0%Q) 2;
      @Build_PointXYZIR SampleOps (Some 0%Q, Some 10%Q, Some 0%Q) 8;
      @Build_PointXYZIR SampleOps (Some 0%Q, Some 10%Q, Some 0%Q) 9;
      @Build_PointXYZIR SampleOps (Some 0%Q, Some 10%Q, Some 0%Q) 10;
      @Build_PointXYZIR SampleOps (Some 0%Q, Some 10%Q, Some 0%Q) 11;
      @Build_PointXYZIR SampleOps (Some 0%Q, Some 10%Q, Some 0%Q) 12;
      @Build_PointXYZIR SampleOps (Some 0%Q, Some 10%Q, Some 0%Q) 13;
      @Build_PointXYZIR SampleOps (Some 0%Q, Some (-10)%Q, Some 0%Q) 10 ]
    true.

(** A message that is not flagged dense and whose first point has no x
    coordinate. *)
Definition nan_msg : @PointCloud2 SampleOps :=
  @Build_PointCloud2 SampleOps
    [ @Build_PointXYZIR SampleOps (None, Some 10%Q, Some 0%Q) 3;
      @Build_PointXYZIR SampleOps (Some 0%Q, Some 10%Q, Some 0%Q) 7 ]
    false.

(** Every optional cloud has a subscriber. *)
Definition all_subscribers : Subscribers :=
  {| subFullCloud := 1; subFullInfoCloud := 1; subGroundCloud := 1;
     subSegmentedCloudPure := 1 |}.

(** The state in which the second sample message reaches
    [projectPointCloud] in a node that has just been constructed. *)
Definition scene_start : @State SampleOps :=
  match findStartEndAngle
          (copyPointCloud (H := VLP16) scene_msg initial) with
  | Some s => s
  | None => initial
  end.

(** The label -1 marks exactly the ground cells and the cells without a
    return. *)
Definition excluded_iff_ground_or_empty `{Geometry} `{FloatOps} (s : State)
  : Prop :=
  forall r c, in_image (r, c) ->
    (labelMat s r c = (-1)%Z
     <-> groundMat s r c = 1%Z \/ feqb (rangeMat s r c) FLT_MAX = true).

(** A message without points. *)
Definition empty_msg `{FloatOps} (dense : bool) : PointCloud2 :=
  {| msg_points := []; msg_is_dense := dense |}.

(** A cluster of five cells on three beams above the ground rows: one cell
    on beam 8, two on beam 9, two on beam 10, all at the same range. *)
Definition pole_cells : list (nat * nat) :=
  [(8, 0); (9, 0); (9, 1); (10, 0); (10, 1)]%nat.

Definition in_pole (i j : nat) : bool :=
  existsb (fun p => (fst p =? i)%nat && (snd p =? j)%nat) pole_cells.

Definition pole_range : Mat (@F SampleOps) :=
  fun i j => if in_pole i j then Some 10%Q else @FLT_MAX SampleOps.

(** labelMat as [groundRemoval] leaves it for these returns. *)
Definition pole_label : Mat Z :=
  fun i j => if in_pole i j then 0%Z else (-1)%Z.

(** A cloud whose first point lies on the positive x axis and whose last
    point lies on the negative x axis, and the message that carries it. *)
Definition half_turn_cloud : list (Q * Q * Q) :=
  [(1, 0, 0); (-1, 0, 0)]%Q.

Definition half_turn_msg : @PointCloud2 SampleOps :=
  @Build_PointCloud2 SampleOps
    [ @Build_PointXYZIR SampleOps (Some 1%Q, Some 0%Q, Some 0%Q) 8;
      @Build_PointXYZIR SampleOps (Some (-1)%Q, Some 0%Q, Some 0%Q) 8 ]
    true.

(** A message whose first point lies on the positive y axis and whose last
    point lies on the negative y axis. *)
Definition behind_msg : @PointCloud2 SampleOps :=
  @Build_PointCloud2 SampleOps
    [ @Build_PointXYZIR SampleOps (Some 0%Q, Some 1%Q, Some 0%Q) 8;
      @Build_PointXYZIR SampleOps (Some 0%Q, Some (-1)%Q, Some 0%Q) 8 ]
    true.

(** [atan2] on the axes as in [sample_atan2], 0 elsewhere. *)
Definition axis_atan2 (y x : Q) : Q :=
  match sample_atan2 y x with
  | Some a => a
  | None => 0%Q
  end.

(** labelMat and labelCount when the labelling loop of [cloudSegmentation]
    has visited the cells of [l], in that order. *)
Definition segment_cells `{Geometry} `{FloatOps} (rm : Mat F)
    (l : list (nat * nat)) (lm : Mat Z) (lc : Z) : option (Mat Z * Z) :=
  fold_left (fun acc p => segment_cell rm (fst p) (snd p) acc) l
    (Some (lm, lc)).

(** The test [intensity == -1] of [groundRemoval] on the entry of cell
    (r, c) of a cloud laid out like fullCloud. *)
Definition no_return `{Geometry} `{FloatOps} (cloud : Arr PointXYZI)
    (r c : nat) : bool :=
  Qeq_bool (intensity (cloud (c + r * Horizon_SCAN)%nat)) (-1).

(** The cell (r, c) or the cell above it has no return: nothing to check. *)
Definition pair_invalid `{Geometry} `{FloatOps} (cloud : Arr PointXYZI)
    (r c : nat) : bool :=
  no_return cloud r c || no_return cloud (r + 1) c.

(** Both cells have a return and the segment between them is within 10
    degrees of the mount angle. *)
Definition pair_ground `{Geometry} `{FloatOps} (cloud : Arr PointXYZI)
    (r c : nat) : bool :=
  negb (pair_invalid cloud r c)
  && nearMountAngle (xyz (cloud (c + r * Horizon_SCAN)%nat))
                    (xyz (cloud (c + (r + 1) * Horizon_SCAN)%nat)).

(** Closed form of groundMat after the first loop nest of [groundRemoval],
    started from a matrix of zeros. *)
Definition ground_value `{Geometry} `{FloatOps} (cloud : Arr PointXYZI)
    (r c : nat) : Z :=
  if (c <? Horizon_SCAN)%nat then
    if (r <? groundScanInd)%nat && pair_invalid cloud r c then (-1)%Z
    else if (r <? groundScanInd)%nat && pair_ground cloud r c then 1%Z
    else if (1 <=? r)%nat && (r <=? groundScanInd)%nat
            && pair_ground cloud (r - 1) c then 1%Z
    else 0%Z
  else 0%Z.

(** What the three projected images hold for cell (r, c): nothing, or the
    data of one point of the input cloud that passed the range test. *)
Definition cell_projected `{Geometry} `{FloatOps} (s : State)
    (input : list (F * F * F)) (r c : nat) : Prop :=
  let k := (c + r * Horizon_SCAN)%nat in
  (fullCloud s k = nanPoint /\ fullInfoCloud s k = None
   /\ rangeMat s r c = FLT_MAX)
  \/ exists x y z,
       In (x, y, z) input
       /\ fullCloud s k = {| xyz := (x, y, z); intensity := cell_key r c |}
       /\ fullInfoCloud s k = Some (x, y, z, rangeOf x y z)
       /\ rangeMat s r c = rangeOf x y z
       /\ belowMinimumRange (rangeOf x y z) = false.

(** One step of the region growing of [labelComponents]: q is the
    neighbour of p in one of the four directions, q was unlabelled at the
    call, and the angle test on the two ranges succeeds. *)
Definition grows `{Geometry} `{FloatOps} (rm : Mat F) (lm0 : Mat Z)
    (p q : nat * nat) : Prop :=
  exists d,
    In d neighborIterator /\ neighbor p d = Some q
    /\ lm0 (fst q) (snd q) = 0%Z
    /\ angleAboveTheta (rm (fst p) (snd p)) (rm (fst q) (snd q))
         (fst d =? 0)%Z = true.

(** The cells that the growing reaches from the seed. *)
Inductive reached `{Geometry} `{FloatOps} (rm : Mat F) (lm0 : Mat Z)
    (seed : nat * nat) : nat * nat -> Prop :=
| reached_seed : reached rm lm0 seed seed
| reached_step (p q : nat * nat) :
    reached rm lm0 seed p -> grows rm lm0 p q -> reached rm lm0 seed q.

(** What holds of the pushed cells while the queue is processed: they are
    reached from the seed, and around a cell that has left the queue no
    cell is left to grow into. *)
Record BfsCluster `{Geometry} `{FloatOps} (rm : Mat F) (lm0 : Mat Z)
    (seed : nat * nat) (s : Bfs) : Prop := {
  cl_reached : forall p, In p (b_pushed s) -> reached rm lm0 seed p;
  cl_closed : forall p, In p (b_pushed s) ->
      In p (b_queue s) \/ forall q, grows rm lm0 p q -> In q (b_pushed s)
}.

(** The number of beams that hold a cell of the cluster other than the
    seed. *)
Definition beams_beside_seed `{Geometry} (cluster : list (nat * nat))
    (seed : nat * nat) : nat :=
  length
    (filter
       (fun r =>
          existsb (fun p => (fst p =? r)%nat
                            && negb ((fst p =? fst seed)%nat
                                     && (snd p =? snd seed)%nat))
            cluster)
       (seq 0 N_SCAN)).

(** The three per-point arrays of an extraction state [e] run parallel to
    the cells [kept] whose points have been appended: entry k describes
    the k-th of them, and the entries from the number of appended points
    on are those of [e0]. *)
Definition arrays_follow `{Geometry} `{FloatOps} (s : State) (e0 e : Emit)
    (kept : list (nat * nat)) : Prop :=
  sizeOfSegCloud e = length kept
  /\ (forall k, (k < length kept)%nat ->
        e_colInd e k = snd (nth k kept (0, 0)%nat)
        /\ e_groundFlag e k
           = (groundMat s (fst (nth k kept (0, 0)%nat))
                (snd (nth k kept (0, 0)%nat)) =? 1)%Z
        /\ e_range e k
           = rangeMat s (fst (nth k kept (0, 0)%nat))
               (snd (nth k kept (0, 0)%nat)))
  /\ (forall k, (length kept <= k)%nat ->
        e_colInd e k = e_colInd e0 k
        /\ e_groundFlag e k = e_groundFlag e0 k
        /\ e_range e k = e_range e0 k).

(** The point that the visualisation loop of [cloudSegmentation] stores
    for a cell: the point of fullCloud with the label as intensity. *)
Definition labelled_point `{Geometry} `{FloatOps} (s : State) (p : nat * nat)
  : PointXYZI :=
  {| xyz := xyz (cell_point s p);
     intensity := inject_Z (labelMat s (fst p) (snd p)) |}.

(** The cell that an iteration of the loop of [projectPointCloud] writes
    for point i, [None] when the iteration ends in a [continue]: the row
    and column computation and the three tests of the loop body, with the
    ring channel [rings] it reads. *)
Definition target_cell `{Geometry} `{FloatOps} (rings : list PointXYZIR)
    (ip : nat * (F * F * F)) : option (nat * nat) :=
  let '(i, (x, y, z)) := ip in
  let rowIdn :=
    if useCloudRing then ring (nth i rings {| xyz_r := (x, y, z); ring := 0 |})
    else rowOf x y z in
  if (N_SCAN <=? rowIdn)%nat then None
  else
    let columnIdn := columnOf x y in
    let columnIdn :=
      if (Horizon_SCAN <=? columnIdn)%nat then (columnIdn - Horizon_SCAN)%nat
      else columnIdn in
    if (Horizon_SCAN <=? columnIdn)%nat then None
    else if belowMinimumRange (rangeOf x y z) then None
    else Some (rowIdn, columnIdn).

(** Two states hold the same scan: they agree on the clouds, the images
    and the label counter, on the orientation, and on the ring channel
    when it is in use.  The arrays of the scan metadata and the log are
    left out. *)
Definition same_scan `{Geometry} `{FloatOps} (s s' : State) : Prop :=
  laserCloudIn s = laserCloudIn s'
  /\ (useCloudRing = true -> laserCloudInRing s = laserCloudInRing s')
  /\ fullCloud s = fullCloud s'
  /\ fullInfoCloud s = fullInfoCloud s'
  /\ groundCloud s = groundCloud s'
  /\ segmentedCloud s = segmentedCloud s'
  /\ segmentedCloudPure s = segmentedCloudPure s'
  /\ outlierCloud s = outlierCloud s'
  /\ rangeMat s = rangeMat s'
  /\ labelMat s = labelMat s'
  /\ groundMat s = groundMat s'
  /\ labelCount s = labelCount s'
  /\ orientation s = orientation s'.

(** * Properties *)

Section Loops.

Context {S : Type}.

Lemma for_range_S (n : nat) (body : nat -> S -> S) (s : S) :
  for_range (Datatypes.S n) body s = body n (for_range n body s).
Proof.
  unfold for_range. rewrite seq_S, fold_left_app. reflexivity.
Qed.

(** A loop nest over rows and columns visits [cells] in order. *)
Lemma for_range_cells (rows cols : nat) (body : nat -> nat -> S -> S) (s : S) :
  for_range rows (fun i => for_range cols (body i)) s
  = fold_left (fun acc p => body (fst p) (snd p) acc) (cells rows cols) s.
Proof.
  unfold cells. induction rows as [|rows IH].
  - reflexivity.
  - rewrite for_range_S, IH, seq_S, flat_map_app, fold_left_app. simpl.
    rewrite app_nil_r. unfold for_range.
    generalize (fold_left (fun acc p => body (fst p) (snd p) acc)
                  (flat_map (fun i => map (pair i) (seq 0 cols)) (seq 0 rows)) s).
    intros acc. generalize (seq 0 cols) as l. intros l. revert acc.
    induction l as [|j l IHl]; intros acc; simpl; [reflexivity|apply IHl].
Qed.

End Loops.

Lemma in_cells (rows cols i j : nat) :
  In (i, j) (cells rows cols) <-> (i < rows /\ j < cols)%nat.
Proof.
  unfold cells. rewrite in_flat_map. split.
  - intros [k [Hk Hin]]. apply in_map_iff in Hin as [j' [Heq Hj]].
    inversion Heq; subst. apply in_seq in Hk, Hj. lia.
  - intros [Hi Hj]. exists i. split; [apply in_seq; lia|].
    apply in_map_iff. exists j. split; [reflexivity|apply in_seq; lia].
Qed.

Lemma mat_set_same {A} (m : Mat A) (i j : nat) (v : A) :
  mat_set m i j v i j = v.
Proof. unfold mat_set. now rewrite !Nat.eqb_refl. Qed.

Lemma mat_set_other {A} (m : Mat A) (i j i' j' : nat) (v : A) :
  (i', j') <> (i, j) -> mat_set m i j v i' j' = m i' j'.
Proof.
  intros Hne. unfold mat_set.
  destruct (Nat.eqb_spec i' i), (Nat.eqb_spec j' j); simpl; try reflexivity.
  subst. now elim Hne.
Qed.

Lemma count_le_mono {A} (f f' : A -> bool) (l : list A) :
  (forall x, In x l -> f' x = true -> f x = true) ->
  (length (filter f' l) <= length (filter f l))%nat.
Proof.
  induction l as [|a l IH]; intros Himp; simpl; [lia|].
  assert (IH' := IH (fun x Hx => Himp x (or_intror Hx))).
  destruct (f' a) eqn:Ef'.
  - rewrite (Himp a (or_introl eq_refl) Ef'). simpl. lia.
  - destruct (f a); simpl; lia.
Qed.

Lemma count_lt_mono {A} (f f' : A -> bool) (l : list A) (x : A) :
  (forall y, In y l -> f' y = true -> f y = true) ->
  In x l -> f x = true -> f' x = false ->
  (Datatypes.S (length (filter f' l)) <= length (filter f l))%nat.
Proof.
  induction l as [|a l IH]; intros Himp Hin Hfx Hf'x; [destruct Hin|].
  simpl. destruct Hin as [->|Hin].
  - rewrite Hfx, Hf'x. simpl.
    apply le_n_S, count_le_mono. intros y Hy. apply Himp. now right.
  - assert (IH' := IH (fun y Hy => Himp y (or_intror Hy)) Hin Hfx Hf'x).
    destruct (f' a) eqn:Ef'.
    + rewrite (Himp a (or_introl eq_refl) Ef'). simpl. lia.
    + destruct (f a); simpl; lia.
Qed.

Section Labelling.

Context {g : Geometry} {ops : FloatOps}.

Lemma zeros_bound (m : Mat Z) : (zeros m <= N_SCAN * Horizon_SCAN)%nat.
Proof.
  unfold zeros. eapply Nat.le_trans; [apply filter_length_le|].
  unfold cells. generalize N_SCAN as n. induction n as [|n IH]; [simpl; lia|].
  rewrite seq_S, flat_map_app, length_app. simpl.
  rewrite app_nil_r, length_map, length_seq. lia.
Qed.

Lemma zeros_set_le (m : Mat Z) (i j : nat) (v : Z) :
  v <> 0%Z -> (zeros (mat_set m i j v) <= zeros m)%nat.
Proof.
  intros Hv. apply count_le_mono. intros [i' j'] _. simpl.
  unfold mat_set.
  destruct ((i' =? i)%nat && (j' =? j)%nat); [|tauto].
  intros H0. apply Z.eqb_eq in H0. contradiction.
Qed.

Lemma zeros_set_lt (m : Mat Z) (i j : nat) (v : Z) :
  v <> 0%Z -> in_image (i, j) -> m i j = 0%Z ->
  (Datatypes.S (zeros (mat_set m i j v)) <= zeros m)%nat.
Proof.
  intros Hv [Hi Hj] Hm. apply count_lt_mono with (x := (i, j)).
  - intros [i' j'] _. simpl. unfold mat_set.
    destruct ((i' =? i)%nat && (j' =? j)%nat); [|tauto].
    intros H0. apply Z.eqb_eq in H0. contradiction.
  - apply in_cells. auto.
  - simpl. now apply Z.eqb_eq.
  - simpl. rewrite mat_set_same. now apply Z.eqb_neq.
Qed.

Lemma u16_id (n : nat) : (Z.of_nat n < 65536)%Z -> u16 n = n.
Proof.
  intros Hn. unfold u16. rewrite Z.mod_small by lia. apply Nat2Z.id.
Qed.

(** A neighbour that passes the bounds checks is a cell of the image. *)
Lemma neighbor_in_image (from : nat * nat) (d : Z * Z) (p : nat * nat) :
  In d neighborIterator -> in_image from ->
  neighbor from d = Some p -> in_image p.
Proof.
  intros Hd [Hi Hj] Hn. unfold neighbor in Hn.
  destruct ((Z.of_nat (fst from) + fst d <? 0)%Z
            || (Z.of_nat (fst from) + fst d >=? Z.of_nat N_SCAN)%Z) eqn:Eb;
    [discriminate|].
  apply orb_false_elim in Eb as [E1 E2].
  apply Z.ltb_ge in E1. rewrite Z.geb_leb in E2. apply Z.leb_gt in E2.
  injection Hn as <-. unfold in_image. simpl. split; [lia|].
  assert (Hsd : (-1 <= snd d <= 1)%Z).
  { simpl in Hd. destruct Hd as [<-|[<-|[<-|[<-|[]]]]]; simpl; lia. }
  destruct (Z.ltb_spec (Z.of_nat (snd from) + snd d) 0).
  - destruct (Z.geb_spec (Z.of_nat Horizon_SCAN - 1) (Z.of_nat Horizon_SCAN)); lia.
  - destruct (Z.geb_spec (Z.of_nat (snd from) + snd d) (Z.of_nat Horizon_SCAN)); lia.
Qed.


Variable rm : Mat F.
Variables (lm0 : Mat Z) (lc : Z) (seed : nat * nat).
Hypothesis Hfit : fits16 g.
Hypothesis Hlc : lc <> 0%Z.

Lemma image_u16 (p : nat * nat) :
  in_image p -> (u16 (fst p), u16 (snd p)) = p.
Proof.
  intros [Hi Hj]. destruct Hfit as [Hr Hc].
  rewrite !u16_id by lia. now destruct p.
Qed.

(** Looking at one neighbour keeps the invariant. *)
Lemma visit_inv (from : nat * nat) (s : Bfs) (d : Z * Z) :
  In d neighborIterator -> in_image from ->
  BfsInv lm0 lc seed s -> BfsInv lm0 lc seed (visit rm lc from s d).
Proof.
  intros Hd Hfrom HI. unfold visit.
  destruct (neighbor from d) as [[x y]|] eqn:En; [|exact HI].
  destruct (Z.eqb_spec (b_label s x y) 0) as [Hz|Hnz]; simpl; [|exact HI].
  destruct (angleAboveTheta _ _ _); [|exact HI].
  assert (Himg : in_image (x, y)) by (eapply neighbor_in_image; eauto).
  generalize (image_u16 Himg). simpl. intros Hu. rewrite Hu.
  assert (Hnew : ~ In (x, y) (b_pushed s)).
  { intros Hin. apply (inv_label HI) in Hin. congruence. }
  destruct HI as [Hq Him Hfr Hlb Hz0 Hnd [rest Hhd] Hln].
  constructor; simpl.
  - intros p Hp. apply in_app_iff in Hp. apply in_app_iff.
    destruct Hp as [Hp|Hp]; [left; auto|right; exact Hp].
  - intros p Hp. apply in_app_iff in Hp as [Hp|[<-|[]]]; auto.
  - intros i j Hnin. rewrite mat_set_other.
    + apply Hfr. intros Hin. apply Hnin, in_app_iff. now left.
    + intros Heq. apply Hnin, in_app_iff. right. left. now symmetry.
  - intros i j Hin. apply in_app_iff in Hin as [Hin|[Heq|[]]].
    + rewrite mat_set_other; [now apply Hlb|]. intros Heq.
      apply Hnew. now rewrite <- Heq.
    + inversion Heq; subst. apply mat_set_same.
  - intros i j Hin. apply in_app_iff in Hin as [Hin|[Heq|[]]]; [now apply Hz0|].
    inversion Heq; subst. rewrite <- Hfr; assumption.
  - apply NoDup_app; [exact Hnd|repeat constructor; intros []|].
    intros p Hp [<-|[]]. contradiction.
  - exists (rest ++ [(x, y)]). now rewrite Hhd.
  - intros r. rewrite Hhd in *. simpl in *. unfold arr_set.
    destruct (Nat.eqb_spec r x) as [->|Hne].
    + split; [|reflexivity]. intros _. exists y. apply in_app_iff.
      right. now left.
    + rewrite Hln. split; intros [c Hc]; exists c.
      * apply in_app_iff. now left.
      * apply in_app_iff in Hc as [Hc|[Heq|[]]]; [exact Hc|].
        inversion Heq. congruence.
Qed.

(** Looking at one neighbour does not increase the work left. *)
Lemma visit_measure (from : nat * nat) (s : Bfs) (d : Z * Z) :
  In d neighborIterator -> in_image from ->
  (length (b_queue (visit rm lc from s d))
   + zeros (b_label (visit rm lc from s d))
   <= length (b_queue s) + zeros (b_label s))%nat.
Proof.
  intros Hd Hfrom. unfold visit.
  destruct (neighbor from d) as [[x y]|] eqn:En; [|lia].
  destruct (Z.eqb_spec (b_label s x y) 0) as [Hz|Hnz]; simpl; [|lia].
  destruct (angleAboveTheta _ _ _); [|lia]. simpl.
  assert (Himg : in_image (x, y)) by (eapply neighbor_in_image; eauto).
  rewrite length_app. simpl.
  generalize (zeros_set_lt (b_label s) Hlc Himg Hz). lia.
Qed.


Lemma visits_inv (from : nat * nat) (l : list (Z * Z)) (s : Bfs) :
  incl l neighborIterator -> in_image from ->
  BfsInv lm0 lc seed s ->
  BfsInv lm0 lc seed (fold_left (visit rm lc from) l s).
Proof.
  revert s. induction l as [|d l IH]; intros s Hl Hfrom HI; [exact HI|].
  simpl. apply IH; [intros x Hx; apply Hl; now right|exact Hfrom|].
  apply visit_inv; [apply Hl; now left|exact Hfrom|exact HI].
Qed.

Lemma visits_measure (from : nat * nat) (l : list (Z * Z)) (s : Bfs) :
  incl l neighborIterator -> in_image from ->
  (length (b_queue (fold_left (visit rm lc from) l s))
   + zeros (b_label (fold_left (visit rm lc from) l s))
   <= length (b_queue s) + zeros (b_label s))%nat.
Proof.
  revert s. induction l as [|d l IH]; intros s Hl Hfrom; [simpl; lia|].
  simpl. eapply Nat.le_trans.
  - apply IH; [intros x Hx; apply Hl; now right|exact Hfrom].
  - apply visit_measure; [apply Hl; now left|exact Hfrom].
Qed.

(** An iteration of the [while] keeps the invariant. *)
Lemma bfs_step_inv (from : nat * nat) (rest : list (nat * nat)) (s : Bfs) :
  b_queue s = from :: rest -> BfsInv lm0 lc seed s ->
  BfsInv lm0 lc seed (bfs_step rm lc from rest s).
Proof.
  intros Hq HI. unfold bfs_step.
  assert (Hin : In from (b_pushed s)).
  { apply (inv_queue HI). rewrite Hq. now left. }
  apply visits_inv; [apply incl_refl|exact (inv_image HI _ Hin)|].
  destruct HI as [Hqu Him Hfr Hlb Hz0 Hnd Hhd Hln].
  constructor; simpl; auto.
  - intros p Hp. apply Hqu. rewrite Hq. now right.
  - intros i j Hnin. rewrite mat_set_other; [now apply Hfr|].
    intros Heq. apply Hnin. rewrite Heq. now destruct from.
  - intros i j Hij. unfold mat_set.
    destruct ((i =? fst from)%nat && (j =? snd from)%nat); auto.
Qed.

(** ... and leaves strictly less work. *)
Lemma bfs_step_measure (from : nat * nat) (rest : list (nat * nat))
    (s : Bfs) :
  in_image from ->
  (length (b_queue (bfs_step rm lc from rest s))
   + zeros (b_label (bfs_step rm lc from rest s))
   <= length rest + zeros (b_label s))%nat.
Proof.
  intros Hfrom. unfold bfs_step. eapply Nat.le_trans.
  - apply visits_measure; [apply incl_refl|exact Hfrom].
  - simpl. generalize (zeros_set_le (b_label s) (fst from) (snd from) Hlc).
    lia.
Qed.

(** The [while] ends: the fuel covers the queue and the unlabelled
    cells. *)
Lemma bfs_total (fuel : nat) (s : Bfs) :
  BfsInv lm0 lc seed s ->
  (length (b_queue s) + zeros (b_label s) <= fuel)%nat ->
  exists s', bfs fuel rm lc s = Some s'
             /\ BfsInv lm0 lc seed s' /\ b_queue s' = [].
Proof.
  revert s. induction fuel as [|fuel IH]; intros s HI Hm.
  - destruct (b_queue s) as [|from rest] eqn:Hq; [|simpl in Hm; lia].
    exists s. simpl. rewrite Hq. auto.
  - simpl. destruct (b_queue s) as [|from rest] eqn:Hq.
    + exists s. auto.
    + apply IH; [now apply bfs_step_inv|].
      assert (Hin : in_image from).
      { apply (inv_image HI), (inv_queue HI). rewrite Hq. now left. }
      generalize (bfs_step_measure rest s Hin). simpl in Hm. lia.
Qed.

(** What the acceptance test counts: the beams of the cells pushed as
    neighbours.  The first entry of allPushedInd, the seed, sets no flag. *)
Lemma lineCount_pushed (s : Bfs) :
  BfsInv lm0 lc seed s ->
  lineCount (b_line s)
  = length (filter (fun r => existsb (fun p => (fst p =? r)%nat)
                                (tl (b_pushed s)))
              (seq 0 N_SCAN)).
Proof.
  intros HI. unfold lineCount. f_equal. apply filter_ext. intros r.
  apply eq_iff_eq_true. rewrite (inv_line HI r), existsb_exists. split.
  - intros [c Hc]. exists (r, c). split; [exact Hc|apply Nat.eqb_refl].
  - intros [[r' c] [Hin Heq]]. apply Nat.eqb_eq in Heq. simpl in Heq.
    subst r'. now exists c.
Qed.

Hypothesis Hseed : in_image seed.
Hypothesis Hseed0 : lm0 (fst seed) (snd seed) = 0%Z.

(** The first iteration pops the seed and establishes the invariant. *)
Lemma bfs_first_inv :
  BfsInv lm0 lc seed
    (bfs_step rm lc seed [] (bfs_init lm0 (fst seed) (snd seed))).
Proof.
  unfold bfs_step. apply visits_inv; [apply incl_refl|exact Hseed|].
  unfold bfs_init. simpl. rewrite (image_u16 Hseed).
  constructor; simpl.
  - intros p [].
  - intros p [<-|[]]. exact Hseed.
  - intros i j Hnin. apply mat_set_other. intros Heq. apply Hnin. left.
    rewrite Heq. now destruct seed.
  - intros i j [Heq|[]]. rewrite Heq. simpl. apply mat_set_same.
  - intros i j [Heq|[]]. generalize Hseed0. rewrite Heq. simpl. auto.
  - repeat constructor. intros [].
  - now exists [].
  - intros r. split; [discriminate|intros [c []]].
Qed.

(** The queue loop of [labelComponents] always ends. *)
Lemma bfs_from_seed :
  exists s, bfs bfs_fuel rm lc (bfs_init lm0 (fst seed) (snd seed)) = Some s
            /\ BfsInv lm0 lc seed s /\ b_queue s = [].
Proof.
  unfold bfs_fuel.
  change (bfs (Datatypes.S (N_SCAN * Horizon_SCAN)) rm lc
            (bfs_init lm0 (fst seed) (snd seed)))
    with (bfs (N_SCAN * Horizon_SCAN) rm lc
            (bfs_step rm lc (u16 (fst seed), u16 (snd seed)) []
               (bfs_init lm0 (fst seed) (snd seed)))).
  rewrite (image_u16 Hseed).
  apply bfs_total; [exact bfs_first_inv|].
  eapply Nat.le_trans; [apply (bfs_step_measure [] _ Hseed)|].
  simpl. apply zeros_bound.
Qed.

End Labelling.

Lemma mark_invalid_out (l : list (nat * nat)) (m : Mat Z) (i j : nat) :
  ~ In (i, j) l -> mark_invalid m l i j = m i j.
Proof.
  unfold mark_invalid. revert m. induction l as [|a l IH]; intros m Hnin.
  - reflexivity.
  - simpl. rewrite IH by (intros Hin; apply Hnin; now right).
    apply mat_set_other. intros Heq. apply Hnin. left. rewrite Heq.
    now destruct a.
Qed.

Lemma cell_eq_dec (a b : nat * nat) : {a = b} + {a <> b}.
Proof. decide equality; apply Nat.eq_dec. Qed.

Lemma mark_invalid_in (l : list (nat * nat)) (m : Mat Z) (i j : nat) :
  In (i, j) l -> mark_invalid m l i j = SENTINEL_DROP.
Proof.
  revert m. induction l as [|a l IH]; intros m Hin; [destruct Hin|].
  destruct (in_dec cell_eq_dec (i, j) l) as [Hl|Hl].
  - unfold mark_invalid in *. simpl. now apply IH.
  - destruct Hin as [->|Hin]; [|contradiction].
    change (mark_invalid (mat_set m i j SENTINEL_DROP) l i j = SENTINEL_DROP).
    rewrite mark_invalid_out by exact Hl. apply mat_set_same.
Qed.

Section Components.

Context {g : Geometry} {ops : FloatOps}.
Variable rm : Mat F.
Hypothesis Hfit : fits16 g.

(** What one call of [labelComponents] on an unlabelled cell of the image
    does to labelMat and labelCount: it returns; the cells it pushed were
    unlabelled cells of the image, the seed among them; the other cells
    keep their label; the pushed cells all carry the new id, which is then
    consumed, or they all carry the drop marker, and the id is kept. *)
Lemma labelComponents_cases (lm : Mat Z) (lc : Z) (row col : nat) :
  lc <> 0%Z -> in_image (row, col) -> lm row col = 0%Z ->
  exists (pushed : list (nat * nat)) (lm' : Mat Z) (lc' : Z),
    labelComponents rm lm lc row col = Some (lm', lc')
    /\ In (row, col) pushed
    /\ (forall i j, In (i, j) pushed -> in_image (i, j) /\ lm i j = 0%Z)
    /\ (forall i j, ~ In (i, j) pushed -> lm' i j = lm i j)
    /\ ((lc' = (lc + 1)%Z /\ forall i j, In (i, j) pushed -> lm' i j = lc)
        \/ (lc' = lc
            /\ forall i j, In (i, j) pushed -> lm' i j = SENTINEL_DROP)).
Proof.
  intros Hlc Himg H0.
  destruct (bfs_from_seed rm lm (seed := (row, col)) Hfit Hlc Himg H0)
    as [s [Hbfs [HI Hq]]].
  cbn [fst snd] in Hbfs. unfold labelComponents. rewrite Hbfs.
  exists (b_pushed s).
  destruct (feasibleSegment s).
  - exists (b_label s), (lc + 1)%Z. split; [reflexivity|].
    split; [destruct (inv_head HI) as [rest ->]; now left|].
    split; [intros i j Hin; split;
            [exact (inv_image HI _ Hin)|exact (inv_zero HI _ _ Hin)]|].
    split; [exact (inv_frame HI)|].
    left. split; [reflexivity|exact (inv_label HI)].
  - exists (mark_invalid (b_label s) (b_pushed s)), lc.
    split; [reflexivity|].
    split; [destruct (inv_head HI) as [rest ->]; now left|].
    split; [intros i j Hin; split;
            [exact (inv_image HI _ Hin)|exact (inv_zero HI _ _ Hin)]|].
    split.
    + intros i j Hnin. rewrite mark_invalid_out by exact Hnin.
      now apply (inv_frame HI).
    + right. split; [reflexivity|].
      intros i j Hin. now apply mark_invalid_in.
Qed.

End Components.

Section SegmentPass.

Context {g : Geometry} {ops : FloatOps}.
Variable rm : Mat F.
Hypothesis Hfit : fits16 g.

(** Invariant rule for the labelling loop over a list of cells: [P pre]
    speaks of the state once the cells of [pre] have been visited. *)
Lemma segment_cells_ind (P : list (nat * nat) -> Mat Z -> Z -> Prop)
    (l : list (nat * nat)) (lm : Mat Z) (lc : Z) :
  (forall p, In p l -> in_image p) ->
  (0 < lc)%Z ->
  P [] lm lc ->
  (forall pre p post m c,
      l = pre ++ p :: post -> (0 < c)%Z -> P pre m c ->
      m (fst p) (snd p) <> 0%Z -> P (pre ++ [p]) m c) ->
  (forall pre p post m c m' c',
      l = pre ++ p :: post -> (0 < c)%Z -> P pre m c ->
      m (fst p) (snd p) = 0%Z ->
      labelComponents rm m c (fst p) (snd p) = Some (m', c') ->
      P (pre ++ [p]) m' c') ->
  exists m' c',
    fold_left (fun acc p => segment_cell rm (fst p) (snd p) acc) l
      (Some (lm, lc)) = Some (m', c')
    /\ (0 < c')%Z /\ P l m' c'.
Proof.
  induction l as [|p l IH] using rev_ind; intros Himg Hlc H0 Hskip Hrun.
  - exists lm, lc. auto.
  - destruct IH as [m [c [Hfold [Hc HP]]]]; auto.
    + intros q Hq. apply Himg, in_app_iff. now left.
    + intros pre q post m c Heq. apply (Hskip pre q (post ++ [p])).
      rewrite Heq, <- app_assoc. reflexivity.
    + intros pre q post m c m' c' Heq. apply (Hrun pre q (post ++ [p])).
      rewrite Heq, <- app_assoc. reflexivity.
    + rewrite fold_left_app, Hfold. simpl.
      destruct (Z.eqb_spec (m (fst p) (snd p)) 0) as [Hz|Hnz].
      * assert (Hp : in_image (fst p, snd p)).
        { destruct p. apply Himg, in_app_iff. right. now left. }
        destruct (labelComponents_cases rm Hfit m (lc := c) (row := fst p)
                    (col := snd p)) as [pushed [m' [c' [Hlab [_ [_ [_ Hc']]]]]]];
          [lia|exact Hp|exact Hz|].
        exists m', c'. split; [exact Hlab|]. split.
        -- destruct Hc' as [[-> _]|[-> _]]; lia.
        -- apply (Hrun l p [] m c m' c'); auto.
      * exists m, c. split; [reflexivity|]. split; [exact Hc|].
        apply (Hskip l p [] m c); auto.
Qed.

Lemma segment_pass_cells (lm : Mat Z) (lc : Z) :
  segment_pass rm lm lc = segment_cells rm (cells N_SCAN Horizon_SCAN) lm lc.
Proof. unfold segment_pass, segment_cells. apply for_range_cells. Qed.

(** The labelling loop of [cloudSegmentation] always returns. *)
Lemma segment_pass_total (lm : Mat Z) (lc : Z) :
  (0 < lc)%Z ->
  exists lm' lc', segment_pass rm lm lc = Some (lm', lc') /\ (0 < lc')%Z.
Proof.
  intros Hlc. unfold segment_pass. rewrite for_range_cells.
  destruct (@segment_cells_ind (fun _ _ _ => True)
              (cells N_SCAN Horizon_SCAN) lm lc) as [m [c [H [Hc _]]]];
    auto.
  - intros [i j] Hin. apply in_cells in Hin. exact Hin.
  - exists m, c. auto.
Qed.

End SegmentPass.

Section SegmentProperties.

Context {g : Geometry} {ops : FloatOps}.
Variable rm : Mat F.
Hypothesis Hfit : fits16 g.

Lemma labelComponents_result (lm : Mat Z) (lc : Z) (row col : nat)
    (lm' : Mat Z) (lc' : Z) :
  lc <> 0%Z -> in_image (row, col) -> lm row col = 0%Z ->
  labelComponents rm lm lc row col = Some (lm', lc') ->
  exists pushed : list (nat * nat),
    In (row, col) pushed
    /\ (forall i j, In (i, j) pushed -> in_image (i, j) /\ lm i j = 0%Z)
    /\ (forall i j, ~ In (i, j) pushed -> lm' i j = lm i j)
    /\ ((lc' = (lc + 1)%Z /\ forall i j, In (i, j) pushed -> lm' i j = lc)
        \/ (lc' = lc
            /\ forall i j, In (i, j) pushed -> lm' i j = SENTINEL_DROP)).
Proof.
  intros Hlc Himg H0 Hlab.
  destruct (labelComponents_cases rm Hfit lm Hlc Himg H0)
    as [pushed [m [c [Hlab' H]]]].
  rewrite Hlab in Hlab'. injection Hlab' as -> ->. now exists pushed.
Qed.

Lemma cells_in_image (p : nat * nat) :
  In p (cells N_SCAN Horizon_SCAN) -> in_image p.
Proof. destruct p as [i j]. intros Hin. now apply in_cells in Hin. Qed.

(** After the labelling loop no cell of the image is unlabelled. *)
Lemma segment_pass_nonzero (lm : Mat Z) (lc : Z) :
  (0 < lc)%Z ->
  exists lm' lc',
    segment_pass rm lm lc = Some (lm', lc')
    /\ forall i j, in_image (i, j) -> lm' i j <> 0%Z.
Proof.
  intros Hlc. unfold segment_pass. rewrite for_range_cells.
  destruct (@segment_cells_ind _ _ rm Hfit
              (fun pre m _ => forall i j, In (i, j) pre -> m i j <> 0%Z)
              (cells N_SCAN Horizon_SCAN) lm lc)
    as [m [c [Hfold [_ HP]]]];
    [exact cells_in_image|exact Hlc|intros i j []| | |].
  - intros pre p post m c _ _ HP Hnz i j Hin.
    apply in_app_iff in Hin as [Hin|[->|[]]]; auto.
  - intros pre [pi pj] post m c m' c' Heq Hc HP Hz Hlab i j Hin.
    simpl in *.
    assert (Himg : in_image (pi, pj)).
    { apply cells_in_image. rewrite Heq. apply in_app_iff. right. now left. }
    assert (Hc0 : c <> 0%Z) by lia.
    destruct (@labelComponents_result m c pi pj m' c' Hc0 Himg Hz Hlab)
      as [pushed [Hseed [Hpz [Hfr Hcase]]]].
    destruct (in_dec cell_eq_dec (i, j) pushed) as [Hp|Hp].
    + destruct Hcase as [[_ Hl]|[_ Hl]]; rewrite (Hl _ _ Hp);
        [lia|discriminate].
    + rewrite (Hfr _ _ Hp).
      apply in_app_iff in Hin as [Hin|[Hin|[]]]; [now apply HP|].
      inversion Hin; subst. contradiction.
  - exists m, c. split; [exact Hfold|].
    intros i j Hij. apply HP. apply in_cells. exact Hij.
Qed.

(** The labelling loop only writes to unlabelled cells, and what it
    writes is positive; this holds wherever the loop is stopped. *)
Lemma segment_cells_frame (l : list (nat * nat)) (lm : Mat Z) (lc : Z) :
  (forall p, In p l -> in_image p) ->
  (0 < lc)%Z ->
  exists lm' lc',
    segment_cells rm l lm lc = Some (lm', lc')
    /\ (0 < lc')%Z
    /\ forall i j, lm' i j = lm i j \/ (lm i j = 0%Z /\ (0 < lm' i j)%Z).
Proof.
  intros Hl Hlc. unfold segment_cells.
  destruct (@segment_cells_ind _ _ rm Hfit
              (fun _ m _ =>
                 forall i j, m i j = lm i j
                             \/ (lm i j = 0%Z /\ (0 < m i j)%Z))
              l lm lc)
    as [m [c [Hfold [Hc HP]]]];
    [exact Hl|exact Hlc|intros; now left
    |intros pre p post m c _ _ HP _; exact HP| |].
  - intros pre [pi pj] post m c m' c' Heq Hc HP Hz Hlab i j.
    simpl in *.
    assert (Himg : in_image (pi, pj)).
    { apply Hl. rewrite Heq. apply in_app_iff. right. now left. }
    assert (Hc0 : c <> 0%Z) by lia.
    destruct (@labelComponents_result m c pi pj m' c' Hc0 Himg Hz Hlab)
      as [pushed [Hseed [Hpz [Hfr Hcase]]]].
    destruct (in_dec cell_eq_dec (i, j) pushed) as [Hp|Hp].
    + destruct (Hpz _ _ Hp) as [_ Hm0]. right.
      split; [destruct (HP i j) as [<-|[H _]]; assumption|].
      destruct Hcase as [[_ Hl']|[_ Hl']]; rewrite (Hl' _ _ Hp);
        [exact Hc|reflexivity].
    + rewrite (Hfr _ _ Hp). apply HP.
  - exists m, c. auto.
Qed.

Lemma segment_pass_frame (lm : Mat Z) (lc : Z) :
  (0 < lc)%Z ->
  exists lm' lc',
    segment_pass rm lm lc = Some (lm', lc')
    /\ (0 < lc')%Z
    /\ forall i j, lm' i j = lm i j \/ (lm i j = 0%Z /\ (0 < lm' i j)%Z).
Proof.
  intros Hlc. unfold segment_pass. rewrite for_range_cells.
  apply (segment_cells_frame (cells N_SCAN Horizon_SCAN) lm
           cells_in_image Hlc).
Qed.

Lemma length_cells (rows cols : nat) :
  length (cells rows cols) = (rows * cols)%nat.
Proof.
  unfold cells. induction rows as [|n IH]; [reflexivity|].
  rewrite seq_S, flat_map_app, length_app, IH. simpl.
  rewrite app_nil_r, length_map, length_seq. lia.
Qed.

(** The ids handed out by the labelling loop are 1, 2, ..., labelCount - 1:
    every label of the image is -1, 0, the drop marker or one of these
    ids, and each of these ids labels some cell. *)
Lemma segment_pass_dense (lm : Mat Z) :
  (Z.of_nat (N_SCAN * Horizon_SCAN) < SENTINEL_DROP)%Z ->
  (forall i j, in_image (i, j) -> lm i j = (-1)%Z \/ lm i j = 0%Z) ->
  exists lm' lc',
    segment_pass rm lm 1 = Some (lm', lc')
    /\ (1 <= lc' <= SENTINEL_DROP)%Z
    /\ (forall i j, in_image (i, j) ->
          lm' i j = (-1)%Z \/ lm' i j = 0%Z \/ lm' i j = SENTINEL_DROP
          \/ (1 <= lm' i j < lc')%Z)
    /\ (forall k, (1 <= k < lc')%Z ->
          exists i j, in_image (i, j) /\ lm' i j = k).
Proof.
  intros Hsize Hinit. unfold segment_pass. rewrite for_range_cells.
  destruct (@segment_cells_ind _ _ rm Hfit
              (fun pre m c =>
                 (c <= 1 + Z.of_nat (length pre))%Z
                 /\ (forall i j, in_image (i, j) ->
                       m i j = (-1)%Z \/ m i j = 0%Z \/ m i j = SENTINEL_DROP
                       \/ (1 <= m i j < c)%Z)
                 /\ (forall k, (1 <= k < c)%Z ->
                       exists i j, in_image (i, j) /\ m i j = k))
              (cells N_SCAN Horizon_SCAN) lm 1%Z)
    as [m [c [Hfold [Hc [Hlen [Hlab Hwit]]]]]];
    [exact cells_in_image|lia| | | |].
  - simpl. split; [lia|]. split; [|intros k Hk; lia].
    intros i j Hij. destruct (Hinit i j Hij); auto.
  - intros pre p post m c _ _ [Hlen HP] _. split; [|exact HP].
    rewrite length_app. cbn [length]. lia.
  - intros pre [pi pj] post m c m' c' Heq Hc [Hlen [Hlab Hwit]] Hz Hrun.
    cbn [fst snd] in *.
    assert (Himg : in_image (pi, pj)).
    { apply cells_in_image. rewrite Heq. apply in_app_iff. right. now left. }
    assert (Hpre : (Z.of_nat (length pre) < Z.of_nat (N_SCAN * Horizon_SCAN))%Z).
    { rewrite <- (length_cells N_SCAN Horizon_SCAN), Heq, length_app.
      cbn [length]. lia. }
    assert (Hc0 : c <> 0%Z) by lia.
    destruct (@labelComponents_result m c pi pj m' c' Hc0 Himg Hz Hrun)
      as [pushed [Hseed [Hpz [Hfr Hcase]]]].
    rewrite length_app. cbn [length].
    assert (Hkeep : forall k, (1 <= k < c)%Z ->
              exists i j, in_image (i, j) /\ m' i j = k).
    { intros k Hk. destruct (Hwit k Hk) as [i [j [Hij Hm]]].
      exists i, j. split; [exact Hij|]. rewrite Hfr; [exact Hm|].
      intros Hin. destruct (Hpz _ _ Hin) as [_ Hm0]. lia. }
    destruct Hcase as [[-> Hl]|[-> Hl]].
    + split; [lia|]. split.
      * intros i j Hij.
        destruct (in_dec cell_eq_dec (i, j) pushed) as [Hp|Hp].
        -- rewrite (Hl _ _ Hp). right. right. right. lia.
        -- rewrite (Hfr _ _ Hp). destruct (Hlab i j Hij) as [H|[H|[H|H]]];
             auto. right. right. right. lia.
      * intros k Hk. destruct (Z.eq_dec k c) as [->|Hne].
        -- exists pi, pj. split; [exact Himg|]. now apply Hl.
        -- apply Hkeep. lia.
    + split; [lia|]. split; [|exact Hkeep].
      intros i j Hij.
      destruct (in_dec cell_eq_dec (i, j) pushed) as [Hp|Hp].
      * rewrite (Hl _ _ Hp). auto.
      * rewrite (Hfr _ _ Hp). apply Hlab, Hij.
  - exists m, c. split; [exact Hfold|]. split; [|split; assumption].
    rewrite length_cells in Hlen. lia.
Qed.

(** The labels when the labelling loop has visited every cell: a cell that
    held -1 keeps it, a cell that was unlabelled holds the drop marker or
    an id below the final labelCount. *)
Lemma segment_pass_labels (lm : Mat Z) :
  (forall i j, in_image (i, j) -> lm i j = (-1)%Z \/ lm i j = 0%Z) ->
  exists lm' lc',
    segment_pass rm lm 1 = Some (lm', lc')
    /\ (1 <= lc')%Z
    /\ forall i j, in_image (i, j) ->
         (lm i j = (-1)%Z /\ lm' i j = (-1)%Z)
         \/ (lm i j = 0%Z
             /\ (lm' i j = SENTINEL_DROP \/ (1 <= lm' i j < lc')%Z)).
Proof.
  intros Hinit. unfold segment_pass. rewrite for_range_cells.
  destruct (@segment_cells_ind _ _ rm Hfit
              (fun pre m c =>
                 (1 <= c)%Z
                 /\ forall i j, in_image (i, j) ->
                      (lm i j = (-1)%Z /\ m i j = (-1)%Z)
                      \/ (lm i j = 0%Z
                          /\ ((m i j = 0%Z /\ ~ In (i, j) pre)
                              \/ m i j = SENTINEL_DROP
                              \/ (1 <= m i j < c)%Z)))
              (cells N_SCAN Horizon_SCAN) lm 1%Z)
    as [m [c [Hfold [_ [Hc HP]]]]];
    [exact cells_in_image|lia| | | |].
  - split; [lia|]. intros i j Hij.
    destruct (Hinit i j Hij) as [H|H]; [left; auto|].
    right. split; [exact H|]. left. split; [exact H|]. intros [].
  - intros pre p post m c _ _ [Hc HP] Hnz. split; [exact Hc|].
    intros i j Hij.
    destruct (HP i j Hij) as [H|[H0 [[Hz Hnin]|H]]];
      [now left| |right; split; [exact H0|right; exact H]].
    right. split; [exact H0|]. left. split; [exact Hz|].
    intros Hin. apply in_app_iff in Hin as [Hin|[Heq|[]]]; [now apply Hnin|].
    subst p. cbn [fst snd] in Hnz. contradiction.
  - intros pre [pi pj] post m c m' c' Heq Hc0 [Hc HP] Hz Hrun.
    cbn [fst snd] in *.
    assert (Himg : in_image (pi, pj)).
    { apply cells_in_image. rewrite Heq. apply in_app_iff. right. now left. }
    assert (Hcn : c <> 0%Z) by lia.
    destruct (@labelComponents_result m c pi pj m' c' Hcn Himg Hz Hrun)
      as [pushed [Hseed [Hpz [Hfr Hcase]]]].
    assert (Hc' : (c <= c')%Z) by (destruct Hcase as [[-> _]|[-> _]]; lia).
    split; [lia|]. intros i j Hij.
    destruct (in_dec cell_eq_dec (i, j) pushed) as [Hp|Hp].
    + destruct (Hpz _ _ Hp) as [_ Hm0].
      destruct (HP i j Hij) as [[_ H]|[H0 _]]; [lia|].
      right. split; [exact H0|].
      destruct Hcase as [[-> Hl]|[-> Hl]]; rewrite (Hl _ _ Hp);
        [right; right; lia|right; left; reflexivity].
    + rewrite (Hfr _ _ Hp).
      destruct (HP i j Hij) as [H|[H0 [[Hm Hnin]|[H|H]]]]; [now left| | |].
      * right. split; [exact H0|]. left. split; [exact Hm|].
        intros Hin. apply in_app_iff in Hin as [Hin|[Heq'|[]]];
          [now apply Hnin|].
        inversion Heq'; subst. contradiction.
      * right. split; [exact H0|]. right. now left.
      * right. split; [exact H0|]. right. right. lia.
  - exists m, c. split; [exact Hfold|]. split; [exact Hc|].
    intros i j Hij.
    destruct (HP i j Hij) as [H|[H0 [[_ Hnin]|H]]];
      [now left| |right; split; [exact H0|exact H]].
    exfalso. apply Hnin. apply in_cells. exact Hij.
Qed.

End SegmentProperties.

Section GroundPass.

Context {g : Geometry} {ops : FloatOps}.

(** The marking loop of [groundRemoval], cell by cell. *)
Lemma mark_pass_marked (gm : Mat Z) (rm : Mat F) (lm : Mat Z) (i j : nat) :
  in_image (i, j) ->
  ((gm i j =? 1)%Z || feqb (rm i j) FLT_MAX) = true ->
  mark_pass gm rm lm i j = (-1)%Z.
Proof.
  intros [Hi Hj] Hc. unfold mark_pass. rewrite for_range_cells.
  assert (Hin : In (i, j) (cells N_SCAN Horizon_SCAN)) by now apply in_cells.
  revert Hin. generalize (cells N_SCAN Horizon_SCAN) as l.
  induction l as [|a l IH] using rev_ind; intros Hin; [destruct Hin|].
  rewrite fold_left_app. simpl. unfold mark_cell at 1.
  destruct (cell_eq_dec (i, j) a) as [<-|Hne].
  - simpl. rewrite Hc. apply mat_set_same.
  - assert (Hl : In (i, j) l).
    { apply in_app_iff in Hin as [Hin|[Heq|[]]]; [exact Hin|].
      now elim Hne. }
    destruct ((gm (fst a) (snd a) =? 1)%Z
              || feqb (rm (fst a) (snd a)) FLT_MAX); [|now apply IH].
    rewrite mat_set_other; [now apply IH|]. intros Heq. apply Hne.
    rewrite Heq. now destruct a.
Qed.

Lemma mark_pass_unmarked (gm : Mat Z) (rm : Mat F) (lm : Mat Z)
    (i j : nat) :
  ((gm i j =? 1)%Z || feqb (rm i j) FLT_MAX) = false ->
  mark_pass gm rm lm i j = lm i j.
Proof.
  intros Hc. unfold mark_pass. rewrite for_range_cells.
  generalize (cells N_SCAN Horizon_SCAN) as l.
  induction l as [|a l IH] using rev_ind; [reflexivity|].
  rewrite fold_left_app. simpl. unfold mark_cell at 1.
  destruct ((gm (fst a) (snd a) =? 1)%Z
            || feqb (rm (fst a) (snd a)) FLT_MAX) eqn:E; [|exact IH].
  rewrite mat_set_other; [exact IH|]. intros Heq.
  inversion Heq; subst. rewrite Hc in E. discriminate.
Qed.

End GroundPass.

Section Emission.

Context {g : Geometry} {ops : FloatOps}.
Variable s : State.
Hypothesis Hfit : fits16 g.

Let keep (p : nat * nat) : bool :=
  spec_segmented (labelMat s) (groundMat s) (fst p) (snd p).
Let drop (p : nat * nat) : bool :=
  spec_outlier (labelMat s) (groundMat s) (fst p) (snd p).

Lemma away_from_right_edge_spec (j : nat) :
  (5 < j < Horizon_SCAN)%nat ->
  away_from_right_edge j
  = negb (Z.of_nat Horizon_SCAN - 5 <=? Z.of_nat j)%Z.
Proof.
  intros Hj. destruct Hfit as [_ Hc]. unfold away_from_right_edge.
  rewrite Z.mod_small by lia.
  destruct (Z.leb_spec (Z.of_nat Horizon_SCAN - 5) (Z.of_nat j)); simpl.
  - apply Z.ltb_ge. lia.
  - apply Z.ltb_lt. lia.
Qed.

(** One cell of the extraction loop. *)
Lemma emit_cell_spec (i j : nat) (e : Emit) :
  (j < Horizon_SCAN)%nat ->
  e_segmented (emit_cell s i j e)
  = e_segmented e ++ map (cell_point s) (filter keep [(i, j)])
  /\ e_outlier (emit_cell s i j e)
     = e_outlier e ++ map (cell_point s) (filter drop [(i, j)])
  /\ sizeOfSegCloud (emit_cell s i j e)
     = (sizeOfSegCloud e + length (filter keep [(i, j)]))%nat
  /\ e_start (emit_cell s i j e) = e_start e
  /\ e_end (emit_cell s i j e) = e_end e.
Proof.
  intros Hj. unfold emit_cell, keep, drop, spec_segmented, spec_outlier.
  unfold SENTINEL_DROP, cell_point. cbn [fst snd filter].
  generalize (j mod 5 =? 0)%nat as m5. intros m5.
  destruct (Nat.ltb_spec 5 j) as [H5|H5].
  - rewrite (away_from_right_edge_spec (conj H5 Hj)).
    destruct (Nat.leb_spec j 5); [lia|].
    destruct (labelMat s i j >? 0)%Z; destruct (groundMat s i j =? 1)%Z;
      destruct (labelMat s i j =? 999999)%Z;
      destruct (groundScanInd <? i)%nat; destruct m5;
      destruct (Z.of_nat Horizon_SCAN - 5 <=? Z.of_nat j)%Z;
      simpl; rewrite ?app_nil_r, ?Nat.add_0_r, ?Nat.add_1_r; auto.
  - destruct (Nat.leb_spec j 5); [|lia].
    destruct (labelMat s i j >? 0)%Z; destruct (groundMat s i j =? 1)%Z;
      destruct (labelMat s i j =? 999999)%Z;
      destruct (groundScanInd <? i)%nat; destruct m5;
      simpl; rewrite ?app_nil_r, ?Nat.add_0_r, ?Nat.add_1_r, ?orb_true_r;
      auto.
Qed.


Lemma cells_S (rows cols : nat) :
  cells (Datatypes.S rows) cols
  = cells rows cols ++ map (pair rows) (seq 0 cols).
Proof.
  unfold cells. rewrite seq_S, flat_map_app. simpl. now rewrite app_nil_r.
Qed.

(** The columns of one row. *)
Lemma emit_cols_spec (i n : nat) (e : Emit) :
  (n <= Horizon_SCAN)%nat ->
  let e' := for_range n (emit_cell s i) e in
  let row := map (pair i) (seq 0 n) in
  e_segmented e' = e_segmented e ++ map (cell_point s) (filter keep row)
  /\ e_outlier e' = e_outlier e ++ map (cell_point s) (filter drop row)
  /\ sizeOfSegCloud e'
     = (sizeOfSegCloud e + length (filter keep row))%nat
  /\ e_start e' = e_start e
  /\ e_end e' = e_end e.
Proof.
  induction n as [|n IH]; intros Hn; cbv zeta.
  - simpl. rewrite !app_nil_r, Nat.add_0_r. auto.
  - rewrite for_range_S. cbv zeta in IH.
    destruct IH as [Hs [Ho [Hz [Hst Hen]]]]; [lia|].
    destruct (emit_cell_spec i (for_range n (emit_cell s i) e) (j := n))
      as [Hs' [Ho' [Hz' [Hst' Hen']]]]; [lia|].
    rewrite Hs', Ho', Hz', Hst', Hen', Hs, Ho, Hz, Hst, Hen.
    rewrite seq_S, map_app, !filter_app, !map_app, length_app.
    cbn [map Nat.add]. rewrite <- !app_assoc, Nat.add_assoc. auto.
Qed.

Lemma emit_row_spec (i : nat) (e : Emit) :
  let row := map (pair i) (seq 0 Horizon_SCAN) in
  e_segmented (emit_row s i e)
  = e_segmented e ++ map (cell_point s) (filter keep row)
  /\ e_outlier (emit_row s i e)
     = e_outlier e ++ map (cell_point s) (filter drop row)
  /\ sizeOfSegCloud (emit_row s i e)
     = (sizeOfSegCloud e + length (filter keep row))%nat
  /\ e_start (emit_row s i e)
     = arr_set (e_start e) i (Z.of_nat (sizeOfSegCloud e) - 1 + 5)%Z
  /\ e_end (emit_row s i e)
     = arr_set (e_end e) i
         (Z.of_nat (sizeOfSegCloud e + length (filter keep row)) - 1 - 5)%Z.
Proof.
  unfold emit_row.
  destruct (emit_cols_spec i (set_start i e) (le_n Horizon_SCAN))
    as [Hs [Ho [Hz [Hst Hen]]]].
  unfold set_end at 1 2 3 4 5. simpl. rewrite Hs, Ho, Hz, Hst, Hen.
  simpl. auto.
Qed.

(** The extraction loop as a whole: the two clouds are the cells the
    rule selects, in row-major order, and the ring indices count the
    points appended before each row and up to its end. *)
Lemma emit_pass_spec :
  let all := cells N_SCAN Horizon_SCAN in
  e_segmented (emit_pass s)
  = segmentedCloud s ++ map (cell_point s) (filter keep all)
  /\ e_outlier (emit_pass s)
     = outlierCloud s ++ map (cell_point s) (filter drop all)
  /\ forall i, (i < N_SCAN)%nat ->
       e_start (emit_pass s) i
       = (Z.of_nat (length (filter keep (cells i Horizon_SCAN))) - 1 + 5)%Z
       /\ e_end (emit_pass s) i
          = (Z.of_nat (length (filter keep (cells (Datatypes.S i) Horizon_SCAN)))
             - 1 - 5)%Z.
Proof.
  unfold emit_pass.
  assert (H : forall n,
             let e := for_range n (emit_row s) (emit_init s) in
             let done := cells n Horizon_SCAN in
             e_segmented e
             = segmentedCloud s ++ map (cell_point s) (filter keep done)
             /\ e_outlier e
                = outlierCloud s ++ map (cell_point s) (filter drop done)
             /\ sizeOfSegCloud e = length (filter keep done)
             /\ forall i, (i < n)%nat ->
                  e_start e i
                  = (Z.of_nat (length (filter keep (cells i Horizon_SCAN)))
                     - 1 + 5)%Z
                  /\ e_end e i
                     = (Z.of_nat
                          (length (filter keep
                                     (cells (Datatypes.S i) Horizon_SCAN)))
                        - 1 - 5)%Z).
  { induction n as [|n IH].
    - simpl. rewrite !app_nil_r. split; [reflexivity|].
      split; [reflexivity|]. split; [reflexivity|]. intros i Hi. lia.
    - rewrite for_range_S. cbv zeta in IH.
      destruct IH as [Hs [Ho [Hz Hi]]].
      destruct (emit_row_spec n (for_range n (emit_row s) (emit_init s)))
        as [Hs' [Ho' [Hz' [Hst' Hen']]]].
      cbv zeta. rewrite Hs', Ho', Hz', Hs, Ho, Hz, cells_S.
      rewrite !filter_app, !map_app, length_app, <- !app_assoc.
      split; [reflexivity|]. split; [reflexivity|].
      split; [reflexivity|]. intros i Hlt. split.
      + rewrite Hst'. unfold arr_set.
        destruct (Nat.eqb_spec i n) as [->|Hne]; [now rewrite Hz|].
        apply Hi. lia.
      + rewrite Hen'. unfold arr_set.
        destruct (Nat.eqb_spec i n) as [->|Hne].
        * rewrite Hz, cells_S, filter_app, length_app. reflexivity.
        * apply Hi. lia. }
  cbv zeta in *. destruct (H N_SCAN) as [Hs [Ho [_ Hi]]]. auto.
Qed.

End Emission.

Section Pipeline.

Context {g : Geometry} {ops : FloatOps}.
Variable subs : Subscribers.

Lemma reset_state_reset (s : State) : reset_state (resetParameters s).
Proof. unfold reset_state. simpl. repeat split. Qed.

Lemma reset_state_copy (msg : PointCloud2) (s : State) :
  reset_state s -> reset_state (copyPointCloud msg s).
Proof. unfold reset_state. simpl. tauto. Qed.

Lemma reset_state_angle (s s1 : State) :
  findStartEndAngle s = Some s1 -> reset_state s -> reset_state s1.
Proof.
  unfold findStartEndAngle. destruct (laserCloudIn s); [discriminate|].
  intros H. injection H as <-. unfold reset_state. simpl. tauto.
Qed.

Lemma project_point_frame (s : State) (ip : nat * (F * F * F)) :
  same_but_projection s (project_point s ip).
Proof.
  unfold project_point, same_but_projection.
  destruct ip as [i [[x y] z]].
  destruct (N_SCAN <=? _)%nat; [repeat split|].
  destruct (Horizon_SCAN <=? _)%nat; [repeat split|].
  destruct (belowMinimumRange _); repeat split.
Qed.

Lemma projectPointCloud_frame (s : State) :
  same_but_projection s (projectPointCloud s).
Proof.
  unfold projectPointCloud.
  generalize (combine (seq 0 (length (laserCloudIn s))) (laserCloudIn s)).
  intros l. revert s. induction l as [|ip l IH]; intros s; simpl.
  - unfold same_but_projection. repeat split.
  - specialize (IH (project_point s ip)).
    generalize (project_point_frame s ip).
    unfold same_but_projection in *.
    intros H. decompose [and] H. decompose [and] IH.
    repeat split; congruence.
Qed.


(** The state that [groundRemoval] hands to [cloudSegmentation]. *)
Lemma groundRemoval_state (s : State) :
  reset_state s ->
  let s2 := groundRemoval subs (projectPointCloud s) in
  labelCount s2 = 1%Z
  /\ segmentedCloud s2 = [] /\ outlierCloud s2 = []
  /\ segmentedCloudPure s2 = []
  /\ ros s2 = ros s
  /\ excluded_iff_ground_or_empty s2
  /\ (forall i j, in_image (i, j) ->
        labelMat s2 i j = (-1)%Z \/ labelMat s2 i j = 0%Z).
Proof.
  intros Hr. destruct Hr as [_ [_ [Hlm [Hlc [_ [_ [_ [Hsc [Hsp Hoc]]]]]]]]].
  destruct (projectPointCloud_frame s)
    as [Plm [_ [Plc [_ [Psc [Psp [Poc [_ [_ Pros]]]]]]]]].
  cbv zeta. unfold groundRemoval, excluded_iff_ground_or_empty. simpl.
  rewrite Plm, Plc, Psc, Psp, Poc, Pros, Hlm, Hlc, Hsc, Hsp, Hoc.
  repeat (split; [reflexivity|]).
  set (gm := ground_pass _ _). set (rm := rangeMat _).
  split; intros i j Hij.
  - destruct ((gm i j =? 1)%Z || feqb (rm i j) FLT_MAX) eqn:E.
    + rewrite (mark_pass_marked gm rm _ Hij E).
      apply orb_true_iff in E. rewrite Z.eqb_eq in E. tauto.
    + rewrite (mark_pass_unmarked gm rm _ i j E).
      apply orb_false_iff in E as [E1 E2]. apply Z.eqb_neq in E1.
      split; [discriminate|]. intros [H|H]; congruence.
  - destruct ((gm i j =? 1)%Z || feqb (rm i j) FLT_MAX) eqn:E.
    + left. apply (mark_pass_marked gm rm _ Hij E).
    + right. apply (mark_pass_unmarked gm rm _ i j E).
Qed.

(** [cloudSegmentation] returns whenever the labelling loop does, and
    only the labels, the label count and what the extraction writes
    change. *)
Lemma cloudSegmentation_state (s : State) (lm : Mat Z) (lc : Z) :
  segment_pass (rangeMat s) (labelMat s) (labelCount s) = Some (lm, lc) ->
  exists s3,
    cloudSegmentation subs s = Some s3
    /\ s3 = set_emitted (set_labels s lm lc) (emit_pass (set_labels s lm lc))
              (if negb (subSegmentedCloudPure subs =? 0)%nat
               then pure_pass lm (fullCloud s) (segmentedCloudPure s)
               else segmentedCloudPure s)
    /\ labelMat s3 = lm /\ labelCount s3 = lc
    /\ rangeMat s3 = rangeMat s /\ groundMat s3 = groundMat s
    /\ fullCloud s3 = fullCloud s /\ ros s3 = ros s.
Proof.
  intros Hseg. unfold cloudSegmentation. rewrite Hseg.
  eexists. split; [reflexivity|]. simpl. repeat split.
Qed.

End Pipeline.

Section Segmented.

Context {g : Geometry} {ops : FloatOps}.
Variable subs : Subscribers.

(** Every point of the visualisation cloud comes from a cell with a
    cluster id and has that id as intensity. *)
Lemma pure_pass_points (lm : Mat Z) (cloud : Arr PointXYZI)
    (acc : list PointXYZI) (p : PointXYZI) :
  In p (pure_pass lm cloud acc) ->
  In p acc
  \/ exists i j,
       in_image (i, j)
       /\ p = {| xyz := xyz (cloud (j + i * Horizon_SCAN)%nat);
                 intensity := inject_Z (lm i j) |}
       /\ (0 < lm i j)%Z /\ lm i j <> SENTINEL_DROP.
Proof.
  unfold pure_pass. rewrite for_range_cells.
  assert (Hc : forall q, In q (cells N_SCAN Horizon_SCAN) -> in_image q).
  { intros [i j] Hq. now apply in_cells in Hq. }
  revert Hc. generalize (cells N_SCAN Horizon_SCAN) as l.
  induction l as [|a l IH] using rev_ind; intros Hc Hin; [now left|].
  rewrite fold_left_app in Hin. simpl in Hin. unfold pure_cell in Hin at 1.
  assert (Hl : forall q, In q l -> in_image q).
  { intros q Hq. apply Hc, in_app_iff. now left. }
  destruct (Z.gtb_spec (lm (fst a) (snd a)) 0) as [Hpos|Hnp];
    [|now apply IH].
  destruct (Z.eqb_spec (lm (fst a) (snd a)) 999999) as [Hs|Hns];
    simpl in Hin; [now apply IH|].
  apply in_app_iff in Hin as [Hin|[<-|[]]]; [now apply IH|].
  right. exists (fst a), (snd a). split.
  - destruct a. apply Hc, in_app_iff. right. now left.
  - split; [reflexivity|]. split; [lia|exact Hns].
Qed.

(** C4.  From the end of the ground-classification pass on, that is when
    [groundRemoval] returns, wherever the labelling loop of the
    segmentation is stopped, when [cloudSegmentation] returns and when the
    clouds have been published, a cell of the image has label -1 if and
    only if it is a ground cell (groundMat = 1) or has no return
    (rangeMat = FLT_MAX).  Segmentation always returns. *)
Theorem excluded_label_iff_ground_or_empty
    (s0 : State) (msg : PointCloud2) (s1 : State) :
  fits16 g ->
  findStartEndAngle (copyPointCloud msg (resetParameters s0)) = Some s1 ->
  let s2 := groundRemoval subs (projectPointCloud s1) in
  excluded_iff_ground_or_empty s2
  /\ (forall visited rest,
        cells N_SCAN Horizon_SCAN = visited ++ rest ->
        exists lm lc,
          segment_cells (rangeMat s2) visited (labelMat s2) (labelCount s2)
          = Some (lm, lc)
          /\ excluded_iff_ground_or_empty (set_labels s2 lm lc))
  /\ exists s3,
       cloudSegmentation subs s2 = Some s3
       /\ excluded_iff_ground_or_empty s3
       /\ excluded_iff_ground_or_empty (publishCloud subs s3).
Proof.
  intros Hfit Hstart s2.
  assert (Hr : reset_state s1).
  { eapply reset_state_angle; [exact Hstart|].
    apply reset_state_copy, reset_state_reset. }
  destruct (groundRemoval_state subs Hr) as [Hlc [_ [_ [_ [_ [Hex _]]]]]].
  fold s2 in Hlc, Hex. split; [exact Hex|].
  assert (Hkeep : forall lm : Mat Z,
             (forall i j, lm i j = labelMat s2 i j
                          \/ (labelMat s2 i j = 0%Z /\ (0 < lm i j)%Z)) ->
             forall r c, in_image (r, c) ->
               (lm r c = (-1)%Z
                <-> groundMat s2 r c = 1%Z
                    \/ feqb (rangeMat s2 r c) FLT_MAX = true)).
  { intros lm Hfr r c Hrc. rewrite <- (Hex r c Hrc).
    destruct (Hfr r c) as [->|[H0 Hpos]]; [tauto|]. split; intros; lia. }
  split.
  - intros visited rest Hsplit.
    destruct (segment_cells_frame (rangeMat s2) Hfit visited (labelMat s2)
                (lc := labelCount s2)) as [lm [lc [Hseg [_ Hfr]]]].
    + intros p Hp. apply cells_in_image. rewrite Hsplit.
      apply in_app_iff. now left.
    + rewrite Hlc. lia.
    + exists lm, lc. split; [exact Hseg|].
      intros r c Hrc. simpl. now apply Hkeep.
  - destruct (segment_pass_frame (rangeMat s2) Hfit (labelMat s2)
                (lc := labelCount s2)) as [lm [lc [Hseg [_ Hfr]]]];
      [rewrite Hlc; lia|].
    destruct (cloudSegmentation_state subs s2 Hseg)
      as [s3 [Hcs [_ [Hlm [_ [Hrm [Hgm _]]]]]]].
    exists s3. split; [exact Hcs|].
    assert (H3 : excluded_iff_ground_or_empty s3).
    { intros r c Hrc. rewrite Hlm, Hrm, Hgm. now apply Hkeep. }
    split; [exact H3|exact H3].
Qed.

(** C10.  The segmentation pass completes on every scan, and then no cell
    of the image has label 0.  Each cell either holds -1, and is a ground
    cell or a cell without a return, or it is neither and holds a cluster
    id, a value from 1 to labelCount - 1, or the drop marker 999999. *)
Theorem no_cell_left_unlabelled
    (s0 : State) (msg : PointCloud2) (s1 : State) :
  fits16 g ->
  findStartEndAngle (copyPointCloud msg (resetParameters s0)) = Some s1 ->
  exists s3,
    process subs s1 = Some s3
    /\ forall r c, in_image (r, c) ->
         labelMat s3 r c <> 0%Z
         /\ ((labelMat s3 r c = (-1)%Z
              /\ (groundMat s3 r c = 1%Z
                  \/ feqb (rangeMat s3 r c) FLT_MAX = true))
             \/ (groundMat s3 r c <> 1%Z
                 /\ feqb (rangeMat s3 r c) FLT_MAX = false
                 /\ ((1 <= labelMat s3 r c < labelCount s3)%Z
                     \/ labelMat s3 r c = SENTINEL_DROP))).
Proof.
  intros Hfit Hstart. unfold process.
  set (s2 := groundRemoval subs (projectPointCloud s1)).
  assert (Hr : reset_state s1).
  { eapply reset_state_angle; [exact Hstart|].
    apply reset_state_copy, reset_state_reset. }
  destruct (groundRemoval_state subs Hr) as [Hlc [_ [_ [_ [_ [Hex Hl]]]]]].
  fold s2 in Hlc, Hex, Hl.
  destruct (segment_pass_labels (rangeMat s2) Hfit (labelMat s2) Hl)
    as [lm [lc [Hseg [Hlc1 Hlab]]]].
  rewrite <- Hlc in Hseg.
  destruct (cloudSegmentation_state subs s2 Hseg)
    as [s3 [Hcs [_ [Hlm [Hlc3 [Hrm [Hgm _]]]]]]].
  exists s3. split; [exact Hcs|]. intros r c Hrc.
  rewrite Hlm, Hlc3, Hrm, Hgm.
  destruct (Hlab r c Hrc) as [[H2 H3]|[H2 H3]].
  - split; [lia|]. left. split; [exact H3|]. now apply (Hex r c Hrc).
  - assert (Hno : ~ (groundMat s2 r c = 1%Z
                     \/ feqb (rangeMat s2 r c) FLT_MAX = true)).
    { intros H. apply (Hex r c Hrc) in H. lia. }
    split; [unfold SENTINEL_DROP in H3; lia|]. right.
    split; [tauto|]. split; [|tauto].
    destruct (feqb (rangeMat s2 r c) FLT_MAX); [|reflexivity].
    exfalso. apply Hno. now right.
Qed.


(** C5.  After the segmentation of a scan there is an N >= 0 (the final
    labelCount minus one) such that the positive labels of the image
    other than the drop marker are exactly 1, ..., N, and every point of
    the pure-object cloud is the point of a cell of the image with the
    cluster id of that cell, one of 1, ..., N, as intensity.  The image
    has fewer cells than the value of the drop marker. *)
Theorem cluster_ids_dense (s0 : State) (msg : PointCloud2) (s1 : State) :
  fits16 g ->
  (Z.of_nat (N_SCAN * Horizon_SCAN) < SENTINEL_DROP)%Z ->
  findStartEndAngle (copyPointCloud msg (resetParameters s0)) = Some s1 ->
  exists s3 N,
    process subs s1 = Some s3
    /\ (0 <= N)%Z /\ labelCount s3 = (N + 1)%Z
    /\ (forall v,
          (exists r c, in_image (r, c) /\ labelMat s3 r c = v
                       /\ (0 < v)%Z /\ v <> SENTINEL_DROP)
          <-> (1 <= v <= N)%Z)
    /\ forall p, In p (segmentedCloudPure s3) ->
         exists r c,
           in_image (r, c)
           /\ p = {| xyz := xyz (cell_point s3 (r, c));
                     intensity := inject_Z (labelMat s3 r c) |}
           /\ (1 <= labelMat s3 r c <= N)%Z.
Proof.
  intros Hfit Hsize Hstart. unfold process.
  set (s2 := groundRemoval subs (projectPointCloud s1)).
  assert (Hr : reset_state s1).
  { eapply reset_state_angle; [exact Hstart|].
    apply reset_state_copy, reset_state_reset. }
  destruct (groundRemoval_state subs Hr)
    as [Hlc [_ [_ [Hpure [_ [_ Hl]]]]]].
  fold s2 in Hlc, Hl, Hpure. clearbody s2.
  destruct (segment_pass_dense (rangeMat s2) Hfit (labelMat s2) Hsize Hl)
    as [lm [lc [Hseg [Hb [Hlab Hwit]]]]].
  rewrite <- Hlc in Hseg.
  destruct (segment_pass_nonzero (rangeMat s2) Hfit (labelMat s2)
              (lc := labelCount s2)) as [lm' [lc' [Hseg' Hnz]]];
    [rewrite Hlc; lia|].
  rewrite Hseg in Hseg'. injection Hseg' as <- <-.
  destruct (cloudSegmentation_state subs s2 Hseg)
    as [s3 [Hcs [Hs3 [Hlm [Hlc3 [_ [_ [Hfc _]]]]]]]].
  exists s3, (lc - 1)%Z. split; [exact Hcs|]. split; [lia|].
  split; [rewrite Hlc3; lia|].
  assert (Hid : forall r c, in_image (r, c) -> (0 < lm r c)%Z ->
                  lm r c <> SENTINEL_DROP -> (1 <= lm r c <= lc - 1)%Z).
  { intros r c Hrc Hpos Hns.
    destruct (Hlab r c Hrc) as [H|[H|[H|H]]]; lia. }
  split.
  - intros v. rewrite Hlm. split.
    + intros [r [c [Hrc [<- [Hpos Hns]]]]]. now apply Hid.
    + intros Hv. destruct (Hwit v) as [r [c [Hrc Hvc]]]; [lia|].
      exists r, c. unfold SENTINEL_DROP in *.
      split; [exact Hrc|]. split; [exact Hvc|]. lia.
  - intros p Hp. rewrite Hs3 in Hp. unfold set_emitted in Hp.
    cbn [segmentedCloudPure] in Hp. rewrite Hpure in Hp.
    destruct (negb (subSegmentedCloudPure subs =? 0)%nat); [|destruct Hp].
    apply pure_pass_points in Hp as [[]|[r [c [Hrc [-> [Hpos Hns]]]]]].
    exists r, c. split; [exact Hrc|]. unfold cell_point. simpl.
    rewrite Hlm, Hfc. split; [reflexivity|now apply Hid].
Qed.

End Segmented.

Section Extraction.

Context {g : Geometry} {ops : FloatOps}.
Variable subs : Subscribers.

(** C7.  [cloudSegmentation] always returns, and the extraction appends
    to the segmented cloud the points of exactly the cells that the
    emission rule selects, in row-major order: the cells with label > 0
    or groundMat = 1, except those with the drop marker, and except the
    ground cells whose column c has neither c mod 5 = 0 nor c <= 5 nor
    c >= Horizon_SCAN - 5.  It appends to the outlier cloud the points
    of exactly the cells with the drop marker in rows r > groundScanInd
    and columns c with c mod 5 = 0, in row-major order. *)
Theorem emission_follows_rule (s : State) :
  fits16 g -> (0 < labelCount s)%Z ->
  exists s3,
    cloudSegmentation subs s = Some s3
    /\ segmentedCloud s3
       = segmentedCloud s
         ++ map (cell_point s3)
              (filter (fun p => spec_segmented (labelMat s3) (groundMat s3)
                                  (fst p) (snd p))
                 (cells N_SCAN Horizon_SCAN))
    /\ outlierCloud s3
       = outlierCloud s
         ++ map (cell_point s3)
              (filter (fun p => spec_outlier (labelMat s3) (groundMat s3)
                                  (fst p) (snd p))
                 (cells N_SCAN Horizon_SCAN)).
Proof.
  intros Hfit Hlc.
  destruct (segment_pass_total (rangeMat s) Hfit (labelMat s) Hlc)
    as [lm [lc [Hseg _]]].
  destruct (cloudSegmentation_state subs s Hseg) as [s3 [Hcs [Hs3 _]]].
  exists s3. split; [exact Hcs|]. rewrite Hs3.
  destruct (emit_pass_spec (set_labels s lm lc) Hfit) as [Hs [Ho _]].
  split; [exact Hs|exact Ho].
Qed.

End Extraction.

Section Handler.

Context {g : Geometry} {ops : FloatOps}.
Variable subs : Subscribers.

(** C1.  A message without points, whatever its dense flag and whatever the
    state of the node: [findStartEndAngle] reads points[0] and
    points[size - 1] of an empty cloud, so that neither it, nor the handler
    up to [publishCloud], nor [cloudHandler] has a defined result.  The
    pipeline does not complete. *)
Theorem empty_scan_has_no_result (dense : bool) (s : State) :
  laserCloudIn (copyPointCloud (empty_msg dense) s) = []
  /\ findStartEndAngle (copyPointCloud (empty_msg dense) s) = None
  /\ handle_scan subs (empty_msg dense) s = None
  /\ cloudHandler subs (empty_msg dense) s = None.
Proof.
  assert (H : laserCloudIn (copyPointCloud (empty_msg dense) s) = []).
  { unfold copyPointCloud, removeNaNFromPointCloud, empty_msg.
    cbn [laserCloudIn msg_points msg_is_dense map filter].
    destruct dense; reflexivity. }
  assert (H' : findStartEndAngle (copyPointCloud (empty_msg dense) s) = None).
  { unfold findStartEndAngle. now rewrite H. }
  split; [exact H|]. split; [exact H'|].
  unfold cloudHandler, handle_scan. rewrite H'. split; reflexivity.
Qed.

Lemma findStartEndAngle_frame (s s1 : State) :
  findStartEndAngle s = Some s1 ->
  ros s1 = ros s /\ laserCloudIn s <> [].
Proof.
  unfold findStartEndAngle. destruct (laserCloudIn s); [discriminate|].
  intros H. injection H as <-. split; [reflexivity|discriminate].
Qed.

(** A scan with at least one point goes through all the stages: the
    handler reaches the end of [publishCloud], with every [publish] call
    made, and the first start ring index is 4. *)
Lemma handle_scan_result (s0 : State) (msg : PointCloud2) (s1 : State) :
  fits16 g ->
  findStartEndAngle (copyPointCloud msg (resetParameters s0)) = Some s1 ->
  exists s4,
    handle_scan subs msg (resetParameters s0) = Some s4
    /\ ros s4
       = ros (copyPointCloud msg (resetParameters s0)) ++ published subs
    /\ ((0 < N_SCAN)%nat -> startRingIndex s4 0%nat = 4%Z).
Proof.
  intros Hfit Hstart. unfold handle_scan. rewrite Hstart. unfold process.
  assert (Hr : reset_state s1).
  { eapply reset_state_angle; [exact Hstart|].
    apply reset_state_copy, reset_state_reset. }
  destruct (findStartEndAngle_frame _ Hstart) as [Hros1 _].
  destruct (groundRemoval_state subs Hr) as [Hlc [_ [_ [_ [Hros2 _]]]]].
  set (s2 := groundRemoval subs (projectPointCloud s1)) in *. clearbody s2.
  destruct (segment_pass_total (rangeMat s2) Hfit (labelMat s2)
              (lc := labelCount s2)) as [lm [lc [Hseg _]]];
    [rewrite Hlc; lia|].
  destruct (cloudSegmentation_state subs s2 Hseg)
    as [s3 [Hcs [Hs3 [_ [_ [_ [_ [_ Hros3]]]]]]]].
  rewrite Hcs. eexists. split; [reflexivity|]. simpl.
  split; [now rewrite Hros3, Hros2, Hros1|].
  intros HN. rewrite Hs3. simpl.
  destruct (emit_pass_spec (set_labels s2 lm lc) Hfit) as [_ [_ Hi]].
  destruct (Hi 0%nat HN) as [Hst _]. exact Hst.
Qed.


(** C8 (amended).  When the ring channel is used and the message is not
    marked dense, [copyPointCloud] logs the error and asks for the
    shutdown of the node, and the handler goes on: a scan with at least
    one finite point passes through every stage, and [publishCloud] makes
    all its [publish] calls for it. *)
Theorem not_dense_scan_is_processed
    (s0 : State) (msg : PointCloud2) (s1 : State) :
  fits16 g -> useCloudRing = true -> msg_is_dense msg = false ->
  findStartEndAngle (copyPointCloud msg (resetParameters s0)) = Some s1 ->
  exists s4,
    handle_scan subs msg (resetParameters s0) = Some s4
    /\ ros s4 = ros s0 ++ [ROS_ERROR; ros_shutdown] ++ published subs.
Proof.
  intros Hfit Hring Hdense Hstart.
  destruct (handle_scan_result s0 msg Hfit Hstart) as [s4 [Hh [Hros _]]].
  exists s4. split; [exact Hh|]. rewrite Hros. simpl.
  rewrite Hring, Hdense. simpl. now rewrite <- app_assoc.
Qed.

(** C9 (amended).  When the handler has dealt with a scan, the state it
    keeps for the next one has the three grids, both full clouds, the
    input cloud and the ground, segmented, pure-object and outlier clouds
    at their defaults and labelCount at 1, whereas the arrays of the scan
    metadata record (start and end ring index, ground flag, column index
    and range) are those that [publishCloud] has just published. *)
Theorem reset_keeps_scan_metadata
    (s0 : State) (msg : PointCloud2) (s1 : State) :
  fits16 g ->
  findStartEndAngle (copyPointCloud msg (resetParameters s0)) = Some s1 ->
  exists s4 s5,
    handle_scan subs msg (resetParameters s0) = Some s4
    /\ cloudHandler subs msg (resetParameters s0) = Some s5
    /\ reset_state s5 /\ laserCloudIn s5 = []
    /\ startRingIndex s5 = startRingIndex s4
    /\ endRingIndex s5 = endRingIndex s4
    /\ segmentedCloudGroundFlag s5 = segmentedCloudGroundFlag s4
    /\ segmentedCloudColInd s5 = segmentedCloudColInd s4
    /\ segmentedCloudRange s5 = segmentedCloudRange s4.
Proof.
  intros Hfit Hstart.
  destruct (handle_scan_result s0 msg Hfit Hstart) as [s4 [Hh _]].
  exists s4, (resetParameters s4). split; [exact Hh|].
  unfold cloudHandler. rewrite Hh. split; [reflexivity|].
  split; [apply reset_state_reset|]. repeat split.
Qed.

End Handler.

Lemma fits16_VLP16 : fits16 VLP16.
Proof. unfold fits16. simpl. lia. Qed.

Lemma sample_start_eq :
  findStartEndAngle
    (copyPointCloud (H := VLP16) sample_msg (resetParameters allocateMemory))
  = Some sample_start.
Proof. reflexivity. Qed.

(** The cells that the returns of the second sample message are projected
    to, in the order of the message. *)
Lemma scene_cells :
  map (target_cell (H := VLP16) (laserCloudInRing scene_start))
    (combine (seq 0 (length (laserCloudIn scene_start)))
       (laserCloudIn scene_start))
  = map Some
      [(0, 1350); (1, 1350); (2, 1350); (8, 1350); (9, 1350); (10, 1350);
       (11, 1350); (12, 1350); (13, 1350); (10, 450)]%nat.
Proof. vm_compute. reflexivity. Qed.

(** C8, counterexample.  The sample message uses the ring channel and is
    not marked dense, yet the handler reaches [publishCloud] with it and
    publishes the segmented cloud. *)
Lemma not_dense_scan_is_published :
  ~ (forall s4,
        handle_scan (H := VLP16) (H0 := SampleOps) no_subscribers
          sample_msg initial = Some s4 ->
        forall t, ~ In (publish t) (ros s4)).
Proof.
  intros Hclaim.
  destruct (handle_scan_result (g := VLP16) no_subscribers allocateMemory
              sample_msg fits16_VLP16 sample_start_eq) as [s4 [Hh [Hros _]]].
  apply (Hclaim s4 Hh segmented_cloud). rewrite Hros.
  apply in_app_iff. right. simpl. auto.
Qed.

(** C9, counterexample.  After the handler has dealt with the sample
    message, the state kept for the next scan does not hold the default 0
    in the start ring index of beam 0. *)
Lemma metadata_not_reset :
  ~ (forall s5,
        cloudHandler (H := VLP16) (H0 := SampleOps) no_subscribers
          sample_msg initial = Some s5 ->
        reset_state s5
        /\ (forall r, startRingIndex s5 r = 0%Z /\ endRingIndex s5 r = 0%Z)
        /\ (forall k, segmentedCloudGroundFlag s5 k = false
                      /\ segmentedCloudColInd s5 k = 0%nat
                      /\ segmentedCloudRange s5 k = fzero)).
Proof.
  intros Hclaim.
  destruct (handle_scan_result (g := VLP16) no_subscribers allocateMemory
              sample_msg fits16_VLP16 sample_start_eq) as [s4 [Hh [_ H4]]].
  destruct (Hclaim (resetParameters s4)) as [_ [Hi _]].
  - unfold cloudHandler, initial. now rewrite Hh.
  - destruct (Hi 0%nat) as [H0 _]. simpl in H0.
    rewrite H4 in H0 by (simpl; lia). discriminate.
Qed.

(** ** Rounding to a binary format *)

Lemma pow2_pos (e : Z) : 0 < pow2 e.
Proof. apply Qpower_0_lt. reflexivity. Qed.

Lemma pow2_plus (a b : Z) : pow2 (a + b) == pow2 a * pow2 b.
Proof. apply Qpower_plus. discriminate. Qed.

Lemma pow2_le (a b : Z) : (a <= b)%Z -> pow2 a <= pow2 b.
Proof. intros H. apply Qpower_le_compat_l; [exact H|discriminate]. Qed.

Lemma pow2_lt_inv (a b : Z) : pow2 a < pow2 b -> (a < b)%Z.
Proof. intros H. apply (Qpower_lt_compat_l_inv 2); [exact H|reflexivity]. Qed.

Lemma pow2_Z (k : Z) : (0 <= k)%Z -> pow2 k == inject_Z (2 ^ k).
Proof. intros Hk. unfold pow2. now rewrite Zpower_Qpower. Qed.

Lemma pow2_opp (a : Z) : pow2 (- a) == / pow2 a.
Proof. apply Qpower_opp. Qed.

Lemma pow2_half (a : Z) : pow2 (a - 1) == pow2 a * (1 # 2).
Proof. unfold Z.sub. rewrite pow2_plus. reflexivity. Qed.

Lemma ilog2_spec (q : Q) :
  0 < q -> pow2 (ilog2 q) <= q /\ q < pow2 (ilog2 q + 1).
Proof.
  intros Hq. destruct q as [n d]. unfold ilog2. cbn [Qnum Qden].
  assert (Hn : (0 < n)%Z).
  { unfold Qlt in Hq. simpl in Hq. lia. }
  set (a := Z.log2 n). set (b := Z.log2 (Zpos d)).
  destruct (Z.log2_spec n Hn) as [Ha1 Ha2]. fold a in Ha1, Ha2.
  destruct (Z.log2_spec (Zpos d) (Pos2Z.is_pos d)) as [Hb1 Hb2].
  fold b in Hb1, Hb2.
  assert (Ha0 : (0 <= a)%Z) by apply Z.log2_nonneg.
  assert (Hb0 : (0 <= b)%Z) by apply Z.log2_nonneg.
  assert (Hpa : (0 < 2 ^ a)%Z) by (apply Z.pow_pos_nonneg; lia).
  assert (Hpb : (0 < 2 ^ b)%Z) by (apply Z.pow_pos_nonneg; lia).
  assert (Hsa : (2 ^ (a + 1) = 2 * 2 ^ a)%Z).
  { rewrite Z.add_1_r. apply Z.pow_succ_r. exact Ha0. }
  assert (Hsb : (2 ^ (b + 1) = 2 * 2 ^ b)%Z).
  { rewrite Z.add_1_r. apply Z.pow_succ_r. exact Hb0. }
  rewrite <- Z.add_1_r in Ha2, Hb2. rewrite Hsa in Ha2. rewrite Hsb in Hb2.
  assert (Hlo : pow2 (a - b - 1) <= n # d).
  { replace (a - b - 1)%Z with (a + - (b + 1))%Z by lia.
    rewrite pow2_plus, pow2_opp, (pow2_Z Ha0), (pow2_Z (k := b + 1)) by lia.
    apply Qle_shift_div_r.
    - change 0 with (inject_Z 0). rewrite <- Zlt_Qlt. lia.
    - unfold Qle, Qmult, inject_Z. cbn [Qnum Qden].
      rewrite Pos.mul_1_r, !Z.mul_1_r, Hsb. nia. }
  assert (Hhi : (n # d) < pow2 (a - b + 1)).
  { replace (a - b + 1)%Z with ((a + 1) + - b)%Z by lia.
    rewrite pow2_plus, pow2_opp, (pow2_Z (k := a + 1)), (pow2_Z Hb0) by lia.
    apply Qlt_shift_div_l.
    - change 0 with (inject_Z 0). rewrite <- Zlt_Qlt. lia.
    - unfold Qlt, Qmult, inject_Z. cbn [Qnum Qden].
      rewrite Pos.mul_1_r, !Z.mul_1_r, Hsa. nia. }
  destruct (Qle_bool (pow2 (a - b)) (n # d)) eqn:E.
  - apply Qle_bool_iff in E. split; [exact E|exact Hhi].
  - split; [exact Hlo|].
    replace (a - b - 1 + 1)%Z with (a - b)%Z by lia.
    apply Qnot_le_lt. intros H. apply Qle_bool_iff in H. congruence.
Qed.

Lemma ilog2_le (q : Q) (k : Z) : 0 < q -> q < pow2 (k + 1) -> (ilog2 q <= k)%Z.
Proof.
  intros Hq Hk. destruct (ilog2_spec Hq) as [Hlo _].
  assert (H : pow2 (ilog2 q) < pow2 (k + 1)) by (eapply Qle_lt_trans; eauto).
  apply pow2_lt_inv in H. lia.
Qed.

Lemma rne_floor (q : Q) : rne q = Qfloor q \/ rne q = (Qfloor q + 1)%Z.
Proof.
  unfold rne. destruct (_ ?= _)%Q; auto. destruct (Z.even _); auto.
Qed.

Lemma rne_error (q : Q) :
  - (1 # 2) <= inject_Z (rne q) - q <= 1 # 2.
Proof.
  unfold rne. generalize (Qfloor_le q) (Qlt_floor q).
  set (f := Qfloor q). intros H1 H2.
  rewrite inject_Z_plus in H2. change (inject_Z 1) with 1 in H2.
  destruct (q - inject_Z f ?= 1 # 2)%Q eqn:E.
  - apply Qeq_alt in E.
    destruct (Z.even f); rewrite ?inject_Z_plus;
      change (inject_Z 1) with 1; split; lra.
  - apply Qlt_alt in E. split; lra.
  - apply Qgt_alt in E. rewrite inject_Z_plus.
    change (inject_Z 1) with 1. split; lra.
Qed.

Lemma rne_ge (q : Q) (m : Z) : inject_Z m <= q -> (m <= rne q)%Z.
Proof.
  intros H. apply Qfloor_resp_le in H. rewrite Qfloor_Z in H.
  destruct (rne_floor q) as [-> | ->]; lia.
Qed.

Lemma rne_le (q : Q) (m : Z) : q <= inject_Z m -> (rne q <= m)%Z.
Proof.
  intros H. destruct (Qlt_le_dec q (inject_Z m)) as [Hlt|Hge].
  - assert (Hf : (Qfloor q < m)%Z).
    { rewrite Zlt_Qlt. eapply Qle_lt_trans; [apply Qfloor_le|exact Hlt]. }
    destruct (rne_floor q) as [-> | ->]; lia.
  - assert (Heq : q == inject_Z m) by (apply Qle_antisym; assumption).
    assert (Hf : Qfloor q = m).
    { rewrite (Qfloor_comp _ _ Heq). apply Qfloor_Z. }
    unfold rne. rewrite Hf.
    assert (E : (q - inject_Z m ?= 1 # 2) = Lt).
    { apply (proj1 (Qlt_alt _ _)). lra. }
    rewrite E. lia.
Qed.

Lemma round_to_eq (p : Z) (q : Q) :
  ~ q == 0 ->
  round_to p q
  == inject_Z (rne (q / pow2 (ilog2 (Qabs q) - p + 1)))
     * pow2 (ilog2 (Qabs q) - p + 1).
Proof.
  intros Hq. unfold round_to.
  destruct (Qeq_bool q 0) eqn:E; [apply Qeq_bool_iff in E; contradiction|].
  apply Qred_correct.
Qed.

Lemma round_to_0 (p : Z) (q : Q) : q == 0 -> round_to p q == 0.
Proof.
  intros Hq. unfold round_to.
  destruct (Qeq_bool q 0) eqn:E; [reflexivity|].
  apply Qeq_bool_neq in E. contradiction.
Qed.

Lemma Qabs_pos_lt (q : Q) : ~ q == 0 -> 0 < Qabs q.
Proof.
  intros Hq. destruct (Qlt_le_dec 0 (Qabs q)) as [H|H]; [exact H|].
  exfalso. apply Hq. apply Qabs_Qle_condition in H.
  destruct H as [H1 H2]. lra.
Qed.

(** The rounding error on numbers below 2^(k+1). *)
Lemma round_to_error (p k : Z) (q : Q) :
  Qabs q < pow2 (k + 1) ->
  - pow2 (k - p) <= round_to p q - q <= pow2 (k - p).
Proof.
  intros Hk. generalize (pow2_pos (k - p)). intros Hpos.
  destruct (Qeq_dec q 0) as [Hq|Hq].
  - rewrite (round_to_0 p Hq), Hq. split; lra.
  - rewrite (round_to_eq p Hq).
    set (e := ilog2 (Qabs q)).
    assert (He : (e <= k)%Z) by (apply ilog2_le; [now apply Qabs_pos_lt|exact Hk]).
    set (u := pow2 (e - p + 1)).
    assert (Hu : 0 < u) by apply pow2_pos.
    assert (Hu2 : u * (1 # 2) <= pow2 (k - p)).
    { unfold u. replace (e - p + 1)%Z with ((e - p + 1) + 1 - 1)%Z by lia.
      rewrite <- pow2_half. apply pow2_le. lia. }
    generalize (rne_error (q / u)). intros [H1 H2].
    assert (Hq' : q == (q / u) * u) by (field; lra).
    set (x := q / u) in *. set (r := inject_Z (rne x)) in *.
    split; nra.
Qed.

(** An integer below the argument stays below its rounding, when the
    unit of the last place is at most 1. *)
Lemma round_to_ge_int (p : Z) (q : Q) (m : Z) :
  Qabs q < pow2 p -> inject_Z m <= q -> inject_Z m <= round_to p q.
Proof.
  intros Hp Hm. destruct (Qeq_dec q 0) as [Hq|Hq].
  - rewrite (round_to_0 p Hq). now rewrite <- Hq.
  - rewrite (round_to_eq p Hq).
    set (e := ilog2 (Qabs q)).
    assert (He : (e <= p - 1)%Z).
    { apply ilog2_le; [now apply Qabs_pos_lt|].
      now replace (p - 1 + 1)%Z with p by lia. }
    set (j := (- (e - p + 1))%Z). assert (Hj : (0 <= j)%Z) by lia.
    replace (e - p + 1)%Z with (- j)%Z by lia.
    assert (Hu : pow2 (- j) == / inject_Z (2 ^ j)).
    { now rewrite pow2_opp, pow2_Z. }
    assert (H2 : (0 < 2 ^ j)%Z) by (apply Z.pow_pos_nonneg; lia).
    assert (H2q : 0 < inject_Z (2 ^ j)).
    { change 0 with (inject_Z 0). now rewrite <- Zlt_Qlt. }
    assert (Hx : q / pow2 (- j) == q * inject_Z (2 ^ j)).
    { rewrite Hu. field. lra. }
    assert (Hr : (m * 2 ^ j <= rne (q / pow2 (- j)))%Z).
    { apply rne_ge. rewrite Hx, inject_Z_mult. nra. }
    rewrite Zle_Qle, inject_Z_mult in Hr.
    set (r := inject_Z (rne (q / pow2 (- j)))) in *.
    rewrite Hu. apply Qle_shift_div_l; [exact H2q|exact Hr].
Qed.

Lemma round_to_le_int (p : Z) (q : Q) (m : Z) :
  Qabs q < pow2 p -> q <= inject_Z m -> round_to p q <= inject_Z m.
Proof.
  intros Hp Hm. destruct (Qeq_dec q 0) as [Hq|Hq].
  - rewrite (round_to_0 p Hq). now rewrite <- Hq.
  - rewrite (round_to_eq p Hq).
    set (e := ilog2 (Qabs q)).
    assert (He : (e <= p - 1)%Z).
    { apply ilog2_le; [now apply Qabs_pos_lt|].
      now replace (p - 1 + 1)%Z with p by lia. }
    set (j := (- (e - p + 1))%Z). assert (Hj : (0 <= j)%Z) by lia.
    replace (e - p + 1)%Z with (- j)%Z by lia.
    assert (Hu : pow2 (- j) == / inject_Z (2 ^ j)).
    { now rewrite pow2_opp, pow2_Z. }
    assert (H2 : (0 < 2 ^ j)%Z) by (apply Z.pow_pos_nonneg; lia).
    assert (H2q : 0 < inject_Z (2 ^ j)).
    { change 0 with (inject_Z 0). now rewrite <- Zlt_Qlt. }
    assert (Hx : q / pow2 (- j) == q * inject_Z (2 ^ j)).
    { rewrite Hu. field. lra. }
    assert (Hr : (rne (q / pow2 (- j)) <= m * 2 ^ j)%Z).
    { apply rne_le. rewrite Hx, inject_Z_mult. nra. }
    rewrite Zle_Qle, inject_Z_mult in Hr.
    set (r := inject_Z (rne (q / pow2 (- j)))) in *.
    rewrite Hu. apply Qle_shift_div_r; [exact H2q|exact Hr].
Qed.

Lemma round_to_int (p : Z) (m : Z) :
  Qabs (inject_Z m) < pow2 p -> round_to p (inject_Z m) == inject_Z m.
Proof.
  intros H. apply Qle_antisym.
  - apply round_to_le_int; [exact H|apply Qle_refl].
  - apply round_to_ge_int; [exact H|apply Qle_refl].
Qed.

Lemma rnd32_16 (q : Q) :
  -(16) < q < 16 -> - (1 # 2097152) <= rnd32 q - q <= 1 # 2097152.
Proof.
  intros H. apply (@round_to_error 24 3 q).
  apply Qabs_Qlt_condition. exact H.
Qed.

Lemma rnd64_16 (q : Q) :
  -(16) < q < 16
  -> - (1 # 1125899906842624) <= rnd64 q - q <= 1 # 1125899906842624.
Proof.
  intros H. apply (@round_to_error 53 3 q).
  apply Qabs_Qlt_condition. exact H.
Qed.

Lemma Qgtb_spec (a b : Q) : reflect (b < a) (Qgtb a b).
Proof.
  unfold Qgtb. destruct (Qle_bool a b) eqn:E; constructor.
  - apply Qle_bool_iff in E. lra.
  - apply Qnot_le_lt. intros H. apply Qle_bool_iff in H. congruence.
Qed.

Lemma Qltb_spec (a b : Q) : reflect (a < b) (Qltb a b).
Proof. unfold Qltb. apply (Qgtb_spec b a). Qed.

Lemma two_M_PI : rnd64 (2 * M_PI) == 2 * M_PI.
Proof. vm_compute. reflexivity. Qed.

Lemma three_M_PI : rnd64 (3 * M_PI) == 3 * M_PI.
Proof. vm_compute. reflexivity. Qed.

(** The orientation difference for azimuths within the range of atan2. *)
Lemma bracket32_range (a0 al : Q) :
  - PI_f <= a0 <= PI_f -> - PI_f <= al <= PI_f ->
  (3141591 # 1000000) <= snd (bracket32 a0 al) <= (94247795 # 10000000).
Proof.
  intros H0 Hl. unfold bracket32. cbv zeta. cbn [snd].
  generalize two_M_PI three_M_PI.
  set (M2 := rnd64 (2 * M_PI)). set (M3 := rnd64 (3 * M_PI)).
  intros HM2 HM3.
  unfold PI_f in H0, Hl. unfold M_PI in HM2, HM3.
  set (x0 := - al + M2).
  assert (Hx0 : -(16) < x0 < 16) by (unfold x0; split; lra).
  generalize (rnd64_16 Hx0). set (y0 := rnd64 x0). intros Hy0.
  assert (Hy0' : -(16) < y0 < 16) by (unfold x0 in *; split; lra).
  generalize (rnd32_16 Hy0'). set (e0 := rnd32 y0). intros He0.
  assert (Hd0' : -(16) < e0 - - a0 < 16) by (unfold x0 in *; split; lra).
  generalize (rnd32_16 Hd0'). set (d0 := rnd32 (e0 - - a0)). intros Hd0.
  destruct (Qgtb_spec d0 M3) as [H3|H3].
  - assert (Hz : -(16) < e0 - M2 < 16) by (unfold x0 in *; split; lra).
    generalize (rnd64_16 Hz). set (z := rnd64 (e0 - M2)). intros Hz1.
    assert (Hz' : -(16) < z < 16) by (unfold x0 in *; split; lra).
    generalize (rnd32_16 Hz'). set (e1 := rnd32 z). intros He1.
    assert (Hf : -(16) < e1 - - a0 < 16) by (unfold x0 in *; split; lra).
    generalize (rnd32_16 Hf). set (d := rnd32 (e1 - - a0)). intros Hd.
    unfold x0 in *. unfold M_PI. split; lra.
  - destruct (Qltb_spec d0 M_PI) as [H1|H1].
    + assert (Hz : -(16) < e0 + M2 < 16) by (unfold x0 in *; split; lra).
      generalize (rnd64_16 Hz). set (z := rnd64 (e0 + M2)). intros Hz1.
      assert (Hz' : -(16) < z < 16) by (unfold x0 in *; split; lra).
      generalize (rnd32_16 Hz'). set (e1 := rnd32 z). intros He1.
      assert (Hf : -(16) < e1 - - a0 < 16)
        by (unfold x0, M_PI in *; split; lra).
      generalize (rnd32_16 Hf). set (d := rnd32 (e1 - - a0)). intros Hd.
      unfold x0, M_PI in *. split; lra.
    + fold d0. unfold M_PI in *. split; lra.
Qed.


(** ** The azimuth bracket *)

Lemma PI_bounds : (3.1415926535 < PI < 3.1415926536)%R.
Proof.
  generalize (PI_2_3_7_ineq 5).
  unfold sum_f_R0, tg_alt, PI_2_3_7_tg, Ratan_seq. simpl.
  intros [H1 H2]. split; lra.
Qed.

Lemma Q2R_frac (a : Z) (b : positive) : Q2R (a # b) = (IZR a / IZR (Zpos b))%R.
Proof. reflexivity. Qed.

(** C3 (amended).  For every cloud with a first point, whatever [atan2]
    returns for the first and for the last point within its range on
    [float] arguments, the orientation difference that
    [findStartEndAngle] stores lies within 2 * 10^-6 of the interval from
    pi to 3 pi. *)
Theorem orientationDiff_range (atan2f : Q -> Q -> Q)
    (cloud : list (Q * Q * Q)) :
  (forall y x, - PI_f <= atan2f y x <= PI_f) ->
  cloud <> [] ->
  exists s e d,
    findStartEndAngle32 atan2f cloud = Some (s, e, d)
    /\ (PI - 2 / 1000000 <= Q2R d <= 3 * PI + 2 / 1000000)%R.
Proof.
  intros Hat Hne. destruct cloud as [|[[x0 y0] z0] l]; [now elim Hne|].
  unfold findStartEndAngle32.
  destruct (last ((x0, y0, z0) :: l) (x0, y0, 0)) as [[xl yl] zl].
  destruct (bracket32 (atan2f y0 x0) (atan2f yl xl)) as [[s e] d] eqn:E.
  exists s, e, d. split; [reflexivity|].
  generalize (bracket32_range (Hat y0 x0) (Hat yl xl)). rewrite E.
  cbn [snd]. intros [H1 H2]. apply Qle_Rle in H1, H2.
  rewrite Q2R_frac in H1, H2. destruct PI_bounds as [P1 P2].
  split; Lra.lra.
Qed.

(** C3, counterexample.  First point on the positive x axis, last point on
    the negative x axis, where [atan2] returns 0 and the [float] nearest to
    pi: the second correction applies and the stored difference is
    2470649 / 262144 = 9.42477798..., above 3 pi.  First point on the
    positive y axis, last point on the negative y axis: the first
    correction applies and the stored difference is
    6588397 / 2097152 = 3.14159250..., below pi. *)
Lemma half_turn_diff_outside_interval :
  (exists s1,
     findStartEndAngle (copyPointCloud (H := VLP16) half_turn_msg initial)
     = Some s1
     /\ orientation s1
        = (Some 0, Some (2470649 # 262144), Some (2470649 # 262144)))
  /\ findStartEndAngle32 axis_atan2 half_turn_cloud
     = Some (0, 2470649 # 262144, 2470649 # 262144)
  /\ ~ (PI < Q2R (2470649 # 262144) <= 3 * PI)%R
  /\ (exists s1,
        findStartEndAngle (copyPointCloud (H := VLP16) behind_msg initial)
        = Some s1
        /\ orientation s1
           = (Some (-13176795 # 8388608), Some (13176793 # 8388608),
              Some (6588397 # 2097152)))
  /\ ~ (PI < Q2R (6588397 # 2097152) <= 3 * PI)%R.
Proof.
  split; [eexists; split; [reflexivity|vm_compute; reflexivity]|].
  split; [vm_compute; reflexivity|].
  destruct PI_bounds as [P1 P2].
  split; [rewrite Q2R_frac; intros [H1 H2]; Lra.lra|].
  split; [eexists; split; [reflexivity|vm_compute; reflexivity]|].
  rewrite Q2R_frac. intros [H1 H2]. Lra.lra.
Qed.

(** ** The encoded cell key *)

Lemma pow2_24 : pow2 24 == 16777216. Proof. reflexivity. Qed.
Lemma rnd32_nat (n : nat) :
  (Z.of_nat n < 16777216)%Z ->
  rnd32 (inject_Z (Z.of_nat n)) == inject_Z (Z.of_nat n).
Proof.
  intros H. apply round_to_int. rewrite pow2_24.
  apply Qabs_Qlt_condition.
  split; [apply Qlt_le_trans with 0; [reflexivity|]|].
  - change 0 with (inject_Z 0). rewrite <- Zle_Qle. lia.
  - change 16777216 with (inject_Z 16777216). rewrite <- Zlt_Qlt. exact H.
Qed.

(** The stored key is within 2^-15 of r + c/10000 and not below r, for
    rows below 1024 and columns below 10000. *)
Lemma cell_key_near (r c : nat) :
  (Z.of_nat r < 1024)%Z -> (Z.of_nat c < 10000)%Z ->
  inject_Z (Z.of_nat r) <= cell_key r c
  /\ - (31 # 1000000)
     <= cell_key r c - (inject_Z (Z.of_nat r) + inject_Z (Z.of_nat c) / 10000)
     <= 31 # 1000000.
Proof.
  intros Hr Hc. unfold cell_key.
  generalize (@rnd32_nat r ltac:(lia)) (@rnd32_nat c ltac:(lia)).
  set (R := rnd32 (inject_Z (Z.of_nat r))).
  set (C := rnd32 (inject_Z (Z.of_nat c))).
  assert (Hr0 : 0 <= inject_Z (Z.of_nat r) <= 1023).
  { split.
    - change 0 with (inject_Z 0). rewrite <- Zle_Qle. lia.
    - change 1023 with (inject_Z 1023). rewrite <- Zle_Qle. lia. }
  assert (Hc0 : 0 <= inject_Z (Z.of_nat c) <= 9999).
  { split.
    - change 0 with (inject_Z 0). rewrite <- Zle_Qle. lia.
    - change 9999 with (inject_Z 9999). rewrite <- Zle_Qle. lia. }
  set (rq := inject_Z (Z.of_nat r)) in *.
  set (cq := inject_Z (Z.of_nat c)) in *.
  intros HR HC.
  set (t := C / 10000).
  assert (Ht : t * 10000 == C) by (unfold t; field).
  assert (Hq : Qabs t < pow2 (-1 + 1)).
  { apply Qabs_Qlt_condition. change (pow2 (-1 + 1)) with 1. split; lra. }
  generalize (@round_to_error 53 (-1) _ Hq).
  assert (Hq0 : inject_Z 0 <= rnd64 t).
  { apply round_to_ge_int.
    - eapply Qlt_le_trans; [exact Hq|]. apply pow2_le. lia.
    - change (inject_Z 0) with 0. lra. }
  change (inject_Z 0) with 0 in Hq0.
  change (pow2 (-1 - 53)) with (1 # 18014398509481984).
  fold rnd64. set (x2 := rnd64 t) in *. intros Hx2.
  set (u := cq / 10000).
  assert (Hu : u * 10000 == cq) by (unfold u; field).
  assert (Hsabs : Qabs (R + x2) < pow2 (9 + 1)).
  { apply Qabs_Qlt_condition. change (pow2 (9 + 1)) with 1024. split; lra. }
  generalize (@round_to_error 53 9 _ Hsabs).
  assert (Hs3 : rq <= rnd64 (R + x2)).
  { apply round_to_ge_int.
    - eapply Qlt_le_trans; [exact Hsabs|]. apply pow2_le. lia.
    - fold rq. lra. }
  change (pow2 (9 - 53)) with (1 # 17592186044416).
  fold rnd64. set (x3 := rnd64 (R + x2)) in *. intros Hx3.
  assert (Habs3 : Qabs x3 < pow2 (9 + 1)).
  { apply Qabs_Qlt_condition. change (pow2 (9 + 1)) with 1024. split; lra. }
  generalize (@round_to_error 24 9 _ Habs3).
  assert (Hs4 : rq <= rnd32 x3).
  { apply round_to_ge_int.
    - eapply Qlt_le_trans; [exact Habs3|]. apply pow2_le. lia.
    - exact Hs3. }
  change (pow2 (9 - 24)) with (1 # 32768).
  fold rnd32. set (x4 := rnd32 x3) in *. intros Hx4.
  split; [exact Hs4|]. split; lra.
Qed.

Lemma Qfloor_unique (x : Q) (z : Z) :
  (inject_Z z <= x)%Q -> (x < inject_Z (z + 1))%Q -> Qfloor x = z.
Proof.
  intros Hlo Hhi.
  assert (H1 : (z <= Qfloor x)%Z).
  { rewrite <- (Qfloor_Z z). now apply Qfloor_resp_le. }
  assert (H2 : (Qfloor x < z + 1)%Z).
  { rewrite Zlt_Qlt. eapply Qle_lt_trans; [apply Qfloor_le|exact Hhi]. }
  lia.
Qed.

Lemma decode_cell_key (r c : nat) :
  (Z.of_nat r < 1024)%Z -> (Z.of_nat c < 10000)%Z ->
  decode_key (cell_key r c) = (Z.of_nat r, Z.of_nat c).
Proof.
  intros Hr Hc. destruct (@cell_key_near r c Hr Hc) as [Hlo [H1 H2]].
  unfold decode_key.
  assert (Hc0 : 0 <= inject_Z (Z.of_nat c) <= 9999).
  { split.
    - change 0 with (inject_Z 0). rewrite <- Zle_Qle. lia.
    - change 9999 with (inject_Z 9999). rewrite <- Zle_Qle. lia. }
  set (k := cell_key r c) in *.
  set (rq := inject_Z (Z.of_nat r)) in *.
  set (cq := inject_Z (Z.of_nat c)) in *.
  set (u := cq / 10000) in *.
  assert (Hu : u * 10000 == cq) by (unfold u; field).
  assert (Hfl : Qfloor k = Z.of_nat r).
  { apply Qfloor_unique; [exact Hlo|].
    rewrite inject_Z_plus. fold rq. change (inject_Z 1) with 1. lra. }
  rewrite Hfl. fold rq. f_equal. unfold Qround_half_up.
  apply Qfloor_unique.
  - fold cq. lra.
  - rewrite inject_Z_plus. fold cq. change (inject_Z 1) with 1. lra.
Qed.

Section Projection.

Context {g : Geometry} {ops : FloatOps}.

(** Every entry of fullCloud is the empty marker or carries the key of
    the cell it is stored at. *)
Lemma projectPointCloud_keys (s : State) :
  fullCloud s = (fun _ => nanPoint) ->
  forall k,
    Qeq_bool (intensity (fullCloud (projectPointCloud s) k)) (-1) = true
    \/ exists r c,
         in_image (r, c) /\ k = (c + r * Horizon_SCAN)%nat
         /\ intensity (fullCloud (projectPointCloud s) k) = cell_key r c.
Proof.
  intros Hnan. unfold projectPointCloud.
  generalize (combine (seq 0 (length (laserCloudIn s))) (laserCloudIn s)).
  intros l.
  assert (H0 : forall k,
             Qeq_bool (intensity (fullCloud s k)) (-1) = true
             \/ exists r c,
                  in_image (r, c) /\ k = (c + r * Horizon_SCAN)%nat
                  /\ intensity (fullCloud s k) = cell_key r c).
  { intros k. left. now rewrite Hnan. }
  clear Hnan. revert s H0.
  induction l as [|[i [[x y] z]] l IH]; intros s H0; [exact H0|].
  simpl fold_left. apply IH. intros k. unfold project_point.
  destruct (Nat.leb_spec N_SCAN
              (if useCloudRing
               then ring (nth i (laserCloudInRing s)
                            {| xyz_r := (x, y, z); ring := 0 |})
               else rowOf x y z)) as [Hrow|Hrow]; [apply H0|].
  match goal with
  | |- context [if (Horizon_SCAN <=? ?c)%nat then s else _] =>
      destruct (Nat.leb_spec Horizon_SCAN c) as [Hcol|Hcol]; [apply H0|]
  end.
  destruct (belowMinimumRange (rangeOf x y z)); [apply H0|].
  simpl. unfold arr_set.
  match goal with
  | |- context [(k =? ?idx)%nat] =>
      destruct (Nat.eqb_spec k idx) as [Hk|Hk]; [|apply H0]
  end.
  right. eexists. eexists. split; [split; simpl; eassumption|].
  split; [exact Hk|reflexivity].
Qed.

(** C6 (amended).  Every entry of fullCloud that is not the empty marker
    is stored at the index of a cell (r, c) of the image and has as
    intensity the key of that cell, the [float] that the source computes
    for r + c/10000.0: it is within 31 * 10^-6 of r + c/10000, and
    decoding r' = floor(intensity), c' = round((intensity - r') * 10000)
    gives back (r, c).  The image has at most 1024 rows and at most 10000
    columns. *)
Theorem cell_key_round_trip
    (s0 : State) (msg : PointCloud2) (s1 : State) (k : nat) :
  (Z.of_nat N_SCAN <= 1024)%Z ->
  (Z.of_nat Horizon_SCAN <= 10000)%Z ->
  findStartEndAngle (copyPointCloud msg (resetParameters s0)) = Some s1 ->
  Qeq_bool (intensity (fullCloud (projectPointCloud s1) k)) (-1) = false ->
  exists r c,
    in_image (r, c) /\ k = (c + r * Horizon_SCAN)%nat
    /\ intensity (fullCloud (projectPointCloud s1) k) = cell_key r c
    /\ - (31 # 1000000)
       <= cell_key r c
          - (inject_Z (Z.of_nat r) + inject_Z (Z.of_nat c) / 10000)
       <= 31 # 1000000
    /\ decode_key (intensity (fullCloud (projectPointCloud s1) k))
       = (Z.of_nat r, Z.of_nat c).
Proof.
  intros Hrows Hcols Hstart Hpt.
  assert (Hr : reset_state s1).
  { eapply reset_state_angle; [exact Hstart|].
    apply reset_state_copy, reset_state_reset. }
  destruct Hr as [_ [_ [_ [_ [Hfc _]]]]].
  destruct (projectPointCloud_keys s1 Hfc k) as [Hs|[r [c [Hrc [Hk Hi]]]]];
    [congruence|].
  assert (Hr' : (Z.of_nat r < 1024)%Z).
  { destruct Hrc as [Hr' _]. simpl in Hr'. lia. }
  assert (Hc' : (Z.of_nat c < 10000)%Z).
  { destruct Hrc as [_ Hc']. simpl in Hc'. lia. }
  exists r, c. split; [exact Hrc|]. split; [exact Hk|].
  split; [exact Hi|]. split; [exact (proj2 (@cell_key_near r c Hr' Hc'))|].
  rewrite Hi. now apply decode_cell_key.
Qed.

End Projection.

(** C6, counterexample.  The key stored for the return of the sample scan,
    at cell (7, 1350), is 3740795 / 524288 = 7.13500023..., not
    7 + 1350/10000; and in an image with more than 1024 rows, the key of
    cell (1024, 3) is 1024.000244..., which decodes to column 2. *)
Lemma stored_key_is_rounded :
  intensity (fullCloud (@projectPointCloud VLP16 SampleOps sample_start)
               (1350 + 7 * 1800)%nat)
  = 3740795 # 524288
  /\ ~ (3740795 # 524288 == inject_Z 7 + inject_Z 1350 / 10000)
  /\ cell_key 1024 3 = 4194305 # 4096
  /\ decode_key (cell_key 1024 3) = (1024, 2)%Z.
Proof.
  split; [vm_compute; reflexivity|]. split; [discriminate|].
  split; vm_compute; reflexivity.
Qed.

(** C2, at the failing input.  On the VLP-16 geometry, five unlabelled
    cells at equal range on the three beams 8, 9 and 10: called on the
    first of them, [labelComponents] marks all five with the drop marker
    and keeps the label count, although the cluster has at least
    segmentValidPointNum cells, fewer than 30, and cells on
    segmentValidLineNum distinct beams. *)
Theorem three_beam_cluster_rejected :
  exists lm',
    labelComponents (H := VLP16) (H0 := SampleOps) pole_range pole_label 1 8 0
    = Some (lm', 1%Z)
    /\ (forall p, In p pole_cells -> lm' (fst p) (snd p) = SENTINEL_DROP)
    /\ (@segmentValidPointNum VLP16 <= length pole_cells < 30)%nat
    /\ length (nodup Nat.eq_dec (map fst pole_cells))
       = @segmentValidLineNum VLP16.
Proof.
  exists (match labelComponents (H := VLP16) (H0 := SampleOps)
                  pole_range pole_label 1 8 0 with
          | Some (m, _) => m
          | None => pole_label
          end).
  split; [vm_compute; reflexivity|].
  split; [|split; [simpl; lia|reflexivity]].
  intros p Hp. simpl in Hp.
  destruct Hp as [<-|[<-|[<-|[<-|[<-|[]]]]]]; vm_compute; reflexivity.
Qed.

(** * Further properties of the code *)

Section Neighbourhood.

Context {g : Geometry}.

(** X1.  The neighbour of a cell of the image in one of the four directions:
    the row does not wrap (a neighbour above the top row or below the
    bottom row is skipped), the column wraps around the image. *)
Theorem neighbor_wraps_columns_only (r c : nat) (d : Z * Z) :
  In d neighborIterator -> in_image (r, c) ->
  neighbor (r, c) d
  = if ((0 <=? Z.of_nat r + fst d) && (Z.of_nat r + fst d <? Z.of_nat N_SCAN))%Z
    then Some (Z.to_nat (Z.of_nat r + fst d),
               Z.to_nat ((Z.of_nat c + snd d) mod Z.of_nat Horizon_SCAN))
    else None.
Proof.
  intros Hd [Hr Hc]. simpl in Hr, Hc. unfold neighbor. cbn [fst snd].
  assert (Hm1 : ((-1) mod Z.of_nat Horizon_SCAN = Z.of_nat Horizon_SCAN - 1)%Z).
  { symmetry. apply (Z.mod_unique _ _ (-1)); lia. }
  assert (Hsd : (snd d = -1 \/ snd d = 0 \/ snd d = 1)%Z).
  { simpl in Hd. destruct Hd as [<-|[<-|[<-|[<-|[]]]]]; simpl; lia. }
  destruct (Z.ltb_spec (Z.of_nat r + fst d) 0) as [Hlo|Hlo];
    destruct (Z.leb_spec 0 (Z.of_nat r + fst d)) as [Hlo'|Hlo']; try lia;
    simpl; [reflexivity|].
  rewrite Z.geb_leb.
  destruct (Z.leb_spec (Z.of_nat N_SCAN) (Z.of_nat r + fst d)) as [Hhi|Hhi];
    destruct (Z.ltb_spec (Z.of_nat r + fst d) (Z.of_nat N_SCAN)) as [Hhi'|Hhi'];
    try lia; simpl; [reflexivity|].
  do 2 f_equal.
  destruct (Z.ltb_spec (Z.of_nat c + snd d) 0) as [Hneg|Hnn].
  - assert (Hc0 : (Z.of_nat c + snd d = -1)%Z) by lia. rewrite Hc0, Hm1.
    rewrite Z.geb_leb.
    destruct (Z.leb_spec (Z.of_nat Horizon_SCAN) (Z.of_nat Horizon_SCAN - 1));
      [lia|reflexivity].
  - rewrite Z.geb_leb.
    destruct (Z.leb_spec (Z.of_nat Horizon_SCAN) (Z.of_nat c + snd d)) as [Hw|Hw].
    + assert (Hc0 : (Z.of_nat c + snd d = Z.of_nat Horizon_SCAN)%Z) by lia.
      rewrite Hc0, Z.mod_same by lia. reflexivity.
    + rewrite Z.mod_small by lia. reflexivity.
Qed.

End Neighbourhood.

Section Scratch.

Context {g : Geometry} {ops : FloatOps}.

(** X2.  Called on an unlabelled cell of the image, the queue loop of
    [labelComponents] ends with every cell pushed at most once, so that
    allPushedIndSize, and queueEndInd with it, stays within the
    N_SCAN*Horizon_SCAN entries of the scratch arrays. *)
Theorem scratch_arrays_suffice (rm : Mat F) (lm : Mat Z) (lc : Z)
    (row col : nat) :
  fits16 g -> lc <> 0%Z -> in_image (row, col) -> lm row col = 0%Z ->
  exists s,
    bfs bfs_fuel rm lc (bfs_init lm row col) = Some s
    /\ b_queue s = []
    /\ NoDup (b_pushed s)
    /\ (1 <= length (b_pushed s) <= N_SCAN * Horizon_SCAN)%nat.
Proof.
  intros Hfit Hlc Himg H0.
  destruct (bfs_from_seed rm lm (seed := (row, col)) Hfit Hlc Himg H0)
    as [s [Hbfs [HI Hq]]].
  cbn [fst snd] in Hbfs. exists s. split; [exact Hbfs|].
  split; [exact Hq|]. split; [exact (inv_nodup HI)|]. split.
  - destruct (inv_head HI) as [rest ->]. simpl. lia.
  - rewrite <- (length_cells N_SCAN Horizon_SCAN).
    apply NoDup_incl_length; [exact (inv_nodup HI)|].
    intros [i j] Hin. apply in_cells. exact (inv_image HI _ Hin).
Qed.

End Scratch.

Section Ingest.

Context {g : Geometry} {ops : FloatOps}.
Variable subs : Subscribers.



(** X4.  From a reset state, [cloudHandler] has a result exactly when
    [copyPointCloud] leaves at least one point in laserCloudIn: with none,
    points[0] of an empty cloud is read; with one, every stage returns.
    For a message flagged dense that is when the message has a point, for
    the others when it has a point with finite coordinates. *)
Theorem cloudHandler_returns_iff_cloud_not_empty
    (s0 : State) (msg : PointCloud2) :
  fits16 g ->
  let finite := fun p : F * F * F => let '(x, y, z) := p in finite3 x y z in
  let cloud := laserCloudIn (copyPointCloud msg (resetParameters s0)) in
  ((exists s5, cloudHandler subs msg (resetParameters s0) = Some s5)
   <-> cloud <> [])
  /\ (msg_is_dense msg = true -> (cloud <> [] <-> msg_points msg <> []))
  /\ (msg_is_dense msg = false ->
      (cloud <> [] <-> existsb finite (map xyz_r (msg_points msg)) = true)).
Proof.
  intros Hfit finite cloud. split; [|split].
  - split.
    + intros [s5 H5] Hnil.
      unfold cloudHandler, handle_scan, findStartEndAngle in H5.
      fold cloud in H5. rewrite Hnil in H5. discriminate.
    + intros Hne.
      destruct (findStartEndAngle (copyPointCloud msg (resetParameters s0)))
        as [s1|] eqn:Hstart.
      * destruct (handle_scan_result subs s0 msg Hfit Hstart) as [s4 [Hh _]].
        exists (resetParameters s4). unfold cloudHandler. now rewrite Hh.
      * unfold findStartEndAngle in Hstart. fold cloud in Hstart.
        destruct cloud; [now elim Hne|discriminate].
  - intros Hd. unfold cloud, copyPointCloud, removeNaNFromPointCloud.
    cbn [laserCloudIn]. rewrite Hd.
    destruct (msg_points msg) as [|q l]; cbn [map].
    + split; intros H; now elim H.
    + split; intros _ E; discriminate E.
  - intros Hd. unfold cloud, copyPointCloud, removeNaNFromPointCloud.
    cbn [laserCloudIn]. rewrite Hd. fold finite. split.
    + intros Hne.
      destruct (filter finite (map xyz_r (msg_points msg))) as [|p l] eqn:E;
        [now elim Hne|].
      assert (Hp : In p (filter finite (map xyz_r (msg_points msg)))).
      { rewrite E. now left. }
      apply filter_In in Hp as [Hin Hf]. apply existsb_exists. now exists p.
    + intros Hex Hnil. apply existsb_exists in Hex as [p [Hin Hf]].
      assert (Hp : In p (filter finite (map xyz_r (msg_points msg)))).
      { apply filter_In. split; assumption. }
      rewrite Hnil in Hp. destruct Hp.
Qed.

End Ingest.

(** X5.  A full turn: when [atan2] returns the same value for the last
    point as for the first one, neither correction applies, and the
    orientation difference that is stored lies within 10^-6 of 2 pi. *)
Theorem full_turn_difference (a : Q) :
  - PI_f <= a <= PI_f ->
  let e := rnd32 (rnd64 (- a + rnd64 (2 * M_PI))) in
  bracket32 a a = (- a, e, rnd32 (e - - a))
  /\ (2 * PI - 1 / 1000000 <= Q2R (rnd32 (e - - a))
      <= 2 * PI + 1 / 1000000)%R.
Proof.
  intros Ha. cbv zeta. unfold bracket32. cbv zeta.
  generalize two_M_PI three_M_PI.
  set (M2 := rnd64 (2 * M_PI)). set (M3 := rnd64 (3 * M_PI)).
  intros HM2 HM3. unfold PI_f in Ha. unfold M_PI in HM2, HM3.
  set (x0 := - a + M2).
  assert (Hx0 : -(16) < x0 < 16) by (unfold x0; split; lra).
  generalize (rnd64_16 Hx0). set (y0 := rnd64 x0). intros Hy0.
  assert (Hy0' : -(16) < y0 < 16) by (unfold x0 in *; split; lra).
  generalize (rnd32_16 Hy0'). set (e0 := rnd32 y0). intros He0.
  assert (Hd0' : -(16) < e0 - - a < 16) by (unfold x0 in *; split; lra).
  generalize (rnd32_16 Hd0'). set (d0 := rnd32 (e0 - - a)). intros Hd0.
  assert (Hq : (62831843472 # 10000000000) <= d0
               <= (62831862610 # 10000000000)).
  { unfold x0 in *. split; lra. }
  destruct (Qgtb_spec d0 M3) as [H3|H3]; [exfalso; lra|].
  destruct (Qltb_spec d0 M_PI) as [H1|H1]; [exfalso; unfold M_PI in H1; lra|].
  split; [reflexivity|].
  destruct Hq as [Hq1 Hq2]. apply Qle_Rle in Hq1, Hq2.
  rewrite Q2R_frac in Hq1, Hq2. destruct PI_bounds as [P1 P2].
  split; Lra.lra.
Qed.

Section RingIndices.

Context {g : Geometry} {ops : FloatOps}.
Variable subs : Subscribers.

Lemma cells_split (rows cols r : nat) :
  (r < rows)%nat ->
  exists rest,
    cells rows cols = cells r cols ++ map (pair r) (seq 0 cols) ++ rest.
Proof.
  induction rows as [|rows IH]; intros Hr; [lia|].
  destruct (Nat.eq_dec r rows) as [->|Hne].
  - exists []. now rewrite app_nil_r, cells_S.
  - destruct IH as [rest Hrest]; [lia|].
    exists (rest ++ map (pair rows) (seq 0 cols)).
    rewrite cells_S, Hrest, <- !app_assoc. reflexivity.
Qed.

(** X6.  The ring indices delimit the rows of the segmented cloud: the
    points that [cloudSegmentation] appends for beam r are consecutive,
    the first at position startRingIndex[r] - 4 and the last at position
    endRingIndex[r] + 5 of the appended points.  Hence
    endRingIndex[r] - startRingIndex[r] is the number of points of the
    beam minus 10, at least -10, and the next beam starts at
    endRingIndex[r] + 10. *)
Theorem ring_indices_delimit_rows (s : State) :
  fits16 g -> (0 < labelCount s)%Z ->
  exists s3 appended,
    cloudSegmentation subs s = Some s3
    /\ segmentedCloud s3 = segmentedCloud s ++ appended
    /\ (length appended <= N_SCAN * Horizon_SCAN)%nat
    /\ forall r, (r < N_SCAN)%nat ->
         exists before row after,
           appended = before ++ row ++ after
           /\ row = map (cell_point s3)
                      (filter (fun p => spec_segmented (labelMat s3)
                                          (groundMat s3) (fst p) (snd p))
                         (map (pair r) (seq 0 Horizon_SCAN)))
           /\ Z.of_nat (length before) = (startRingIndex s3 r - 4)%Z
           /\ (Z.of_nat (length before + length row) - 1
               = endRingIndex s3 r + 5)%Z
           /\ (endRingIndex s3 r - startRingIndex s3 r
               = Z.of_nat (length row) - 10)%Z
           /\ ((Datatypes.S r < N_SCAN)%nat ->
               startRingIndex s3 (Datatypes.S r) = (endRingIndex s3 r + 10)%Z).
Proof.
  intros Hfit Hlc.
  destruct (segment_pass_total (rangeMat s) Hfit (labelMat s) Hlc)
    as [lm [lc [Hseg _]]].
  destruct (cloudSegmentation_state subs s Hseg) as [s3 [Hcs [Hs3 _]]].
  destruct (emit_pass_spec (set_labels s lm lc) Hfit) as [Hs [_ Hi]].
  set (keep := fun p : nat * nat =>
                 spec_segmented (labelMat s3) (groundMat s3) (fst p) (snd p)).
  exists s3, (map (cell_point s3) (filter keep (cells N_SCAN Horizon_SCAN))).
  split; [exact Hcs|]. split; [subst keep; rewrite Hs3; exact Hs|].
  split.
  { rewrite length_map, <- (length_cells N_SCAN Horizon_SCAN).
    apply filter_length_le. }
  intros r Hr. destruct (cells_split Horizon_SCAN Hr) as [rest Hsplit].
  exists (map (cell_point s3) (filter keep (cells r Horizon_SCAN))),
    (map (cell_point s3) (filter keep (map (pair r) (seq 0 Horizon_SCAN)))),
    (map (cell_point s3) (filter keep rest)).
  split; [now rewrite Hsplit, !filter_app, !map_app|].
  split; [reflexivity|].
  assert (Hst : startRingIndex s3 r
                = (Z.of_nat (length (filter keep (cells r Horizon_SCAN)))
                   - 1 + 5)%Z).
  { subst keep. rewrite Hs3. exact (proj1 (Hi r Hr)). }
  assert (Hen : endRingIndex s3 r
                = (Z.of_nat (length (filter keep
                                       (cells (Datatypes.S r) Horizon_SCAN)))
                   - 1 - 5)%Z).
  { subst keep. rewrite Hs3. exact (proj2 (Hi r Hr)). }
  rewrite cells_S, filter_app, length_app in Hen.
  rewrite !length_map. split; [lia|]. split; [lia|]. split; [lia|].
  intros HS.
  assert (Hst' : startRingIndex s3 (Datatypes.S r)
                 = (Z.of_nat (length (filter keep
                                        (cells (Datatypes.S r) Horizon_SCAN)))
                    - 1 + 5)%Z).
  { subst keep. rewrite Hs3. exact (proj1 (Hi (Datatypes.S r) HS)). }
  rewrite cells_S, filter_app, length_app in Hst'. lia.
Qed.

End RingIndices.

Section GroundClosedForm.

Context {g : Geometry} {ops : FloatOps}.
Variable cloud : Arr PointXYZI.

Lemma ground_cell_cases (j i : nat) (gm : Mat Z) :
  ground_cell cloud j i gm
  = if pair_invalid cloud i j then mat_set gm i j (-1)%Z
    else if pair_ground cloud i j
         then mat_set (mat_set gm i j 1%Z) (i + 1) j 1%Z
         else gm.
Proof.
  unfold ground_cell, pair_ground, pair_invalid, no_return.
  destruct (Qeq_bool _ _ || Qeq_bool _ _); reflexivity.
Qed.

(** One column of the ground pass, after the rows below n. *)
Lemma ground_column (j n : nat) (gm : Mat Z) :
  let gm' := for_range n (ground_cell cloud j) gm in
  (forall r c, c <> j -> gm' r c = gm r c)
  /\ (forall r, (n < r)%nat -> gm' r j = gm r j)
  /\ (forall r, (r < n)%nat ->
        gm' r j
        = if pair_invalid cloud r j then (-1)%Z
          else if pair_ground cloud r j then 1%Z
          else if (1 <=? r)%nat && pair_ground cloud (r - 1) j then 1%Z
          else gm r j)
  /\ gm' n j
     = if (1 <=? n)%nat && pair_ground cloud (n - 1) j then 1%Z else gm n j.
Proof.
  induction n as [|n IH]; cbv zeta.
  - simpl. repeat split; auto. intros r Hr. lia.
  - rewrite for_range_S. cbv zeta in IH.
    destruct IH as [Ha [Hb [Hc Hd]]].
    set (gmn := for_range n (ground_cell cloud j) gm) in *.
    rewrite ground_cell_cases.
    replace (Datatypes.S n - 1)%nat with n by lia.
    assert (Hpg : pair_invalid cloud n j = true -> pair_ground cloud n j = false).
    { intros H. unfold pair_ground. now rewrite H. }
    split; [|split; [|split]].
    + intros r c Hne.
      destruct (pair_invalid cloud n j); [|destruct (pair_ground cloud n j)];
        rewrite ?mat_set_other by congruence; auto.
    + intros r Hr.
      destruct (pair_invalid cloud n j); [|destruct (pair_ground cloud n j)];
        rewrite ?mat_set_other by (intros H; inversion H; lia);
        apply Hb; lia.
    + intros r Hr. destruct (Nat.eq_dec r n) as [->|Hne].
      * destruct (pair_invalid cloud n j) eqn:Ei.
        -- apply mat_set_same.
        -- destruct (pair_ground cloud n j) eqn:Eg.
           ++ rewrite mat_set_other by (intros H; inversion H; lia).
              apply mat_set_same.
           ++ exact Hd.
      * destruct (pair_invalid cloud n j); [|destruct (pair_ground cloud n j)];
          rewrite ?mat_set_other by (intros H; inversion H; lia);
          apply Hc; lia.
    + simpl Nat.leb. simpl andb.
      destruct (pair_invalid cloud n j) eqn:Ei.
      * rewrite (Hpg eq_refl).
        rewrite mat_set_other by (intros H; inversion H; lia).
        apply Hb. lia.
      * destruct (pair_ground cloud n j) eqn:Eg.
        -- replace (Datatypes.S n) with (n + 1)%nat by lia. apply mat_set_same.
        -- apply Hb. lia.
Qed.

(** The ground pass, column by column. *)
Lemma ground_columns (m : nat) (gm : Mat Z) :
  let gm' := for_range m
               (fun j => for_range groundScanInd (ground_cell cloud j)) gm in
  (forall r c, (m <= c)%nat -> gm' r c = gm r c)
  /\ forall r c, (c < m)%nat ->
       gm' r c
       = if (r <? groundScanInd)%nat && pair_invalid cloud r c then (-1)%Z
         else if (r <? groundScanInd)%nat && pair_ground cloud r c then 1%Z
         else if (1 <=? r)%nat && (r <=? groundScanInd)%nat
                 && pair_ground cloud (r - 1) c then 1%Z
         else gm r c.
Proof.
  induction m as [|m IH]; cbv zeta.
  - simpl. split; auto. intros r c Hc. lia.
  - rewrite for_range_S. cbv zeta in IH. destruct IH as [Hout Hin].
    set (gmm := for_range m
                  (fun j => for_range groundScanInd (ground_cell cloud j)) gm)
      in *.
    destruct (ground_column m groundScanInd gmm) as [Ha [Hb [Hc Hd]]].
    split.
    + intros r c Hc'. rewrite Ha by lia. apply Hout. lia.
    + intros r c Hc'. destruct (Nat.eq_dec c m) as [->|Hne].
      * destruct (Nat.ltb_spec r groundScanInd) as [Hr|Hr]; cbn [andb].
        -- rewrite (Hc r Hr).
           destruct (pair_invalid cloud r m); [reflexivity|].
           destruct (pair_ground cloud r m); [reflexivity|].
           destruct (Nat.leb_spec r groundScanInd); [|lia].
           rewrite andb_true_r.
           destruct ((1 <=? r)%nat && pair_ground cloud (r - 1) m);
             [reflexivity|apply Hout; lia].
        -- destruct (Nat.eq_dec r groundScanInd) as [->|Hne].
           ++ rewrite Hd, Nat.leb_refl, andb_true_r.
              destruct ((1 <=? groundScanInd)%nat
                        && pair_ground cloud (groundScanInd - 1) m);
                [reflexivity|apply Hout; lia].
           ++ rewrite Hb by lia.
              destruct (Nat.leb_spec r groundScanInd); [lia|].
              rewrite andb_false_r. cbn [andb]. apply Hout. lia.
      * rewrite Ha by exact Hne. apply Hin. lia.
Qed.

End GroundClosedForm.

Section GroundClassification.

Context {g : Geometry} {ops : FloatOps}.
Variable subs : Subscribers.

(** The first loop nest of [groundRemoval] on a matrix of zeros. *)
Lemma ground_pass_zeros (cloud : Arr PointXYZI) (r c : nat) :
  ground_pass cloud (fun _ _ => 0%Z) r c = ground_value cloud r c.
Proof.
  unfold ground_pass, ground_value.
  destruct (ground_columns cloud Horizon_SCAN (fun _ _ => 0%Z))
    as [Hout Hin].
  destruct (Nat.ltb_spec c Horizon_SCAN) as [Hc|Hc].
  - rewrite (Hin r c Hc). reflexivity.
  - rewrite (Hout r c Hc). reflexivity.
Qed.

(** X7.  The ground matrix that [groundRemoval] leaves when it starts from
    a matrix of zeros, cell by cell: in a row below groundScanInd, -1 when
    the cell or the cell above it has no return, 1 when the pair is near
    the mount angle; otherwise 1 when the pair with the cell below was
    found near the mount angle (rows 1 to groundScanInd), and 0 in every
    other case.  In particular a cell marked by the pair below it is set
    back to -1 when the cell above it has no return. *)
Theorem groundMat_closed_form (s : State) (r c : nat) :
  groundMat s = (fun _ _ => 0%Z) ->
  groundMat (groundRemoval subs s) r c = ground_value (fullCloud s) r c.
Proof.
  intros H0. unfold groundRemoval. cbn [groundMat]. rewrite H0.
  apply ground_pass_zeros.
Qed.

End GroundClassification.

Lemma arr_set_same {A} (a : Arr A) (k : nat) (v : A) : arr_set a k v k = v.
Proof. unfold arr_set. now rewrite Nat.eqb_refl. Qed.

Lemma arr_set_other {A} (a : Arr A) (k k' : nat) (v : A) :
  k' <> k -> arr_set a k v k' = a k'.
Proof.
  intros Hne. unfold arr_set. destruct (Nat.eqb_spec k' k); congruence.
Qed.

Section ProjectionImages.

Context {g : Geometry} {ops : FloatOps}.

Lemma cell_index_injective (r c r' c' : nat) :
  (c < Horizon_SCAN)%nat -> (c' < Horizon_SCAN)%nat ->
  (c + r * Horizon_SCAN = c' + r' * Horizon_SCAN)%nat ->
  r = r' /\ c = c'.
Proof.
  intros Hc Hc' Heq.
  destruct (lt_eq_lt_dec r r') as [[Hlt | ->] | Hgt]; [nia|lia|nia].
Qed.

Lemma project_point_cells (input : list (F * F * F)) (s : State)
    (ip : nat * (F * F * F)) :
  In (snd ip) input ->
  (forall r c, in_image (r, c) -> cell_projected s input r c) ->
  forall r c, in_image (r, c) -> cell_projected (project_point s ip) input r c.
Proof.
  intros Hin Hs r c Hrc. destruct ip as [i [[x y] z]]. simpl in Hin.
  unfold project_point.
  destruct (Nat.leb_spec N_SCAN
              (if useCloudRing
               then ring (nth i (laserCloudInRing s)
                            {| xyz_r := (x, y, z); ring := 0 |})
               else rowOf x y z)) as [Hrow|Hrow]; [now apply Hs|].
  match goal with
  | |- context [if (Horizon_SCAN <=? ?col)%nat then s else _] =>
      destruct (Nat.leb_spec Horizon_SCAN col) as [Hcol|Hcol];
      [now apply Hs|]; set (columnIdn := col) in *
  end.
  match type of Hrow with
  | (?row < _)%nat => set (rowIdn := row) in *
  end.
  destruct (belowMinimumRange (rangeOf x y z)) eqn:Emin; [now apply Hs|].
  unfold cell_projected. cbn [fullCloud fullInfoCloud rangeMat].
  destruct (cell_eq_dec (r, c) (rowIdn, columnIdn)) as [Heq|Hne].
  - inversion Heq; subst r c. right. exists x, y, z.
    rewrite !arr_set_same, mat_set_same. auto.
  - assert (Hc : (c < Horizon_SCAN)%nat) by exact (proj2 Hrc).
    assert (Hk : (c + r * Horizon_SCAN)%nat
                 <> (columnIdn + rowIdn * Horizon_SCAN)%nat).
    { intros Hk. destruct (cell_index_injective r rowIdn Hc Hcol Hk).
      apply Hne. congruence. }
    rewrite !arr_set_other by exact Hk.
    rewrite mat_set_other by exact Hne.
    exact (Hs r c Hrc).
Qed.

Lemma project_fold_cells (input : list (F * F * F))
    (l : list (nat * (F * F * F))) (s : State) :
  (forall ip, In ip l -> In (snd ip) input) ->
  (forall r c, in_image (r, c) -> cell_projected s input r c) ->
  forall r c, in_image (r, c) ->
    cell_projected (fold_left project_point l s) input r c.
Proof.
  revert s. induction l as [|ip l IH]; intros s Hl H0; [exact H0|].
  simpl fold_left. apply IH.
  - intros ip' Hip'. apply Hl. now right.
  - apply project_point_cells; [apply Hl; now left|exact H0].
Qed.

(** The loop of [projectPointCloud] on images at their defaults. *)
Lemma project_reset_cells (s : State) (r c : nat) :
  reset_state s -> in_image (r, c) ->
  cell_projected (projectPointCloud s) (laserCloudIn s) r c.
Proof.
  intros Hr Hrc. destruct Hr as [Hrm [_ [_ [_ [Hfc [Hfi _]]]]]].
  unfold projectPointCloud. apply project_fold_cells; [| |exact Hrc].
  - intros [i p] Hip. apply in_combine_r in Hip. exact Hip.
  - intros r' c' _. left. now rewrite Hfc, Hfi, Hrm.
Qed.

(** X8.  After [projectPointCloud] the three images agree cell by cell:
    either the cell is empty in all of them (fullCloud holds the NaN
    marker, fullInfoCloud too, rangeMat holds FLT_MAX), or they hold the
    data of one and the same point of the input cloud, whose range is not
    below the minimum: fullCloud has its coordinates and the key of the
    cell, fullInfoCloud its coordinates and its range, rangeMat its
    range. *)
Theorem projected_images_agree
    (s0 : State) (msg : PointCloud2) (s1 : State) (r c : nat) :
  findStartEndAngle (copyPointCloud msg (resetParameters s0)) = Some s1 ->
  in_image (r, c) ->
  cell_projected (projectPointCloud s1) (laserCloudIn s1) r c.
Proof.
  intros Hstart Hrc. apply project_reset_cells; [|exact Hrc].
  eapply reset_state_angle; [exact Hstart|].
  apply reset_state_copy, reset_state_reset.
Qed.

End ProjectionImages.

Section GroundCloud.

Context {g : Geometry} {ops : FloatOps}.
Variable subs : Subscribers.

Lemma ground_points_filter (gm : Mat Z) (cloud : Arr PointXYZI)
    (acc : list PointXYZI) :
  ground_points gm cloud acc
  = acc ++ map (fun p => cloud (snd p + fst p * Horizon_SCAN)%nat)
             (filter (fun p => (gm (fst p) (snd p) =? 1)%Z)
                (cells (Datatypes.S groundScanInd) Horizon_SCAN)).
Proof.
  unfold ground_points.
  rewrite (for_range_cells (Datatypes.S groundScanInd) Horizon_SCAN
             (fun i j acc =>
                if (gm i j =? 1)%Z
                then acc ++ [cloud (j + i * Horizon_SCAN)%nat] else acc)).
  generalize (cells (Datatypes.S groundScanInd) Horizon_SCAN) as l.
  intros l. revert acc. induction l as [|p l IH]; intros acc; simpl.
  - now rewrite app_nil_r.
  - rewrite IH. destruct (gm (fst p) (snd p) =? 1)%Z; simpl;
      [now rewrite <- app_assoc|reflexivity].
Qed.

(** X9.  When the ground cloud has a subscriber and the ground matrix
    starts from zeros, [groundRemoval] appends to the ground cloud the
    points of the cells with groundMat = 1 of rows 0 to groundScanInd, in
    row-major order (row by row, each row by increasing column), and these
    are all the ground cells: no cell of a row above groundScanInd, nor of
    a column outside the image, has groundMat = 1.  Without a subscriber
    the cloud is left as it is. *)
Theorem groundCloud_lists_ground_cells (s : State) :
  groundMat s = (fun _ _ => 0%Z) ->
  let s2 := groundRemoval subs s in
  (subGroundCloud subs = 0%nat -> groundCloud s2 = groundCloud s)
  /\ (subGroundCloud subs <> 0%nat ->
      groundCloud s2
      = groundCloud s
        ++ map (cell_point s2)
             (filter (fun p => (groundMat s2 (fst p) (snd p) =? 1)%Z)
                (cells (Datatypes.S groundScanInd) Horizon_SCAN)))
  /\ (forall r c, groundMat s2 r c = 1%Z ->
        (r <= groundScanInd)%nat /\ (c < Horizon_SCAN)%nat).
Proof.
  intros H0 s2. split; [|split].
  - intros Hsub. unfold s2, groundRemoval. simpl. now rewrite Hsub.
  - intros Hsub. unfold s2 at 1, groundRemoval. cbn [groundCloud].
    apply Nat.eqb_neq in Hsub. rewrite Hsub. cbn [negb].
    apply ground_points_filter.
  - intros r c H1.
    unfold s2, groundRemoval in H1. cbn [groundMat] in H1.
    rewrite H0, ground_pass_zeros in H1.
    unfold ground_value in H1.
    destruct (Nat.ltb_spec c Horizon_SCAN) as [Hc|Hc]; [|discriminate].
    split; [|exact Hc].
    destruct (Nat.ltb_spec r groundScanInd) as [Hr|Hr]; [lia|].
    cbn [andb] in H1.
    destruct (Nat.leb_spec r groundScanInd) as [Hr'|Hr']; [lia|].
    rewrite andb_false_r in H1. discriminate.
Qed.

End GroundCloud.

Section Returns.

Context {g : Geometry} {ops : FloatOps}.
Variable subs : Subscribers.

(** A cell without a return is not a ground cell. *)
Lemma no_return_not_ground (cloud : Arr PointXYZI) (r c : nat) :
  no_return cloud r c = true -> ground_value cloud r c <> 1%Z.
Proof.
  intros Hn. unfold ground_value.
  destruct (c <? Horizon_SCAN)%nat; [|discriminate].
  assert (Hi : pair_invalid cloud r c = true).
  { unfold pair_invalid. now rewrite Hn. }
  assert (Hg : pair_ground cloud r c = false).
  { unfold pair_ground. now rewrite Hi. }
  rewrite Hi, Hg, andb_true_r, andb_false_r.
  destruct (r <? groundScanInd)%nat; [discriminate|].
  destruct (Nat.leb_spec 1 r) as [H1|H1]; [|discriminate].
  assert (Hg' : pair_ground cloud (r - 1) c = false).
  { unfold pair_ground, pair_invalid.
    replace (r - 1 + 1)%nat with r by lia. rewrite Hn.
    now rewrite orb_true_r. }
  rewrite Hg', andb_false_r. discriminate.
Qed.

(** X10.  Whatever a scan contains, every point of the segmented cloud and
    of the outlier cloud is a return of the input cloud stored with the
    key of its cell: the NaN marker of the empty cells is never
    emitted. *)
Theorem emitted_points_are_returns
    (s0 : State) (msg : PointCloud2) (s1 : State) :
  fits16 g ->
  findStartEndAngle (copyPointCloud msg (resetParameters s0)) = Some s1 ->
  exists s3,
    process subs s1 = Some s3
    /\ forall p, In p (segmentedCloud s3) \/ In p (outlierCloud s3) ->
         exists r c x y z,
           in_image (r, c) /\ In (x, y, z) (laserCloudIn s1)
           /\ p = {| xyz := (x, y, z); intensity := cell_key r c |}.
Proof.
  intros Hfit Hstart. unfold process.
  assert (Hr : reset_state s1).
  { eapply reset_state_angle; [exact Hstart|].
    apply reset_state_copy, reset_state_reset. }
  destruct (groundRemoval_state subs Hr)
    as [Hlc [Hsc [Hoc [_ [_ [Hex _]]]]]].
  assert (Hgm : forall r c,
             groundMat (groundRemoval subs (projectPointCloud s1)) r c
             = ground_value (fullCloud (projectPointCloud s1)) r c).
  { intros r c. unfold groundRemoval. cbn [groundMat].
    destruct (projectPointCloud_frame s1) as [_ [Pg _]]. rewrite Pg.
    rewrite (proj1 (proj2 Hr)). apply ground_pass_zeros. }
  assert (Hfc : fullCloud (groundRemoval subs (projectPointCloud s1))
                = fullCloud (projectPointCloud s1)) by reflexivity.
  assert (Hrm : rangeMat (groundRemoval subs (projectPointCloud s1))
                = rangeMat (projectPointCloud s1)) by reflexivity.
  set (s2 := groundRemoval subs (projectPointCloud s1)) in *. clearbody s2.
  destruct (segment_pass_frame (rangeMat s2) Hfit (labelMat s2)
              (lc := labelCount s2)) as [lm [lc [Hseg [_ Hfr]]]];
    [rewrite Hlc; lia|].
  destruct (cloudSegmentation_state subs s2 Hseg) as [s3 [Hcs [Hs3 _]]].
  exists s3. split; [exact Hcs|].
  destruct (emit_pass_spec (set_labels s2 lm lc) Hfit) as [Hs [Ho _]].
  assert (Hcell : forall r c, in_image (r, c) ->
             ((lm r c >? 0)%Z || (groundMat s2 r c =? 1)%Z) = true ->
             exists x y z,
               In (x, y, z) (laserCloudIn s1)
               /\ fullCloud s2 (c + r * Horizon_SCAN)%nat
                  = {| xyz := (x, y, z); intensity := cell_key r c |}).
  { intros r c Hrc Hq.
    destruct (project_reset_cells Hr Hrc)
      as [[Hnan [_ Hmax]]|[x [y [z [Hin [Hpt _]]]]]].
    - exfalso. apply orb_true_iff in Hq as [Hq|Hq].
      + assert (Hm1 : labelMat s2 r c = (-1)%Z).
        { apply (Hex r c Hrc). right. rewrite Hrm, Hmax. apply FLT_MAX_eq. }
        apply Z.gtb_lt in Hq.
        destruct (Hfr r c) as [Heq|[H0 _]]; lia.
      + apply Z.eqb_eq in Hq. rewrite Hgm in Hq.
        apply (no_return_not_ground (fullCloud (projectPointCloud s1)) r c);
          [|exact Hq].
        unfold no_return. now rewrite Hnan.
    - exists x, y, z. split; [exact Hin|]. now rewrite Hfc. }
  intros p Hp.
  assert (Hp' : exists r c,
             in_image (r, c)
             /\ ((lm r c >? 0)%Z || (groundMat s2 r c =? 1)%Z) = true
             /\ p = fullCloud s2 (c + r * Horizon_SCAN)%nat).
  { rewrite Hs3 in Hp. unfold set_emitted in Hp.
    cbn [segmentedCloud outlierCloud] in Hp. rewrite Hs, Ho in Hp.
    cbn [segmentedCloud outlierCloud set_labels] in Hp.
    rewrite Hsc, Hoc in Hp. cbn [app] in Hp.
    destruct Hp as [Hp|Hp]; apply in_map_iff in Hp as [[r c] [<- Hin]];
      apply filter_In in Hin as [Hin Hk]; apply in_cells in Hin;
      exists r, c; (split; [exact Hin|]); (split; [|reflexivity]);
      cbn [fst snd labelMat groundMat set_labels] in Hk.
    - unfold spec_segmented in Hk.
      apply andb_prop in Hk as [Hk _]. apply andb_prop in Hk as [Hk _].
      exact Hk.
    - unfold spec_outlier in Hk.
      apply andb_prop in Hk as [Hk _]. apply andb_prop in Hk as [Hk _].
      apply andb_prop in Hk as [Hk _]. exact Hk. }
  destruct Hp' as [r [c [Hrc [Hq ->]]]].
  destruct (Hcell r c Hrc Hq) as [x [y [z [Hin Hpt]]]].
  exists r, c, x, y, z. auto.
Qed.

End Returns.

Lemma dir_eq_dec (a b : Z * Z) : {a = b} + {a <> b}.
Proof. decide equality; apply Z.eq_dec. Qed.

Section Cluster.

Context {g : Geometry} {ops : FloatOps}.
Variable rm : Mat F.
Variables (lm0 : Mat Z) (lc : Z) (seed : nat * nat).
Hypothesis Hfit : fits16 g.
Hypothesis Hlc : lc <> 0%Z.

(** Looking at a neighbour only adds to the queue and to the pushed cells,
    and what it pushes it also queues. *)
Lemma visit_grows_lists (from : nat * nat) (s : Bfs) (d : Z * Z) :
  incl (b_pushed s) (b_pushed (visit rm lc from s d))
  /\ incl (b_queue s) (b_queue (visit rm lc from s d))
  /\ forall p, In p (b_pushed (visit rm lc from s d)) ->
       In p (b_pushed s) \/ In p (b_queue (visit rm lc from s d)).
Proof.
  unfold visit.
  destruct (neighbor from d) as [[x y]|];
    [|split; [apply incl_refl|split; [apply incl_refl|auto]]].
  destruct (negb (b_label s x y =? 0)%Z);
    [split; [apply incl_refl|split; [apply incl_refl|auto]]|].
  destruct (angleAboveTheta _ _ _);
    [|split; [apply incl_refl|split; [apply incl_refl|auto]]].
  simpl. split; [apply incl_appl, incl_refl|].
  split; [apply incl_appl, incl_refl|].
  intros p Hp. apply in_app_iff in Hp as [Hp|Hp]; [now left|].
  right. apply in_app_iff. now right.
Qed.

Lemma visits_grow_lists (from : nat * nat) (l : list (Z * Z)) (s : Bfs) :
  incl (b_pushed s) (b_pushed (fold_left (visit rm lc from) l s))
  /\ incl (b_queue s) (b_queue (fold_left (visit rm lc from) l s))
  /\ forall p, In p (b_pushed (fold_left (visit rm lc from) l s)) ->
       In p (b_pushed s)
       \/ In p (b_queue (fold_left (visit rm lc from) l s)).
Proof.
  revert s. induction l as [|d l IH]; intros s.
  - split; [apply incl_refl|split; [apply incl_refl|auto]].
  - simpl. destruct (IH (visit rm lc from s d)) as [Hp [Hq Hn]].
    destruct (visit_grows_lists from s d) as [Hp' [Hq' Hn']].
    split; [eapply incl_tran; eassumption|].
    split; [eapply incl_tran; eassumption|].
    intros p Hin. destruct (Hn p Hin) as [H|H]; [|now right].
    destruct (Hn' p H) as [H'|H']; [now left|right; now apply Hq].
Qed.

(** What a neighbour is pushed for. *)
Lemma visit_reached (from : nat * nat) (s : Bfs) (d : Z * Z) :
  In d neighborIterator -> in_image from -> BfsInv lm0 lc seed s ->
  reached rm lm0 seed from ->
  (forall p, In p (b_pushed s) -> reached rm lm0 seed p) ->
  forall p, In p (b_pushed (visit rm lc from s d)) -> reached rm lm0 seed p.
Proof.
  intros Hd Himg HI Hfrom Hall p. unfold visit.
  destruct (neighbor from d) as [[x y]|] eqn:En; [|apply Hall].
  destruct (Z.eqb_spec (b_label s x y) 0) as [Hz|Hnz]; simpl; [|apply Hall].
  destruct (angleAboveTheta _ _ _) eqn:Ea; [|apply Hall].
  simpl. intros Hp. apply in_app_iff in Hp as [Hp|[<-|[]]]; [now apply Hall|].
  assert (Hq : in_image (x, y)) by (eapply neighbor_in_image; eauto).
  generalize (image_u16 Hfit Hq). simpl. intros ->.
  apply (reached_step Hfrom). exists d. split; [exact Hd|].
  split; [exact En|]. split; [|exact Ea]. simpl.
  rewrite <- (inv_frame HI); [exact Hz|].
  intros Hin. apply (inv_label HI) in Hin. congruence.
Qed.

(** After the look in direction d nothing is left to grow into there. *)
Lemma visit_closes_direction (from : nat * nat) (s : Bfs) (d : Z * Z)
    (q : nat * nat) :
  In d neighborIterator -> in_image from -> BfsInv lm0 lc seed s ->
  neighbor from d = Some q -> lm0 (fst q) (snd q) = 0%Z ->
  angleAboveTheta (rm (fst from) (snd from)) (rm (fst q) (snd q))
    (fst d =? 0)%Z = true ->
  In q (b_pushed (visit rm lc from s d)).
Proof.
  intros Hd Himg HI En H0 Ha. unfold visit. rewrite En.
  destruct q as [x y]. simpl in H0, Ha.
  destruct (Z.eqb_spec (b_label s x y) 0) as [Hz|Hnz]; simpl.
  - rewrite Ha. simpl. apply in_app_iff. right. left.
    assert (Hq : in_image (x, y)) by (eapply neighbor_in_image; eauto).
    exact (image_u16 Hfit Hq).
  - destruct (in_dec cell_eq_dec (x, y) (b_pushed s)) as [Hin|Hnin];
      [exact Hin|].
    elim Hnz. rewrite (inv_frame HI _ _ Hnin). exact H0.
Qed.

Lemma visits_close_directions (from : nat * nat) (l : list (Z * Z))
    (s : Bfs) (d : Z * Z) (q : nat * nat) :
  incl l neighborIterator -> in_image from -> BfsInv lm0 lc seed s ->
  In d l -> neighbor from d = Some q -> lm0 (fst q) (snd q) = 0%Z ->
  angleAboveTheta (rm (fst from) (snd from)) (rm (fst q) (snd q))
    (fst d =? 0)%Z = true ->
  In q (b_pushed (fold_left (visit rm lc from) l s)).
Proof.
  revert s. induction l as [|d0 l IH]; intros s Hl Himg HI Hd En H0 Ha;
    [destruct Hd|].
  simpl.
  assert (Hd0 : In d0 neighborIterator) by (apply Hl; now left).
  assert (Hl' : incl l neighborIterator)
    by (intros x Hx; apply Hl; now right).
  destruct (in_dec dir_eq_dec d l) as [Hin|Hnin].
  - apply IH; auto. now apply visit_inv.
  - destruct Hd as [->|Hd]; [|contradiction].
    apply (proj1 (visits_grow_lists from l (visit rm lc from s d))).
    now apply visit_closes_direction.
Qed.

Lemma visits_reached (from : nat * nat) (l : list (Z * Z)) (s : Bfs) :
  incl l neighborIterator -> in_image from -> BfsInv lm0 lc seed s ->
  reached rm lm0 seed from ->
  (forall p, In p (b_pushed s) -> reached rm lm0 seed p) ->
  forall p, In p (b_pushed (fold_left (visit rm lc from) l s)) ->
    reached rm lm0 seed p.
Proof.
  revert s. induction l as [|d l IH]; intros s Hl Himg HI Hfrom Hall;
    [exact Hall|].
  simpl. apply IH; auto.
  - intros x Hx. apply Hl. now right.
  - apply visit_inv; auto. apply Hl. now left.
  - apply visit_reached; auto. apply Hl. now left.
Qed.

(** The four looks around a popped cell. *)
Lemma looks_keep_cluster (from : nat * nat) (m : Bfs) :
  BfsInv lm0 lc seed m -> In from (b_pushed m) ->
  (forall p, In p (b_pushed m) -> reached rm lm0 seed p) ->
  (forall p, In p (b_pushed m) ->
     p = from \/ In p (b_queue m)
     \/ forall q, grows rm lm0 p q -> In q (b_pushed m)) ->
  BfsCluster rm lm0 seed (fold_left (visit rm lc from) neighborIterator m).
Proof.
  intros HI Hfrom Hreach Hclosed.
  assert (Himg : in_image from) by exact (inv_image HI _ Hfrom).
  destruct (visits_grow_lists from neighborIterator m) as [Hp [Hq Hn]].
  constructor.
  - apply visits_reached; auto. apply incl_refl.
  - intros p Hin. destruct (Hn p Hin) as [Hold|Hnew]; [|now left].
    destruct (Hclosed p Hold) as [->|[Hqu|Hcl]].
    + right. intros q [d [Hd [En [H0 Ha]]]].
      apply (@visits_close_directions from neighborIterator m d q);
        auto. apply incl_refl.
    + left. now apply Hq.
    + right. intros q Hg. apply Hp. now apply Hcl.
Qed.

Lemma bfs_step_cluster (from : nat * nat) (rest : list (nat * nat))
    (s : Bfs) :
  b_queue s = from :: rest -> BfsInv lm0 lc seed s ->
  BfsCluster rm lm0 seed s ->
  BfsCluster rm lm0 seed (bfs_step rm lc from rest s).
Proof.
  intros Hq HI [Hreach Hclosed]. unfold bfs_step.
  assert (Hin : In from (b_pushed s)).
  { apply (inv_queue HI). rewrite Hq. now left. }
  apply looks_keep_cluster; simpl; auto.
  - destruct HI as [Hqu Him Hfr Hlb Hz0 Hnd Hhd Hln].
    constructor; simpl; auto.
    + intros p Hp. apply Hqu. rewrite Hq. now right.
    + intros i j Hnin. rewrite mat_set_other; [now apply Hfr|].
      intros Heq. apply Hnin. rewrite Heq. now destruct from.
    + intros i j Hij. unfold mat_set.
      destruct ((i =? fst from)%nat && (j =? snd from)%nat); auto.
  - intros p Hp. destruct (Hclosed p Hp) as [Hqu|Hcl]; [|auto].
    rewrite Hq in Hqu. destruct Hqu as [->|Hr]; auto.
Qed.

Lemma bfs_cluster (fuel : nat) (s s' : Bfs) :
  bfs fuel rm lc s = Some s' -> BfsInv lm0 lc seed s ->
  BfsCluster rm lm0 seed s -> BfsCluster rm lm0 seed s'.
Proof.
  revert s. induction fuel as [|fuel IH]; intros s Hb HI HC; simpl in Hb.
  - destruct (b_queue s); [|discriminate]. now injection Hb as <-.
  - destruct (b_queue s) as [|from rest] eqn:Hq; [now injection Hb as <-|].
    apply (IH _ Hb); [now apply bfs_step_inv|now apply bfs_step_cluster].
Qed.

Hypothesis Hseed : in_image seed.
Hypothesis Hseed0 : lm0 (fst seed) (snd seed) = 0%Z.

Lemma bfs_first_cluster :
  BfsCluster rm lm0 seed
    (bfs_step rm lc seed [] (bfs_init lm0 (fst seed) (snd seed))).
Proof.
  unfold bfs_step. apply looks_keep_cluster.
  - unfold bfs_init. simpl. rewrite (image_u16 Hfit Hseed).
    constructor; simpl.
    + intros p [].
    + intros p [<-|[]]. exact Hseed.
    + intros i j Hnin. apply mat_set_other. intros Heq. apply Hnin. left.
      rewrite Heq. now destruct seed.
    + intros i j [Heq|[]]. rewrite Heq. simpl. apply mat_set_same.
    + intros i j [Heq|[]]. generalize Hseed0. rewrite Heq. simpl. auto.
    + repeat constructor. intros [].
    + now exists [].
    + intros r. split; [discriminate|intros [c []]].
  - unfold bfs_init. simpl. rewrite (image_u16 Hfit Hseed). now left.
  - unfold bfs_init. simpl. rewrite (image_u16 Hfit Hseed).
    intros p [<-|[]]. constructor.
  - unfold bfs_init. simpl. rewrite (image_u16 Hfit Hseed).
    intros p [<-|[]]. now left.
Qed.

(** When the queue is empty the pushed cells are the reached cells. *)
Lemma bfs_reaches_region :
  exists s,
    bfs bfs_fuel rm lc (bfs_init lm0 (fst seed) (snd seed)) = Some s
    /\ BfsInv lm0 lc seed s /\ b_queue s = []
    /\ forall p, In p (b_pushed s) <-> reached rm lm0 seed p.
Proof.
  destruct (@bfs_from_seed g ops rm lm0 lc seed Hfit Hlc Hseed Hseed0)
    as [s [Hb [HI Hq]]].
  exists s. split; [exact Hb|]. split; [exact HI|]. split; [exact Hq|].
  assert (HC : BfsCluster rm lm0 seed s).
  { unfold bfs_fuel in Hb.
    change (bfs (Datatypes.S (N_SCAN * Horizon_SCAN)) rm lc
              (bfs_init lm0 (fst seed) (snd seed)))
      with (bfs (N_SCAN * Horizon_SCAN) rm lc
              (bfs_step rm lc (u16 (fst seed), u16 (snd seed)) []
                 (bfs_init lm0 (fst seed) (snd seed)))) in Hb.
    rewrite (image_u16 Hfit Hseed) in Hb.
    apply (bfs_cluster _ Hb);
      [exact (@bfs_first_inv g ops rm lm0 lc seed Hfit Hlc Hseed Hseed0)
      |exact bfs_first_cluster]. }
  intros p. split; [apply (cl_reached HC)|].
  intros Hr. induction Hr as [|p q Hp IH Hg].
  - destruct (inv_head HI) as [rest ->]. now left.
  - destruct (cl_closed HC p IH) as [Hin|Hcl]; [|now apply Hcl].
    rewrite Hq in Hin. destruct Hin.
Qed.

End Cluster.

Lemma existsb_ext_in {A} (f f' : A -> bool) (l : list A) :
  (forall x, In x l -> f x = f' x) -> existsb f l = existsb f' l.
Proof.
  induction l as [|a l IH]; intros Hf; [reflexivity|]. simpl.
  rewrite (Hf a (or_introl eq_refl)), IH; [reflexivity|].
  intros x Hx. apply Hf. now right.
Qed.

Section Region.

Context {g : Geometry} {ops : FloatOps}.
Variable rm : Mat F.

Lemma lineCount_beside_seed (lm0 : Mat Z) (lc : Z) (seed : nat * nat)
    (s : Bfs) :
  BfsInv lm0 lc seed s ->
  lineCount (b_line s) = beams_beside_seed (b_pushed s) seed.
Proof.
  intros HI. rewrite (lineCount_pushed HI). unfold beams_beside_seed.
  f_equal. apply filter_ext. intros r.
  destruct (inv_head HI) as [rest Hrest].
  generalize (inv_nodup HI). rewrite Hrest. intros Hnd.
  inversion Hnd as [|x l Hnin Hnd']; subst. simpl.
  rewrite !Nat.eqb_refl. simpl. rewrite andb_false_r. simpl.
  apply existsb_ext_in. intros [i j] Hin. simpl.
  destruct (Nat.eqb_spec i (fst seed)) as [Hi|Hi];
    destruct (Nat.eqb_spec j (snd seed)) as [Hj|Hj];
    simpl; rewrite ?andb_true_r; try reflexivity.
  exfalso. apply Hnin. subst i j. now destruct seed.
Qed.

(** X11.  What a call of [labelComponents] on an unlabelled cell of the
    image computes.  The cluster is exactly the set of cells reached from
    the seed by steps to a four-neighbour (columns wrapping) that was
    unlabelled at the call and passes the angle test.  With n its number
    of cells, the cluster is accepted when n >= 30, or when
    n >= segmentValidPointNum and at least segmentValidLineNum beams hold
    a cell of the cluster other than the seed.  An accepted cluster gets
    the label count as label on all its cells and the count goes up by
    one; a rejected one gets 999999 on all its cells and the count stays.
    No other cell changes. *)
Theorem labelComponents_labels_region (lm : Mat Z) (lc : Z)
    (row col : nat) :
  fits16 g -> lc <> 0%Z -> in_image (row, col) -> lm row col = 0%Z ->
  exists cluster lm' lc',
    labelComponents rm lm lc row col = Some (lm', lc')
    /\ NoDup cluster
    /\ (forall p, In p cluster <-> reached rm lm (row, col) p)
    /\ (if (30 <=? length cluster)%nat
           || ((segmentValidPointNum <=? length cluster)%nat
               && (segmentValidLineNum
                   <=? beams_beside_seed cluster (row, col))%nat)
        then lc' = (lc + 1)%Z
             /\ forall i j, In (i, j) cluster -> lm' i j = lc
        else lc' = lc
             /\ forall i j, In (i, j) cluster -> lm' i j = SENTINEL_DROP)
    /\ forall i j, ~ In (i, j) cluster -> lm' i j = lm i j.
Proof.
  intros Hfit Hlc Himg H0.
  destruct (@bfs_reaches_region g ops rm lm lc (row, col) Hfit Hlc Himg H0)
    as [s [Hbfs [HI [Hq Hreach]]]].
  cbn [fst snd] in Hbfs. unfold labelComponents. rewrite Hbfs.
  exists (b_pushed s).
  assert (Hfeas : feasibleSegment s
                  = ((30 <=? length (b_pushed s))%nat
                     || ((segmentValidPointNum <=? length (b_pushed s))%nat
                         && (segmentValidLineNum
                             <=? beams_beside_seed (b_pushed s) (row, col))%nat))).
  { unfold feasibleSegment. rewrite (lineCount_beside_seed HI).
    destruct (30 <=? length (b_pushed s))%nat; [reflexivity|].
    destruct (segmentValidPointNum <=? length (b_pushed s))%nat; reflexivity. }
  rewrite <- Hfeas.
  destruct (feasibleSegment s).
  - exists (b_label s), (lc + 1)%Z. split; [reflexivity|].
    split; [exact (inv_nodup HI)|]. split; [exact Hreach|].
    split; [split; [reflexivity|exact (inv_label HI)]|exact (inv_frame HI)].
  - exists (mark_invalid (b_label s) (b_pushed s)), lc.
    split; [reflexivity|].
    split; [exact (inv_nodup HI)|]. split; [exact Hreach|].
    split; [split; [reflexivity|]|].
    + intros i j Hin. now apply mark_invalid_in.
    + intros i j Hnin. rewrite mark_invalid_out by exact Hnin.
      now apply (inv_frame HI).
Qed.

End Region.

Section Metadata.

Context {g : Geometry} {ops : FloatOps}.
Variable subs : Subscribers.
Variable s : State.
Hypothesis Hfit : fits16 g.

Let keep (p : nat * nat) : bool :=
  spec_segmented (labelMat s) (groundMat s) (fst p) (snd p).

(** What one cell of the extraction loop does to the per-point arrays. *)
Lemma emit_cell_arrays (i j : nat) (e : Emit) :
  (j < Horizon_SCAN)%nat ->
  (keep (i, j) = true ->
   e_colInd (emit_cell s i j e) = arr_set (e_colInd e) (sizeOfSegCloud e) j
   /\ e_groundFlag (emit_cell s i j e)
      = arr_set (e_groundFlag e) (sizeOfSegCloud e) (groundMat s i j =? 1)%Z
   /\ e_range (emit_cell s i j e)
      = arr_set (e_range e) (sizeOfSegCloud e) (rangeMat s i j))
  /\ (keep (i, j) = false ->
      e_colInd (emit_cell s i j e) = e_colInd e
      /\ e_groundFlag (emit_cell s i j e) = e_groundFlag e
      /\ e_range (emit_cell s i j e) = e_range e).
Proof.
  intros Hj. unfold emit_cell, keep, spec_segmented.
  unfold SENTINEL_DROP. cbn [fst snd].
  generalize (j mod 5 =? 0)%nat as m5. intros m5.
  destruct (Nat.ltb_spec 5 j) as [H5|H5].
  - rewrite (away_from_right_edge_spec Hfit (conj H5 Hj)).
    destruct (Nat.leb_spec j 5); [lia|].
    destruct (labelMat s i j >? 0)%Z; destruct (groundMat s i j =? 1)%Z;
      destruct (labelMat s i j =? 999999)%Z;
      destruct (groundScanInd <? i)%nat; destruct m5;
      destruct (Z.of_nat Horizon_SCAN - 5 <=? Z.of_nat j)%Z;
      simpl; split; intros Hk; try discriminate; auto.
  - destruct (Nat.leb_spec j 5); [|lia].
    destruct (labelMat s i j >? 0)%Z; destruct (groundMat s i j =? 1)%Z;
      destruct (labelMat s i j =? 999999)%Z;
      destruct (groundScanInd <? i)%nat; destruct m5;
      simpl; rewrite ?orb_true_r; simpl; split; intros Hk;
      try discriminate; auto.
Qed.

Lemma arrays_follow_cell (e0 e : Emit) (done : list (nat * nat))
    (i j : nat) :
  (j < Horizon_SCAN)%nat ->
  arrays_follow s e0 e (filter keep done) ->
  arrays_follow s e0 (emit_cell s i j e) (filter keep (done ++ [(i, j)])).
Proof.
  intros Hj [Hsz [Hlo Hhi]].
  destruct (emit_cell_spec s Hfit i e Hj) as [_ [_ [Hsz' _]]].
  destruct (emit_cell_arrays i e Hj) as [Hyes Hno].
  fold keep in Hsz'. rewrite filter_app. cbn [filter] in *.
  destruct (keep (i, j)) eqn:Ek.
  - destruct (Hyes eq_refl) as [Hc [Hg Hr]].
    unfold arrays_follow. rewrite Hc, Hg, Hr, Hsz', Hsz, length_app.
    cbn [length]. split; [lia|]. split.
    + intros k Hk. unfold arr_set.
      destruct (Nat.eqb_spec k (length (filter keep done))) as [->|Hne].
      * rewrite nth_middle. auto.
      * rewrite app_nth1 by lia. apply Hlo. lia.
    + intros k Hk. unfold arr_set.
      destruct (Nat.eqb_spec k (length (filter keep done))) as [->|Hne];
        [lia|]. apply Hhi. lia.
  - destruct (Hno eq_refl) as [Hc [Hg Hr]].
    unfold arrays_follow. rewrite Hc, Hg, Hr, Hsz', Hsz, app_nil_r.
    cbn [length]. split; [lia|]. split; assumption.
Qed.

Lemma arrays_follow_cols (e0 e : Emit) (done : list (nat * nat))
    (i n : nat) :
  (n <= Horizon_SCAN)%nat ->
  arrays_follow s e0 e (filter keep done) ->
  arrays_follow s e0 (for_range n (emit_cell s i) e)
    (filter keep (done ++ map (pair i) (seq 0 n))).
Proof.
  induction n as [|n IH]; intros Hn HA.
  - simpl. now rewrite app_nil_r.
  - rewrite for_range_S, seq_S, map_app, app_assoc. cbn [map Nat.add].
    apply arrays_follow_cell; [lia|]. apply IH; [lia|exact HA].
Qed.

Lemma arrays_follow_rows (n : nat) :
  arrays_follow s (emit_init s) (for_range n (emit_row s) (emit_init s))
    (filter keep (cells n Horizon_SCAN)).
Proof.
  induction n as [|n IH].
  - simpl. unfold arrays_follow. simpl. split; [reflexivity|].
    split; [intros k Hk; lia|auto].
  - rewrite for_range_S, cells_S. unfold emit_row.
    assert (Hst : arrays_follow s (emit_init s)
                    (set_start n (for_range n (emit_row s) (emit_init s)))
                    (filter keep (cells n Horizon_SCAN))) by exact IH.
    exact (@arrays_follow_cols (emit_init s) _ (cells n Horizon_SCAN) n
             Horizon_SCAN (le_n _) Hst).
Qed.

End Metadata.

Section MetadataArrays.

Context {g : Geometry} {ops : FloatOps}.
Variable subs : Subscribers.

(** X12.  The per-point arrays of the scan metadata run parallel to the
    points that [cloudSegmentation] appends to the segmented cloud: for
    the k-th appended point, segmentedCloudColInd[k] is the column of its
    cell (below Horizon_SCAN), segmentedCloudGroundFlag[k] tells whether
    that cell is a ground cell and segmentedCloudRange[k] is its entry of
    rangeMat.  The entries from the number of appended points on are not
    written: they keep the values they had before the scan. *)
Theorem metadata_parallel_to_segmented_cloud (s : State) :
  fits16 g -> (0 < labelCount s)%Z ->
  exists s3 kept,
    cloudSegmentation subs s = Some s3
    /\ segmentedCloud s3 = segmentedCloud s ++ map (cell_point s3) kept
    /\ (forall k, (k < length kept)%nat ->
          let r := fst (nth k kept (0, 0)%nat) in
          let c := snd (nth k kept (0, 0)%nat) in
          in_image (r, c)
          /\ segmentedCloudColInd s3 k = c
          /\ segmentedCloudGroundFlag s3 k = (groundMat s3 r c =? 1)%Z
          /\ segmentedCloudRange s3 k = rangeMat s3 r c)
    /\ forall k, (length kept <= k)%nat ->
         segmentedCloudColInd s3 k = segmentedCloudColInd s k
         /\ segmentedCloudGroundFlag s3 k = segmentedCloudGroundFlag s k
         /\ segmentedCloudRange s3 k = segmentedCloudRange s k.
Proof.
  intros Hfit Hlc.
  destruct (segment_pass_total (rangeMat s) Hfit (labelMat s) Hlc)
    as [lm [lc [Hseg _]]].
  destruct (cloudSegmentation_state subs s Hseg) as [s3 [Hcs [Hs3 _]]].
  destruct (emit_pass_spec (set_labels s lm lc) Hfit) as [Hs _].
  destruct (arrays_follow_rows (set_labels s lm lc) Hfit N_SCAN)
    as [_ [Hlo Hhi]].
  exists s3,
    (filter (fun p => spec_segmented lm (groundMat s) (fst p) (snd p))
       (cells N_SCAN Horizon_SCAN)).
  split; [exact Hcs|]. rewrite Hs3. split; [exact Hs|]. split.
  - intros k Hk. cbv zeta.
    destruct (Hlo k Hk) as [Hc [Hg Hr]].
    split; [|split; [exact Hc|split; [exact Hg|exact Hr]]].
    assert (Hin : In (nth k (filter (fun p => spec_segmented lm (groundMat s)
                                               (fst p) (snd p))
                               (cells N_SCAN Horizon_SCAN)) (0, 0)%nat)
                    (cells N_SCAN Horizon_SCAN)).
    { eapply proj1. apply filter_In. apply nth_In. exact Hk. }
    destruct (nth k _ (0, 0)%nat) as [r c]. apply in_cells in Hin. exact Hin.
  - intros k Hk. exact (Hhi k Hk).
Qed.

End MetadataArrays.

Lemma filter_twice {A} (f h : A -> bool) (l : list A) :
  filter h (filter f l) = filter (fun x => f x && h x) l.
Proof.
  induction l as [|a l IH]; [reflexivity|]. simpl.
  destruct (f a); simpl; [|exact IH].
  destruct (h a); [now rewrite IH|exact IH].
Qed.

Section PureCloud.

Context {g : Geometry} {ops : FloatOps}.
Variable subs : Subscribers.

Lemma pure_pass_filter (lm : Mat Z) (cloud : Arr PointXYZI)
    (acc : list PointXYZI) :
  pure_pass lm cloud acc
  = acc ++ map (fun p => {| xyz := xyz (cloud (snd p + fst p * Horizon_SCAN)%nat);
                            intensity := inject_Z (lm (fst p) (snd p)) |})
             (filter (fun p => (lm (fst p) (snd p) >? 0)%Z
                               && negb (lm (fst p) (snd p) =? 999999)%Z)
                (cells N_SCAN Horizon_SCAN)).
Proof.
  unfold pure_pass. rewrite for_range_cells.
  generalize (cells N_SCAN Horizon_SCAN) as l.
  intros l. revert acc. induction l as [|p l IH]; intros acc.
  - simpl. now rewrite app_nil_r.
  - cbn [fold_left filter]. rewrite IH. unfold pure_cell.
    destruct ((lm (fst p) (snd p) >? 0)%Z
              && negb (lm (fst p) (snd p) =? 999999)%Z);
      [|reflexivity].
    cbn [map]. now rewrite <- app_assoc.
Qed.

(** X13.  For every scan, the visualisation cloud segmentedCloudPure is
    the segmented cloud without its ground points: when it has a
    subscriber it lists, in the same order, the cells of the segmented
    cloud that are not ground cells, each with its cluster label as
    intensity in place of the cell key.  Without a subscriber it stays
    empty. *)
Theorem pure_cloud_is_segmented_without_ground
    (s0 : State) (msg : PointCloud2) (s1 : State) :
  fits16 g ->
  findStartEndAngle (copyPointCloud msg (resetParameters s0)) = Some s1 ->
  exists s3 kept,
    process subs s1 = Some s3
    /\ segmentedCloud s3 = map (cell_point s3) kept
    /\ (subSegmentedCloudPure subs = 0%nat -> segmentedCloudPure s3 = [])
    /\ (subSegmentedCloudPure subs <> 0%nat ->
        segmentedCloudPure s3
        = map (labelled_point s3)
            (filter (fun p => negb (groundMat s3 (fst p) (snd p) =? 1)%Z)
               kept)).
Proof.
  intros Hfit Hstart.
  assert (Hr : reset_state s1).
  { eapply reset_state_angle; [exact Hstart|].
    apply reset_state_copy, reset_state_reset. }
  destruct (groundRemoval_state subs Hr)
    as [Hlc [Hsc [_ [Hsp [_ [Hex _]]]]]].
  unfold process.
  set (s2 := groundRemoval subs (projectPointCloud s1)) in *. clearbody s2.
  destruct (segment_pass_frame (rangeMat s2) Hfit (labelMat s2)
              (lc := labelCount s2)) as [lm [lc [Hseg [_ Hfr]]]];
    [rewrite Hlc; lia|].
  destruct (cloudSegmentation_state subs s2 Hseg) as [s3 [Hcs [Hs3 _]]].
  destruct (emit_pass_spec (set_labels s2 lm lc) Hfit) as [Hs _].
  exists s3,
    (filter (fun p => spec_segmented lm (groundMat s2) (fst p) (snd p))
       (cells N_SCAN Horizon_SCAN)).
  split; [exact Hcs|]. rewrite Hs3.
  unfold set_emitted at 1. cbn [segmentedCloud]. split.
  - rewrite Hs. cbn [segmentedCloud set_labels]. rewrite Hsc. reflexivity.
  - unfold set_emitted. cbn [segmentedCloudPure groundMat set_labels].
    split; intros Hsub.
    + rewrite Hsub. cbn [Nat.eqb negb]. exact Hsp.
    + apply Nat.eqb_neq in Hsub. rewrite Hsub. cbn [negb].
      rewrite pure_pass_filter, Hsp, filter_twice. cbn [app].
      unfold labelled_point, cell_point.
      cbn [fullCloud labelMat set_labels].
      f_equal. apply filter_ext_in. intros [r c] Hin.
      apply in_cells in Hin. cbn [fst snd]. unfold spec_segmented.
      destruct (Z.eqb_spec (groundMat s2 r c) 1) as [Hg|Hg].
      * assert (Hm1 : labelMat s2 r c = (-1)%Z).
        { apply (Hex r c Hin). now left. }
        assert (Hlm : lm r c = (-1)%Z).
        { destruct (Hfr r c) as [Heq|[H0 _]]; lia. }
        rewrite Hlm. cbn [negb]. now rewrite andb_false_r.
      * cbn [negb orb]. rewrite orb_false_r, !andb_true_r. reflexivity.
Qed.

End PureCloud.

Section Overwrite.

Context {g : Geometry} {ops : FloatOps}.

Ltac project_cases s i x y z :=
  unfold project_point, target_cell;
  destruct (Nat.leb_spec N_SCAN
              (if useCloudRing
               then ring (nth i (laserCloudInRing s)
                            {| xyz_r := (x, y, z); ring := 0 |})
               else rowOf x y z)) as [Hrow|Hrow];
  [|destruct (Nat.leb_spec Horizon_SCAN
               (if (Horizon_SCAN <=? columnOf x y)%nat
                then (columnOf x y - Horizon_SCAN)%nat else columnOf x y))
      as [Hcol|Hcol];
    [|destruct (belowMinimumRange (rangeOf x y z)) eqn:Emin]].

Lemma project_point_rings (s : State) (ip : nat * (F * F * F)) :
  laserCloudInRing (project_point s ip) = laserCloudInRing s.
Proof.
  destruct ip as [i [[x y] z]]. project_cases s i x y z; reflexivity.
Qed.

Lemma project_point_hit (s : State) (i : nat) (x y z : F) (r c : nat) :
  target_cell (laserCloudInRing s) (i, (x, y, z)) = Some (r, c) ->
  let s' := project_point s (i, (x, y, z)) in
  in_image (r, c)
  /\ fullCloud s' (c + r * Horizon_SCAN)%nat
     = {| xyz := (x, y, z); intensity := cell_key r c |}
  /\ fullInfoCloud s' (c + r * Horizon_SCAN)%nat
     = Some (x, y, z, rangeOf x y z)
  /\ rangeMat s' r c = rangeOf x y z.
Proof.
  cbv zeta. project_cases s i x y z; try discriminate.
  intros Heq. inversion Heq; subst r c.
  cbn [fullCloud fullInfoCloud rangeMat].
  rewrite !arr_set_same, mat_set_same.
  split; [split; [exact Hrow|exact Hcol]|]. auto.
Qed.

Lemma project_point_miss (s : State) (ip : nat * (F * F * F)) (r c : nat) :
  in_image (r, c) ->
  target_cell (laserCloudInRing s) ip <> Some (r, c) ->
  let s' := project_point s ip in
  fullCloud s' (c + r * Horizon_SCAN)%nat = fullCloud s (c + r * Horizon_SCAN)%nat
  /\ fullInfoCloud s' (c + r * Horizon_SCAN)%nat
     = fullInfoCloud s (c + r * Horizon_SCAN)%nat
  /\ rangeMat s' r c = rangeMat s r c.
Proof.
  intros Hrc. destruct ip as [i [[x y] z]]. cbv zeta.
  project_cases s i x y z; intros Hne; try (repeat split; reflexivity).
  cbn [fullCloud fullInfoCloud rangeMat].
  assert (Hne' : (r, c) <> (if useCloudRing
                            then ring (nth i (laserCloudInRing s)
                                         {| xyz_r := (x, y, z); ring := 0 |})
                            else rowOf x y z,
                            if (Horizon_SCAN <=? columnOf x y)%nat
                            then (columnOf x y - Horizon_SCAN)%nat
                            else columnOf x y)).
  { intros Heq. apply Hne. now rewrite Heq. }
  assert (Hk : (c + r * Horizon_SCAN)%nat
               <> ((if (Horizon_SCAN <=? columnOf x y)%nat
                    then (columnOf x y - Horizon_SCAN)%nat
                    else columnOf x y)
                   + (if useCloudRing
                      then ring (nth i (laserCloudInRing s)
                                   {| xyz_r := (x, y, z); ring := 0 |})
                      else rowOf x y z) * Horizon_SCAN)%nat).
  { intros Hk.
    destruct (cell_index_injective r _ (proj2 Hrc) Hcol Hk) as [Hr' Hc'].
    apply Hne'. now rewrite <- Hr', <- Hc'. }
  rewrite !arr_set_other by exact Hk.
  rewrite mat_set_other by exact Hne'. auto.
Qed.

Lemma project_fold_miss (rings : list PointXYZIR)
    (l : list (nat * (F * F * F))) (r c : nat) :
  in_image (r, c) ->
  (forall ip, In ip l -> target_cell rings ip <> Some (r, c)) ->
  forall s, laserCloudInRing s = rings ->
    let s' := fold_left project_point l s in
    fullCloud s' (c + r * Horizon_SCAN)%nat
    = fullCloud s (c + r * Horizon_SCAN)%nat
    /\ fullInfoCloud s' (c + r * Horizon_SCAN)%nat
       = fullInfoCloud s (c + r * Horizon_SCAN)%nat
    /\ rangeMat s' r c = rangeMat s r c.
Proof.
  intros Hrc. induction l as [|ip l IH]; intros Hl s Hs; cbv zeta.
  - auto.
  - cbn [fold_left].
    destruct (IH (fun q Hq => Hl q (or_intror Hq)) (project_point s ip))
      as [H1 [H2 H3]].
    { now rewrite project_point_rings. }
    destruct (@project_point_miss s ip r c Hrc) as [K1 [K2 K3]].
    { rewrite Hs. apply Hl. now left. }
    rewrite H1, H2, H3. auto.
Qed.

Lemma project_fold_rings (l : list (nat * (F * F * F))) (s : State) :
  laserCloudInRing (fold_left project_point l s) = laserCloudInRing s.
Proof.
  revert s. induction l as [|ip l IH]; intros s; [reflexivity|].
  cbn [fold_left]. now rewrite IH, project_point_rings.
Qed.

Lemma combine_seq_app {A} (l1 l2 : list A) (a : nat) :
  combine (seq a (length (l1 ++ l2))) (l1 ++ l2)
  = combine (seq a (length l1)) l1
    ++ combine (seq (a + length l1) (length l2)) l2.
Proof.
  revert a. induction l1 as [|x l1 IH]; intros a.
  - simpl. now rewrite Nat.add_0_r.
  - cbn [app length seq combine]. rewrite IH.
    now replace (Datatypes.S a + length l1)%nat
      with (a + Datatypes.S (length l1))%nat by lia.
Qed.

Lemma in_combine_seq {A} (l : list A) (a j : nat) (q : A) :
  In (j, q) (combine (seq a (length l)) l) ->
  (a <= j)%nat /\ nth_error l (j - a) = Some q.
Proof.
  revert a. induction l as [|x l IH]; intros a Hin; [destruct Hin|].
  cbn [length seq combine] in Hin. destruct Hin as [Heq|Hin].
  - inversion Heq; subst. split; [lia|]. now rewrite Nat.sub_diag.
  - destruct (IH _ Hin) as [Hle Hn]. split; [lia|].
    replace (j - a)%nat with (Datatypes.S (j - Datatypes.S a)) by lia.
    exact Hn.
Qed.

(** X14.  When several points of the cloud fall into the same cell,
    [projectPointCloud] keeps the last one: if point i passes the three
    tests of the loop body and goes to cell (r, c), and no point after it
    goes to that cell, then after the loop the cell holds point i in
    fullCloud (with the key of the cell), in fullInfoCloud (with its
    range) and in rangeMat, whatever the earlier points were. *)
Theorem last_point_of_a_cell_stays
    (s : State) (i : nat) (x y z : F) (r c : nat) :
  nth_error (laserCloudIn s) i = Some (x, y, z) ->
  target_cell (laserCloudInRing s) (i, (x, y, z)) = Some (r, c) ->
  (forall j p, (i < j)%nat -> nth_error (laserCloudIn s) j = Some p ->
     target_cell (laserCloudInRing s) (j, p) <> Some (r, c)) ->
  let s' := projectPointCloud s in
  in_image (r, c)
  /\ fullCloud s' (c + r * Horizon_SCAN)%nat
     = {| xyz := (x, y, z); intensity := cell_key r c |}
  /\ fullInfoCloud s' (c + r * Horizon_SCAN)%nat
     = Some (x, y, z, rangeOf x y z)
  /\ rangeMat s' r c = rangeOf x y z.
Proof.
  intros Hi Ht Hlater. cbv zeta. unfold projectPointCloud.
  destruct (nth_error_split _ _ Hi) as [l1 [l2 [Hsplit Hlen]]].
  rewrite Hsplit, combine_seq_app. cbn [length seq combine].
  rewrite fold_left_app. cbn [fold_left Nat.add]. rewrite Hlen.
  set (sa := fold_left project_point (combine (seq 0 i) l1) s).
  assert (Hra : laserCloudInRing sa = laserCloudInRing s)
    by apply project_fold_rings.
  assert (Ht' : target_cell (laserCloudInRing sa) (i, (x, y, z)) = Some (r, c))
    by now rewrite Hra.
  destruct (project_point_hit sa i x y z Ht') as [Hrc [H1 [H2 H3]]].
  split; [exact Hrc|].
  destruct (@project_fold_miss (laserCloudInRing s)
              (combine (seq (Datatypes.S i) (length l2)) l2) r c Hrc)
    with (s := project_point sa (i, (x, y, z))) as [K1 [K2 K3]].
  - intros [j p] Hin. destruct (@in_combine_seq _ l2 _ j p Hin) as [Hle Hn].
    apply (Hlater j p); [lia|]. rewrite Hsplit.
    rewrite nth_error_app2 by lia. rewrite Hlen.
    replace (j - i)%nat with (Datatypes.S (j - Datatypes.S i)) by lia.
    exact Hn.
  - now rewrite project_point_rings.
  - rewrite K1, K2, K3. auto.
Qed.

End Overwrite.

Section Independence.

Context {g : Geometry} {ops : FloatOps}.
Variable subs : Subscribers.

Ltac same_fields :=
  match goal with
  | H : same_scan _ _ |- _ => unfold same_scan in H; decompose [and] H; clear H
  end;
  unfold same_scan;
  cbn [laserCloudIn laserCloudInRing fullCloud fullInfoCloud groundCloud
       segmentedCloud segmentedCloudPure outlierCloud rangeMat labelMat
       groundMat labelCount orientation];
  repeat match goal with
         | K : ?f ?a = ?f ?b |- _ => rewrite <- K; clear K
         end;
  repeat split; auto.

Lemma same_scan_project_point (s s' : State) (ip : nat * (F * F * F)) :
  same_scan s s' -> same_scan (project_point s ip) (project_point s' ip).
Proof.
  intros H. destruct ip as [i [[x y] z]]. unfold project_point. cbv zeta.
  assert (Hrow : (if useCloudRing
                  then ring (nth i (laserCloudInRing s)
                               {| xyz_r := (x, y, z); ring := 0 |})
                  else rowOf x y z)
                 = (if useCloudRing
                    then ring (nth i (laserCloudInRing s')
                                 {| xyz_r := (x, y, z); ring := 0 |})
                    else rowOf x y z)).
  { destruct useCloudRing eqn:E; [|reflexivity].
    destruct H as [_ [H _]]. now rewrite (H E). }
  rewrite <- Hrow.
  generalize (if useCloudRing
              then ring (nth i (laserCloudInRing s)
                           {| xyz_r := (x, y, z); ring := 0 |})
              else rowOf x y z) as rowIdn.
  intros rowIdn. clear Hrow.
  destruct (N_SCAN <=? rowIdn)%nat; [exact H|].
  generalize (if (Horizon_SCAN <=? columnOf x y)%nat
              then (columnOf x y - Horizon_SCAN)%nat
              else columnOf x y) as columnIdn.
  intros columnIdn.
  destruct (Horizon_SCAN <=? columnIdn)%nat; [exact H|].
  destruct (belowMinimumRange (rangeOf x y z)); [exact H|].
  same_fields.
Qed.

Lemma same_scan_projectPointCloud (s s' : State) :
  same_scan s s' -> same_scan (projectPointCloud s) (projectPointCloud s').
Proof.
  intros H. unfold projectPointCloud.
  replace (laserCloudIn s') with (laserCloudIn s) by exact (proj1 H).
  generalize (combine (seq 0 (length (laserCloudIn s))) (laserCloudIn s)).
  intros l. revert s s' H.
  induction l as [|ip l IH]; intros s s' H; [exact H|].
  cbn [fold_left]. apply IH. now apply same_scan_project_point.
Qed.

Lemma same_scan_groundRemoval (s s' : State) :
  same_scan s s' -> same_scan (groundRemoval subs s) (groundRemoval subs s').
Proof.
  intros H. unfold groundRemoval. cbv zeta. same_fields.
Qed.

Lemma same_scan_start (s0 s0' : State) (msg : PointCloud2) (s1 : State) :
  findStartEndAngle (copyPointCloud msg (resetParameters s0)) = Some s1 ->
  exists s1',
    findStartEndAngle (copyPointCloud msg (resetParameters s0')) = Some s1'
    /\ same_scan s1 s1'.
Proof.
  unfold findStartEndAngle. cbn [laserCloudIn copyPointCloud].
  destruct (removeNaNFromPointCloud (msg_is_dense msg)
              (map xyz_r (msg_points msg))) as [|p0 l]; [discriminate|].
  intros Heq. inversion Heq; subst s1. clear Heq.
  eexists. split; [reflexivity|].
  unfold same_scan.
  cbn [laserCloudIn laserCloudInRing fullCloud fullInfoCloud groundCloud
       segmentedCloud segmentedCloudPure outlierCloud rangeMat labelMat
       groundMat labelCount orientation copyPointCloud resetParameters].
  repeat (split; [reflexivity|]). split; [|repeat split].
  intros E. now rewrite E.
Qed.

(** The emission loop on two states that hold the same scan. *)
Lemma same_scan_emitted (s s' : State) (pure : list PointXYZI) :
  fits16 g -> same_scan s s' ->
  let kept := filter (fun p => spec_segmented (labelMat s) (groundMat s)
                                 (fst p) (snd p))
                (cells N_SCAN Horizon_SCAN) in
  let s3 := set_emitted s (emit_pass s) pure in
  let s3' := set_emitted s' (emit_pass s') pure in
  same_scan s3 s3'
  /\ segmentedCloud s3 = segmentedCloud s ++ map (cell_point s) kept
  /\ (forall r, (r < N_SCAN)%nat ->
        startRingIndex s3 r = startRingIndex s3' r
        /\ endRingIndex s3 r = endRingIndex s3' r)
  /\ forall k, (k < length kept)%nat ->
       segmentedCloudColInd s3 k = segmentedCloudColInd s3' k
       /\ segmentedCloudGroundFlag s3 k = segmentedCloudGroundFlag s3' k
       /\ segmentedCloudRange s3 k = segmentedCloudRange s3' k.
Proof.
  intros Hfit H. cbv zeta.
  destruct (emit_pass_spec s Hfit) as [Hs [Ho Hi]].
  destruct (emit_pass_spec s' Hfit) as [Hs' [Ho' Hi']].
  destruct (arrays_follow_rows s Hfit N_SCAN) as [_ [Ha _]].
  destruct (arrays_follow_rows s' Hfit N_SCAN) as [_ [Ha' _]].
  fold (emit_pass s) in Ha. fold (emit_pass s') in Ha'.
  cbv zeta in Hs, Ho, Hs', Ho'. unfold cell_point in *.
  destruct H as (H1 & H2 & H3 & H4 & H5 & H6 & H7 & H8 & H9 & H10 & H11
                 & H12 & H13).
  rewrite <- H3, <- H6, <- H10, <- H11 in Hs'.
  rewrite <- H3, <- H8, <- H10, <- H11 in Ho'.
  split; [|split; [exact Hs|split]].
  - unfold same_scan, set_emitted.
    cbn [laserCloudIn laserCloudInRing fullCloud fullInfoCloud groundCloud
         segmentedCloud segmentedCloudPure outlierCloud rangeMat labelMat
         groundMat labelCount orientation].
    rewrite Hs, Hs', Ho, Ho'. repeat split; assumption.
  - intros r Hr. unfold set_emitted. cbn [startRingIndex endRingIndex].
    destruct (Hi r Hr) as [-> ->]. destruct (Hi' r Hr) as [-> ->].
    rewrite <- H10, <- H11. split; reflexivity.
  - intros k Hk. unfold set_emitted.
    cbn [segmentedCloudColInd segmentedCloudGroundFlag segmentedCloudRange].
    destruct (Ha k Hk) as [-> [-> ->]].
    rewrite <- H10, <- H11 in Ha'.
    destruct (Ha' k Hk) as [-> [-> ->]].
    rewrite <- ?H9, <- ?H11. repeat split.
Qed.

(** X15.  What a scan produces does not depend on the scans before it:
    whatever the state the node was in, the handler reaches the end of
    [publishCloud] with the same clouds, images, label count and
    orientation, the same ring indices for every beam, and the same
    entries of the per-point metadata arrays at the positions of the
    points of the segmented cloud.  Only the entries of these arrays past
    the last segmented point, and the log, carry over from earlier
    scans. *)
Theorem scan_result_independent_of_history
    (s0 s0' : State) (msg : PointCloud2) (s1 : State) :
  fits16 g ->
  findStartEndAngle (copyPointCloud msg (resetParameters s0)) = Some s1 ->
  exists s4 s4',
    handle_scan subs msg (resetParameters s0) = Some s4
    /\ handle_scan subs msg (resetParameters s0') = Some s4'
    /\ same_scan s4 s4'
    /\ (forall r, (r < N_SCAN)%nat ->
          startRingIndex s4 r = startRingIndex s4' r
          /\ endRingIndex s4 r = endRingIndex s4' r)
    /\ forall k, (k < length (segmentedCloud s4))%nat ->
         segmentedCloudColInd s4 k = segmentedCloudColInd s4' k
         /\ segmentedCloudGroundFlag s4 k = segmentedCloudGroundFlag s4' k
         /\ segmentedCloudRange s4 k = segmentedCloudRange s4' k.
Proof.
  intros Hfit Hstart.
  destruct (same_scan_start s0 s0' msg Hstart) as [s1' [Hstart' H1]].
  assert (Hr : reset_state s1).
  { eapply reset_state_angle; [exact Hstart|].
    apply reset_state_copy, reset_state_reset. }
  destruct (groundRemoval_state subs Hr) as [Hlc [Hsc _]].
  assert (H2 : same_scan (groundRemoval subs (projectPointCloud s1))
                 (groundRemoval subs (projectPointCloud s1'))).
  { apply same_scan_groundRemoval, same_scan_projectPointCloud, H1. }
  unfold handle_scan. rewrite Hstart, Hstart'. unfold process.
  set (s2 := groundRemoval subs (projectPointCloud s1)) in *.
  set (s2' := groundRemoval subs (projectPointCloud s1')) in *.
  clearbody s2 s2'.
  destruct (segment_pass_total (rangeMat s2) Hfit (labelMat s2)
              (lc := labelCount s2)) as [lm [lc [Hseg _]]];
    [rewrite Hlc; lia|].
  assert (Hseg' : segment_pass (rangeMat s2') (labelMat s2') (labelCount s2')
                  = Some (lm, lc)).
  { destruct H2 as (_ & _ & _ & _ & _ & _ & _ & _ & K9 & K10 & _ & K12 & _).
    now rewrite <- K9, <- K10, <- K12. }
  destruct (cloudSegmentation_state subs s2 Hseg) as [s3 [Hcs [Hs3 _]]].
  destruct (cloudSegmentation_state subs s2' Hseg') as [s3' [Hcs' [Hs3' _]]].
  rewrite Hcs, Hcs'. exists (publishCloud subs s3), (publishCloud subs s3').
  split; [reflexivity|]. split; [reflexivity|].
  assert (H2l : same_scan (set_labels s2 lm lc) (set_labels s2' lm lc)).
  { clear - H2. unfold set_labels. same_fields. }
  assert (Hpure : (if negb (subSegmentedCloudPure subs =? 0)%nat
                   then pure_pass lm (fullCloud s2') (segmentedCloudPure s2')
                   else segmentedCloudPure s2')
                  = (if negb (subSegmentedCloudPure subs =? 0)%nat
                     then pure_pass lm (fullCloud s2) (segmentedCloudPure s2)
                     else segmentedCloudPure s2)).
  { destruct H2 as (_ & _ & K3 & _ & _ & _ & K7 & _). now rewrite K3, K7. }
  rewrite Hpure in Hs3'.
  destruct (same_scan_emitted
              (if negb (subSegmentedCloudPure subs =? 0)%nat
               then pure_pass lm (fullCloud s2) (segmentedCloudPure s2)
               else segmentedCloudPure s2) Hfit H2l)
    as [Hsame [Hcloud [Hring Harr]]].
  rewrite <- Hs3, <- Hs3' in Hsame, Hring, Harr. rewrite <- Hs3 in Hcloud.
  split; [|split].
  - clear - Hsame. unfold publishCloud. same_fields.
  - exact Hring.
  - intros k Hk. apply Harr.
    unfold publishCloud in Hk. cbn [segmentedCloud] in Hk.
    rewrite Hcloud in Hk. cbn [segmentedCloud set_labels] in Hk.
    rewrite Hsc in Hk. cbn [app] in Hk. rewrite length_map in Hk.
    exact Hk.
Qed.

End Independence.

Section ClusterSize.

Context {g : Geometry} {ops : FloatOps}.
Variable rm : Mat F.
Hypothesis Hfit : fits16 g.

(** A call of [labelComponents] with the size of the cluster it accepts. *)
Lemma labelComponents_sized (lm : Mat Z) (lc : Z) (row col : nat)
    (lm' : Mat Z) (lc' : Z) :
  lc <> 0%Z -> in_image (row, col) -> lm row col = 0%Z ->
  labelComponents rm lm lc row col = Some (lm', lc') ->
  exists pushed : list (nat * nat),
    NoDup pushed
    /\ (forall i j, In (i, j) pushed -> in_image (i, j) /\ lm i j = 0%Z)
    /\ (forall i j, ~ In (i, j) pushed -> lm' i j = lm i j)
    /\ ((lc' = (lc + 1)%Z
         /\ (forall i j, In (i, j) pushed -> lm' i j = lc)
         /\ (Nat.min 30 segmentValidPointNum <= length pushed)%nat)
        \/ (lc' = lc
            /\ forall i j, In (i, j) pushed -> lm' i j = SENTINEL_DROP)).
Proof.
  intros Hlc Himg H0 Hlab.
  destruct (@bfs_from_seed g ops rm lm lc (row, col) Hfit Hlc Himg H0)
    as [s [Hb [HI _]]].
  cbn [fst snd] in Hb. unfold labelComponents in Hlab. rewrite Hb in Hlab.
  exists (b_pushed s). split; [exact (inv_nodup HI)|]. split.
  { intros i j Hin. split; [exact (inv_image HI _ Hin)|exact (inv_zero HI _ _ Hin)]. }
  destruct (feasibleSegment s) eqn:Hf; inversion Hlab; subst lm' lc'.
  - split; [exact (inv_frame HI)|]. left. split; [reflexivity|].
    split; [exact (inv_label HI)|].
    unfold feasibleSegment in Hf.
    destruct (Nat.leb_spec 30 (length (b_pushed s))) as [H30|H30]; [lia|].
    destruct (Nat.leb_spec segmentValidPointNum (length (b_pushed s)));
      [lia|discriminate].
  - split.
    + intros i j Hnin. rewrite mark_invalid_out by exact Hnin.
      now apply (inv_frame HI).
    + right. split; [reflexivity|].
      intros i j Hin. now apply mark_invalid_in.
Qed.

(** The labelling loop: every cluster id in use labels enough cells. *)
Lemma segment_pass_sizes (lm : Mat Z) :
  exists lm' lc',
    segment_pass rm lm 1 = Some (lm', lc')
    /\ forall k, (1 <= k < lc')%Z -> k <> SENTINEL_DROP ->
         (Nat.min 30 segmentValidPointNum
          <= length (filter (fun p => (lm' (fst p) (snd p) =? k)%Z)
                       (cells N_SCAN Horizon_SCAN)))%nat.
Proof.
  unfold segment_pass. rewrite for_range_cells.
  destruct (@segment_cells_ind _ _ rm Hfit
              (fun _ m c =>
                 forall k, (1 <= k < c)%Z -> k <> SENTINEL_DROP ->
                   (Nat.min 30 segmentValidPointNum
                    <= length (filter (fun p => (m (fst p) (snd p) =? k)%Z)
                                 (cells N_SCAN Horizon_SCAN)))%nat)
              (cells N_SCAN Horizon_SCAN) lm 1%Z)
    as [m [c [Hfold [_ HP]]]];
    [exact cells_in_image|lia| | | |].
  - intros k Hk. lia.
  - intros pre p post m c _ _ HP _. exact HP.
  - intros pre p post m c m' c' Hl Hc HP Hz Hlab.
    assert (Hp : in_image (fst p, snd p)).
    { destruct p. apply cells_in_image. rewrite Hl.
      apply in_app_iff. right. now left. }
    destruct (labelComponents_sized m (lc := c) (row := fst p) (col := snd p)
                ltac:(lia) Hp Hz Hlab)
      as [pushed [Hnd [Hin [Hout Hres]]]].
    assert (Hsame : forall k, (1 <= k)%Z -> k <> SENTINEL_DROP -> k <> c ->
              (forall i j, In (i, j) pushed -> m' i j = c
                                               \/ m' i j = SENTINEL_DROP) ->
              filter (fun q => (m' (fst q) (snd q) =? k)%Z)
                (cells N_SCAN Horizon_SCAN)
              = filter (fun q => (m (fst q) (snd q) =? k)%Z)
                  (cells N_SCAN Horizon_SCAN)).
    { intros k Hk1 Hkd Hkc Hval. apply filter_ext_in. intros [i j] _.
      cbn [fst snd].
      destruct (in_dec cell_eq_dec (i, j) pushed) as [Hi|Hi].
      - destruct (Hin i j Hi) as [_ Hm].
        destruct (Z.eqb_spec (m i j) k) as [E|E]; [lia|].
        destruct (Z.eqb_spec (m' i j) k) as [E'|E']; [|reflexivity].
        destruct (Hval i j Hi); congruence.
      - now rewrite (Hout i j Hi). }
    destruct Hres as [[-> [Hlab' Hsize]]|[-> Hlab']]; intros k Hk Hkd.
    + destruct (Z.eq_dec k c) as [->|Hkc].
      * etransitivity; [exact Hsize|]. apply NoDup_incl_length; [exact Hnd|].
        intros [i j] Hi. apply filter_In. split.
        -- apply in_cells. exact (proj1 (Hin i j Hi)).
        -- cbn [fst snd]. rewrite (Hlab' i j Hi). apply Z.eqb_refl.
      * rewrite (Hsame k) by (try lia; try assumption;
                              intros i j Hi; left; now apply Hlab').
        apply HP; [lia|exact Hkd].
    + rewrite (Hsame k) by (try lia; try assumption;
                            intros i j Hi; right; now apply Hlab').
      apply HP; [lia|exact Hkd].
  - exists m, c. split; [exact Hfold|exact HP].
Qed.

End ClusterSize.

Section ClusterSizes.

Context {g : Geometry} {ops : FloatOps}.
Variable subs : Subscribers.

(** X16.  After the segmentation of a scan, every cluster id in use, that
    is every k with 1 <= k < labelCount other than the drop marker, labels
    at least min(30, segmentValidPointNum) cells of the image: the cells
    of an accepted cluster are never relabelled by a later call of
    [labelComponents]. *)
Theorem accepted_clusters_have_min_size
    (s0 : State) (msg : PointCloud2) (s1 : State) :
  fits16 g ->
  findStartEndAngle (copyPointCloud msg (resetParameters s0)) = Some s1 ->
  exists s3,
    process subs s1 = Some s3
    /\ forall k, (1 <= k < labelCount s3)%Z -> k <> SENTINEL_DROP ->
         (Nat.min 30 segmentValidPointNum
          <= length (filter (fun p => (labelMat s3 (fst p) (snd p) =? k)%Z)
                       (cells N_SCAN Horizon_SCAN)))%nat.
Proof.
  intros Hfit Hstart.
  assert (Hr : reset_state s1).
  { eapply reset_state_angle; [exact Hstart|].
    apply reset_state_copy, reset_state_reset. }
  destruct (groundRemoval_state subs Hr) as [Hlc _].
  unfold process.
  set (s2 := groundRemoval subs (projectPointCloud s1)) in *. clearbody s2.
  destruct (segment_pass_sizes (rangeMat s2) Hfit (labelMat s2))
    as [lm [lc [Hseg Hsizes]]].
  rewrite <- Hlc in Hseg.
  destruct (cloudSegmentation_state subs s2 Hseg)
    as [s3 [Hcs [_ [Hlm [Hlc3 _]]]]].
  exists s3. split; [exact Hcs|]. rewrite Hlm, Hlc3. exact Hsizes.
Qed.

End ClusterSizes.

(** * The theorems at the VLP-16 geometry, on the sample data *)

#[local] Existing Instance VLP16.
#[local] Existing Instance SampleOps.

Lemma excluded_label_iff_ground_or_empty_witness :
  fits16 VLP16
  /\ findStartEndAngle (copyPointCloud sample_msg (resetParameters allocateMemory))
     = Some sample_start
  /\ (let s2 := groundRemoval no_subscribers (projectPointCloud sample_start) in
      excluded_iff_ground_or_empty s2
      /\ (forall visited rest,
            cells N_SCAN Horizon_SCAN = visited ++ rest ->
            exists lm lc,
              segment_cells (rangeMat s2) visited (labelMat s2) (labelCount s2)
              = Some (lm, lc)
              /\ excluded_iff_ground_or_empty (set_labels s2 lm lc))
      /\ exists s3,
           cloudSegmentation no_subscribers s2 = Some s3
           /\ excluded_iff_ground_or_empty s3
           /\ excluded_iff_ground_or_empty (publishCloud no_subscribers s3)).
Proof.
  split; [unfold fits16; simpl; lia|]. split; [reflexivity|].
  apply (@excluded_label_iff_ground_or_empty VLP16 SampleOps no_subscribers
           allocateMemory sample_msg sample_start);
    [unfold fits16; simpl; lia|reflexivity].
Defined.

Lemma no_cell_left_unlabelled_witness :
  fits16 VLP16
  /\ findStartEndAngle (copyPointCloud scene_msg (resetParameters allocateMemory))
     = Some scene_start
  /\ exists s3,
       process all_subscribers scene_start = Some s3
       /\ forall r c, in_image (r, c) ->
            labelMat s3 r c <> 0%Z
            /\ ((labelMat s3 r c = (-1)%Z
                 /\ (groundMat s3 r c = 1%Z
                     \/ feqb (rangeMat s3 r c) FLT_MAX = true))
                \/ (groundMat s3 r c <> 1%Z
                    /\ feqb (rangeMat s3 r c) FLT_MAX = false
                    /\ ((1 <= labelMat s3 r c < labelCount s3)%Z
                        \/ labelMat s3 r c = SENTINEL_DROP))).
Proof.
  split; [unfold fits16; simpl; lia|]. split; [reflexivity|].
  apply (@no_cell_left_unlabelled VLP16 SampleOps all_subscribers
           allocateMemory scene_msg scene_start);
    [unfold fits16; simpl; lia|reflexivity].
Defined.

Lemma cluster_ids_dense_witness :
  fits16 VLP16
  /\ (Z.of_nat (N_SCAN * Horizon_SCAN) < SENTINEL_DROP)%Z
  /\ findStartEndAngle (copyPointCloud scene_msg (resetParameters allocateMemory))
     = Some scene_start
  /\ exists s3 N,
       process all_subscribers scene_start = Some s3
       /\ (0 <= N)%Z /\ labelCount s3 = (N + 1)%Z
       /\ (forall v,
             (exists r c, in_image (r, c) /\ labelMat s3 r c = v
                          /\ (0 < v)%Z /\ v <> SENTINEL_DROP)
             <-> (1 <= v <= N)%Z)
       /\ forall p, In p (segmentedCloudPure s3) ->
            exists r c,
              in_image (r, c)
              /\ p = {| xyz := xyz (cell_point s3 (r, c));
                        intensity := inject_Z (labelMat s3 r c) |}
              /\ (1 <= labelMat s3 r c <= N)%Z.
Proof.
  split; [unfold fits16; simpl; lia|].
  split; [vm_compute; reflexivity|]. split; [reflexivity|].
  apply (@cluster_ids_dense VLP16 SampleOps all_subscribers
           allocateMemory scene_msg scene_start);
    [unfold fits16; simpl; lia|vm_compute; reflexivity|reflexivity].
Defined.

Lemma emission_follows_rule_witness :
  fits16 VLP16
  /\ (0 < labelCount initial)%Z
  /\ exists s3,
       cloudSegmentation no_subscribers initial = Some s3
       /\ segmentedCloud s3
          = segmentedCloud initial
            ++ map (cell_point s3)
                 (filter (fun p => spec_segmented (labelMat s3) (groundMat s3)
                                     (fst p) (snd p))
                    (cells N_SCAN Horizon_SCAN))
       /\ outlierCloud s3
          = outlierCloud initial
            ++ map (cell_point s3)
                 (filter (fun p => spec_outlier (labelMat s3) (groundMat s3)
                                     (fst p) (snd p))
                    (cells N_SCAN Horizon_SCAN)).
Proof.
  split; [unfold fits16; simpl; lia|]. split; [reflexivity|].
  apply (@emission_follows_rule VLP16 SampleOps no_subscribers initial);
    [unfold fits16; simpl; lia|reflexivity].
Defined.

Lemma not_dense_scan_is_processed_witness :
  fits16 VLP16
  /\ useCloudRing = true
  /\ msg_is_dense sample_msg = false
  /\ findStartEndAngle (copyPointCloud sample_msg (resetParameters allocateMemory))
     = Some sample_start
  /\ exists s4,
       handle_scan no_subscribers sample_msg (resetParameters allocateMemory)
       = Some s4
       /\ ros s4
          = ros allocateMemory ++ [ROS_ERROR; ros_shutdown]
            ++ published no_subscribers.
Proof.
  split; [unfold fits16; simpl; lia|]. split; [reflexivity|].
  split; [reflexivity|]. split; [reflexivity|].
  apply (@not_dense_scan_is_processed VLP16 SampleOps no_subscribers
           allocateMemory sample_msg sample_start);
    [unfold fits16; simpl; lia|reflexivity|reflexivity|reflexivity].
Defined.

Lemma reset_keeps_scan_metadata_witness :
  fits16 VLP16
  /\ findStartEndAngle (copyPointCloud sample_msg (resetParameters allocateMemory))
     = Some sample_start
  /\ exists s4 s5,
       handle_scan no_subscribers sample_msg (resetParameters allocateMemory)
       = Some s4
       /\ cloudHandler no_subscribers sample_msg (resetParameters allocateMemory)
          = Some s5
       /\ reset_state s5 /\ laserCloudIn s5 = []
       /\ startRingIndex s5 = startRingIndex s4
       /\ endRingIndex s5 = endRingIndex s4
       /\ segmentedCloudGroundFlag s5 = segmentedCloudGroundFlag s4
       /\ segmentedCloudColInd s5 = segmentedCloudColInd s4
       /\ segmentedCloudRange s5 = segmentedCloudRange s4.
Proof.
  split; [unfold fits16; simpl; lia|]. split; [reflexivity|].
  apply (@reset_keeps_scan_metadata VLP16 SampleOps no_subscribers
           allocateMemory sample_msg sample_start);
    [unfold fits16; simpl; lia|reflexivity].
Defined.

Lemma orientationDiff_range_witness :
  (forall y x, - PI_f <= axis_atan2 y x <= PI_f)
  /\ half_turn_cloud <> []
  /\ exists s e d,
       findStartEndAngle32 axis_atan2 half_turn_cloud = Some (s, e, d)
       /\ (PI - 2 / 1000000 <= Q2R d <= 3 * PI + 2 / 1000000)%R.
Proof.
  assert (Hat : forall y x, - PI_f <= axis_atan2 y x <= PI_f).
  { intros y x. unfold axis_atan2, sample_atan2.
    destruct (Qeq_bool y 0); [destruct (Qltb x 0); split; discriminate|].
    destruct (Qeq_bool x 0); [destruct (Qltb y 0); split; discriminate|].
    split; discriminate. }
  split; [exact Hat|]. split; [discriminate|].
  apply (@orientationDiff_range axis_atan2 half_turn_cloud);
    [exact Hat|discriminate].
Defined.

Lemma cell_key_round_trip_witness :
  (Z.of_nat N_SCAN <= 1024)%Z
  /\ (Z.of_nat Horizon_SCAN <= 10000)%Z
  /\ findStartEndAngle (copyPointCloud sample_msg (resetParameters allocateMemory))
     = Some sample_start
  /\ Qeq_bool
       (intensity (fullCloud (projectPointCloud sample_start)
                     (1350 + 7 * 1800)%nat)) (-1) = false
  /\ exists r c,
       in_image (r, c) /\ (1350 + 7 * 1800)%nat = (c + r * Horizon_SCAN)%nat
       /\ intensity (fullCloud (projectPointCloud sample_start)
                       (1350 + 7 * 1800)%nat) = cell_key r c
       /\ - (31 # 1000000)
          <= cell_key r c
             - (inject_Z (Z.of_nat r) + inject_Z (Z.of_nat c) / 10000)
          <= 31 # 1000000
       /\ decode_key (intensity (fullCloud (projectPointCloud sample_start)
                                   (1350 + 7 * 1800)%nat))
          = (Z.of_nat r, Z.of_nat c).
Proof.
  split; [simpl; lia|]. split; [simpl; lia|]. split; [reflexivity|].
  split; [vm_compute; reflexivity|].
  apply (@cell_key_round_trip VLP16 SampleOps allocateMemory sample_msg
           sample_start (1350 + 7 * 1800)%nat);
    [simpl; lia|simpl; lia|reflexivity|vm_compute; reflexivity].
Defined.

Lemma neighbor_wraps_columns_only_witness :
  In (0, -1)%Z neighborIterator
  /\ in_image (0, 0)%nat
  /\ neighbor (0, 0)%nat (0, -1)%Z
     = if ((0 <=? Z.of_nat 0%nat + fst (0, -1))
           && (Z.of_nat 0%nat + fst (0, -1) <? Z.of_nat N_SCAN))%Z
       then Some (Z.to_nat (Z.of_nat 0%nat + fst (0, -1)%Z),
                  Z.to_nat ((Z.of_nat 0%nat + snd (0, -1)%Z)
                            mod Z.of_nat Horizon_SCAN))
       else None.
Proof.
  split; [simpl; tauto|]. split; [unfold in_image; simpl; lia|].
  apply (@neighbor_wraps_columns_only VLP16 0%nat 0%nat (0, -1)%Z);
    [simpl; tauto|unfold in_image; simpl; lia].
Defined.

Lemma scratch_arrays_suffice_witness :
  fits16 VLP16
  /\ 1%Z <> 0%Z
  /\ in_image (8, 0)%nat
  /\ pole_label 8%nat 0%nat = 0%Z
  /\ exists s,
       bfs bfs_fuel pole_range 1%Z (bfs_init pole_label 8%nat 0%nat) = Some s
       /\ b_queue s = []
       /\ NoDup (b_pushed s)
       /\ (1 <= length (b_pushed s) <= N_SCAN * Horizon_SCAN)%nat.
Proof.
  split; [unfold fits16; simpl; lia|]. split; [lia|].
  split; [unfold in_image; simpl; lia|]. split; [reflexivity|].
  apply (@scratch_arrays_suffice VLP16 SampleOps pole_range pole_label 1%Z
           8%nat 0%nat);
    [unfold fits16; simpl; lia|lia|unfold in_image; simpl; lia|reflexivity].
Defined.


Lemma cloudHandler_returns_iff_cloud_not_empty_witness :
  fits16 VLP16
  /\ (let finite := fun p : F * F * F => let '(x, y, z) := p in finite3 x y z in
      let cloud :=
        laserCloudIn (copyPointCloud nan_msg (resetParameters allocateMemory)) in
      ((exists s5,
          cloudHandler all_subscribers nan_msg (resetParameters allocateMemory)
          = Some s5)
       <-> cloud <> [])
      /\ (msg_is_dense nan_msg = true ->
          (cloud <> [] <-> msg_points nan_msg <> []))
      /\ (msg_is_dense nan_msg = false ->
          (cloud <> []
           <-> existsb finite (map xyz_r (msg_points nan_msg)) = true))).
Proof.
  split; [unfold fits16; simpl; lia|].
  apply (@cloudHandler_returns_iff_cloud_not_empty VLP16 SampleOps
           all_subscribers allocateMemory nan_msg).
  unfold fits16; simpl; lia.
Defined.

Lemma full_turn_difference_witness :
  - PI_f <= PI_f <= PI_f
  /\ (let e := rnd32 (rnd64 (- PI_f + rnd64 (2 * M_PI))) in
      bracket32 PI_f PI_f = (- PI_f, e, rnd32 (e - - PI_f))
      /\ (2 * PI - 1 / 1000000 <= Q2R (rnd32 (e - - PI_f))
          <= 2 * PI + 1 / 1000000)%R).
Proof.
  split; [split; discriminate|].
  apply (@full_turn_difference PI_f). split; discriminate.
Defined.

Lemma ring_indices_delimit_rows_witness :
  fits16 VLP16
  /\ (0 < labelCount initial)%Z
  /\ exists s3 appended,
       cloudSegmentation no_subscribers initial = Some s3
       /\ segmentedCloud s3 = segmentedCloud initial ++ appended
       /\ (length appended <= N_SCAN * Horizon_SCAN)%nat
       /\ forall r, (r < N_SCAN)%nat ->
            exists before row after,
              appended = before ++ row ++ after
              /\ row = map (cell_point s3)
                         (filter (fun p => spec_segmented (labelMat s3)
                                             (groundMat s3) (fst p) (snd p))
                            (map (pair r) (seq 0 Horizon_SCAN)))
              /\ Z.of_nat (length before) = (startRingIndex s3 r - 4)%Z
              /\ (Z.of_nat (length before + length row) - 1
                  = endRingIndex s3 r + 5)%Z
              /\ (endRingIndex s3 r - startRingIndex s3 r
                  = Z.of_nat (length row) - 10)%Z
              /\ ((Datatypes.S r < N_SCAN)%nat ->
                  startRingIndex s3 (Datatypes.S r)
                  = (endRingIndex s3 r + 10)%Z).
Proof.
  split; [unfold fits16; simpl; lia|]. split; [reflexivity|].
  apply (@ring_indices_delimit_rows VLP16 SampleOps no_subscribers initial);
    [unfold fits16; simpl; lia|reflexivity].
Defined.

Lemma groundMat_closed_form_witness :
  groundMat (projectPointCloud sample_start) = (fun _ _ => 0%Z)
  /\ groundMat (groundRemoval no_subscribers (projectPointCloud sample_start))
       7%nat 1350%nat
     = ground_value (fullCloud (projectPointCloud sample_start)) 7%nat 1350%nat.
Proof.
  assert (H : groundMat (projectPointCloud sample_start) = (fun _ _ => 0%Z)).
  { rewrite (proj1 (proj2 (projectPointCloud_frame sample_start))).
    reflexivity. }
  split; [exact H|].
  apply (@groundMat_closed_form VLP16 SampleOps no_subscribers
           (projectPointCloud sample_start) 7%nat 1350%nat).
  exact H.
Defined.

Lemma projected_images_agree_witness :
  findStartEndAngle (copyPointCloud sample_msg (resetParameters allocateMemory))
  = Some sample_start
  /\ in_image (7, 1350)%nat
  /\ cell_projected (projectPointCloud sample_start)
       (laserCloudIn sample_start) 7%nat 1350%nat.
Proof.
  split; [reflexivity|]. split; [unfold in_image; simpl; lia|].
  apply (@projected_images_agree VLP16 SampleOps allocateMemory sample_msg
           sample_start 7%nat 1350%nat);
    [reflexivity|unfold in_image; simpl; lia].
Defined.

Lemma groundCloud_lists_ground_cells_witness :
  groundMat (projectPointCloud scene_start) = (fun _ _ => 0%Z)
  /\ (let s2 := groundRemoval all_subscribers (projectPointCloud scene_start) in
      (subGroundCloud all_subscribers = 0%nat
       -> groundCloud s2 = groundCloud (projectPointCloud scene_start))
      /\ (subGroundCloud all_subscribers <> 0%nat ->
          groundCloud s2
          = groundCloud (projectPointCloud scene_start)
            ++ map (cell_point s2)
                 (filter (fun p => (groundMat s2 (fst p) (snd p) =? 1)%Z)
                    (cells (Datatypes.S groundScanInd) Horizon_SCAN)))
      /\ (forall r c, groundMat s2 r c = 1%Z ->
            (r <= groundScanInd)%nat /\ (c < Horizon_SCAN)%nat)).
Proof.
  assert (H : groundMat (projectPointCloud scene_start) = (fun _ _ => 0%Z)).
  { rewrite (proj1 (proj2 (projectPointCloud_frame scene_start))).
    reflexivity. }
  split; [exact H|].
  apply (@groundCloud_lists_ground_cells VLP16 SampleOps all_subscribers
           (projectPointCloud scene_start)).
  exact H.
Defined.

Lemma emitted_points_are_returns_witness :
  fits16 VLP16
  /\ findStartEndAngle (copyPointCloud scene_msg (resetParameters allocateMemory))
     = Some scene_start
  /\ exists s3,
       process all_subscribers scene_start = Some s3
       /\ forall p, In p (segmentedCloud s3) \/ In p (outlierCloud s3) ->
            exists r c x y z,
              in_image (r, c) /\ In (x, y, z) (laserCloudIn scene_start)
              /\ p = {| xyz := (x, y, z); intensity := cell_key r c |}.
Proof.
  split; [unfold fits16; simpl; lia|]. split; [reflexivity|].
  apply (@emitted_points_are_returns VLP16 SampleOps all_subscribers
           allocateMemory scene_msg scene_start);
    [unfold fits16; simpl; lia|reflexivity].
Defined.

Lemma labelComponents_labels_region_witness :
  fits16 VLP16
  /\ 1%Z <> 0%Z
  /\ in_image (8, 0)%nat
  /\ pole_label 8%nat 0%nat = 0%Z
  /\ exists cluster lm' lc',
       labelComponents pole_range pole_label 1%Z 8%nat 0%nat = Some (lm', lc')
       /\ NoDup cluster
       /\ (forall p, In p cluster <-> reached pole_range pole_label (8, 0)%nat p)
       /\ (if (30 <=? length cluster)%nat
              || ((segmentValidPointNum <=? length cluster)%nat
                  && (segmentValidLineNum
                      <=? beams_beside_seed cluster (8, 0)%nat)%nat)
           then lc' = (1 + 1)%Z
                /\ forall i j, In (i, j) cluster -> lm' i j = 1%Z
           else lc' = 1%Z
                /\ forall i j, In (i, j) cluster -> lm' i j = SENTINEL_DROP)
       /\ forall i j, ~ In (i, j) cluster -> lm' i j = pole_label i j.
Proof.
  split; [unfold fits16; simpl; lia|]. split; [lia|].
  split; [unfold in_image; simpl; lia|]. split; [reflexivity|].
  apply (@labelComponents_labels_region VLP16 SampleOps pole_range pole_label
           1%Z 8%nat 0%nat);
    [unfold fits16; simpl; lia|lia|unfold in_image; simpl; lia|reflexivity].
Defined.

Lemma metadata_parallel_to_segmented_cloud_witness :
  fits16 VLP16
  /\ (0 < labelCount initial)%Z
  /\ exists s3 kept,
       cloudSegmentation no_subscribers initial = Some s3
       /\ segmentedCloud s3 = segmentedCloud initial ++ map (cell_point s3) kept
       /\ (forall k, (k < length kept)%nat ->
             let r := fst (nth k kept (0, 0)%nat) in
             let c := snd (nth k kept (0, 0)%nat) in
             in_image (r, c)
             /\ segmentedCloudColInd s3 k = c
             /\ segmentedCloudGroundFlag s3 k = (groundMat s3 r c =? 1)%Z
             /\ segmentedCloudRange s3 k = rangeMat s3 r c)
       /\ forall k, (length kept <= k)%nat ->
            segmentedCloudColInd s3 k = segmentedCloudColInd initial k
            /\ segmentedCloudGroundFlag s3 k = segmentedCloudGroundFlag initial k
            /\ segmentedCloudRange s3 k = segmentedCloudRange initial k.
Proof.
  split; [unfold fits16; simpl; lia|]. split; [reflexivity|].
  apply (@metadata_parallel_to_segmented_cloud VLP16 SampleOps no_subscribers
           initial);
    [unfold fits16; simpl; lia|reflexivity].
Defined.

Lemma pure_cloud_is_segmented_without_ground_witness :
  fits16 VLP16
  /\ findStartEndAngle (copyPointCloud scene_msg (resetParameters allocateMemory))
     = Some scene_start
  /\ exists s3 kept,
       process all_subscribers scene_start = Some s3
       /\ segmentedCloud s3 = map (cell_point s3) kept
       /\ (subSegmentedCloudPure all_subscribers = 0%nat
           -> segmentedCloudPure s3 = [])
       /\ (subSegmentedCloudPure all_subscribers <> 0%nat ->
           segmentedCloudPure s3
           = map (labelled_point s3)
               (filter (fun p => negb (groundMat s3 (fst p) (snd p) =? 1)%Z)
                  kept)).
Proof.
  split; [unfold fits16; simpl; lia|]. split; [reflexivity|].
  apply (@pure_cloud_is_segmented_without_ground VLP16 SampleOps
           all_subscribers allocateMemory scene_msg scene_start);
    [unfold fits16; simpl; lia|reflexivity].
Defined.

Lemma last_point_of_a_cell_stays_witness :
  nth_error (laserCloudIn sample_start) 0%nat = Some (Some 0, Some 10, Some 0)
  /\ target_cell (laserCloudInRing sample_start)
       (0%nat, (Some 0, Some 10, Some 0)) = Some (7%nat, 1350%nat)
  /\ (forall j p, (0 < j)%nat -> nth_error (laserCloudIn sample_start) j = Some p ->
        target_cell (laserCloudInRing sample_start) (j, p)
        <> Some (7%nat, 1350%nat))
  /\ (let s' := projectPointCloud sample_start in
      in_image (7, 1350)%nat
      /\ fullCloud s' (1350 + 7 * Horizon_SCAN)%nat
         = {| xyz := (Some 0, Some 10, Some 0);
              intensity := cell_key 7%nat 1350%nat |}
      /\ fullInfoCloud s' (1350 + 7 * Horizon_SCAN)%nat
         = Some (Some 0, Some 10, Some 0, rangeOf (Some 0) (Some 10) (Some 0))
      /\ rangeMat s' 7%nat 1350%nat = rangeOf (Some 0) (Some 10) (Some 0)).
Proof.
  assert (Hlater : forall j p, (0 < j)%nat ->
            nth_error (laserCloudIn sample_start) j = Some p ->
            target_cell (laserCloudInRing sample_start) (j, p)
            <> Some (7%nat, 1350%nat)).
  { intros j p Hj Hn. destruct j as [|[|j]]; [lia|discriminate|discriminate]. }
  split; [reflexivity|]. split; [vm_compute; reflexivity|].
  split; [exact Hlater|].
  apply (@last_point_of_a_cell_stays VLP16 SampleOps sample_start 0%nat
           (Some 0) (Some 10) (Some 0) 7%nat 1350%nat);
    [reflexivity|vm_compute; reflexivity|exact Hlater].
Defined.

Lemma scan_result_independent_of_history_witness :
  fits16 VLP16
  /\ findStartEndAngle (copyPointCloud sample_msg (resetParameters allocateMemory))
     = Some sample_start
  /\ exists s4 s4',
       handle_scan no_subscribers sample_msg (resetParameters allocateMemory)
       = Some s4
       /\ handle_scan no_subscribers sample_msg (resetParameters sample_start)
          = Some s4'
       /\ same_scan s4 s4'
       /\ (forall r, (r < N_SCAN)%nat ->
             startRingIndex s4 r = startRingIndex s4' r
             /\ endRingIndex s4 r = endRingIndex s4' r)
       /\ forall k, (k < length (segmentedCloud s4))%nat ->
            segmentedCloudColInd s4 k = segmentedCloudColInd s4' k
            /\ segmentedCloudGroundFlag s4 k = segmentedCloudGroundFlag s4' k
            /\ segmentedCloudRange s4 k = segmentedCloudRange s4' k.
Proof.
  split; [unfold fits16; simpl; lia|]. split; [reflexivity|].
  apply (@scan_result_independent_of_history VLP16 SampleOps no_subscribers
           allocateMemory sample_start sample_msg sample_start);
    [unfold fits16; simpl; lia|reflexivity].
Defined.

Lemma accepted_clusters_have_min_size_witness :
  fits16 VLP16
  /\ findStartEndAngle (copyPointCloud scene_msg (resetParameters allocateMemory))
     = Some scene_start
  /\ exists s3,
       process all_subscribers scene_start = Some s3
       /\ forall k, (1 <= k < labelCount s3)%Z -> k <> SENTINEL_DROP ->
            (Nat.min 30 segmentValidPointNum
             <= length (filter (fun p => (labelMat s3 (fst p) (snd p) =? k)%Z)
                          (cells N_SCAN Horizon_SCAN)))%nat.
Proof.
  split; [unfold fits16; simpl; lia|]. split; [reflexivity|].
  apply (@accepted_clusters_have_min_size VLP16 SampleOps all_subscribers
           allocateMemory scene_msg scene_start);
    [unfold fits16; simpl; lia|reflexivity].
Defined.
